(** * hue-zigbee-encoding: the light-update message codec

    A shallow embedding of the TypeScript module that encodes and decodes
    the Philips Hue Zigbee light-update message, followed by the properties
    of the codec that are established on it.

    Conventions of the embedding:
    - a [Uint8Array] / [ArrayBuffer] is a [list byte]; the value of a byte is
      [byte.unsigned], a store into a byte wraps modulo 256 ([byte.of_Z]);
    - a JavaScript [number] that the source documents as an integer
      (brightness, mired, transition time, effect, effect speed, gradient
      style, scaled colour coordinates, offsets, sizes) is a [Z] or a [nat];
    - a JavaScript [number] that carries a fraction (normalised colour
      coordinates, gradient scale and offset) is a rational [Q]: arithmetic
      on it is exact, the rounding of IEEE doubles is not part of the model;
    - [undefined] is [None];
    - a thrown exception is the [Err] branch of [result]. *)

From Stdlib Require Import ZArith QArith Qminmax Qround Qabs Lia Lqa List Bool.
From Stdlib Require Ascii String.
From coqutil Require Import Byte Word.LittleEndianList Z.bitblast Z.prove_Zeq_bitwise.
From coqutil Require Datatypes.List.
Import ListNotations.
Import Corelib.Init.Byte(byte(..)).
Local Open Scope Z_scope.

(** ** Exceptions *)

(** One constructor per [throw] site of the module, plus the [RangeError]
    that [DataView] and typed arrays raise on an access outside the buffer. *)
Inductive error : Type :=
| BrightnessOutOfRange
    (* RangeError("Brightness must be between 1 and 254") *)
| OutOfBounds
    (* RangeError of DataView.get*/set*, TypedArray.set, new Uint8Array(buf, off, len) *)
| Expected3Bytes (received : nat)
    (* Error(`Expected 3 bytes, received ${data.byteLength}`) *)
| GradientSizeTooSmall (size : Z)
    (* Error(`... size=${size} too small, expected at least 4`) *)
| GradientBeyondEnd (size : Z) (from : nat)
    (* Error(`... size=${size} from offset=${offset + 1} extends beyond end of data`) *)
| GradientNotEnoughData (colorCount : Z) (extent : Z) (offset : nat) (size : Z)
    (* Error(`... not enough data (${colorCount} colors would extend ...)`) *)
| InvariantViolated (encodedLength : nat) (offset : nat).
    (* Error(`Invariant: precomputed length was ..., but only wrote ... bytes`) *)

Inductive result (A : Type) : Type :=
| Ok (a : A)
| Err (e : error).

Arguments Ok {A} a.
Arguments Err {A} e.

Definition bind {A B : Type} (c : result A) (k : A -> result B) : result B :=
  match c with
  | Ok a => k a
  | Err e => Err e
  end.

Notation "'let*' x ':=' c 'in' k" := (bind c (fun x => k))
  (at level 10, x pattern, c at level 100, k at level 200).

(** The error vocabulary of the specification (its section 7), and the kind
    it gives to each exception of the module. *)
Inductive error_kind : Type := RangeError | LengthError | FormatError | InternalFault.

Definition kind_of (e : error) : error_kind :=
  match e with
  | BrightnessOutOfRange => RangeError
  | OutOfBounds => LengthError
  | Expected3Bytes _ => LengthError
  | GradientSizeTooSmall _ => FormatError
  | GradientBeyondEnd _ _ => FormatError
  | GradientNotEnoughData _ _ _ _ => FormatError
  | InvariantViolated _ _ => InternalFault
  end.

(** ** Numbers and buffers *)

(** [v != undefined] *)
Definition defined {A : Type} (v : option A) : bool :=
  match v with
  | Some _ => true
  | None => false
  end.

(** [Math.trunc], also the integer conversion a [DataView] store applies to
    its argument before wrapping it: rounding towards zero. *)
Definition Math_trunc (q : Q) : Z := Z.quot (Qnum q) (Zpos (Qden q)).

(** [view.getUint8(offset)] *)
Definition getUint8 (view : list byte) (offset : nat) : result Z :=
  match nth_error view offset with
  | Some b => Ok (byte.unsigned b)
  | None => Err OutOfBounds
  end.

(** [view.getUint16(offset, true)] *)
Definition getUint16 (view : list byte) (offset : nat) : result Z :=
  if (offset + 2 <=? length view)%nat
  then Ok (le_combine (firstn 2 (skipn offset view)))
  else Err OutOfBounds.

(** [array.set(source, offset)] *)
Definition set (array : list byte) (source : list byte) (offset : nat)
  : result (list byte) :=
  if (offset + length source <=? length array)%nat
  then Ok (List.upds array offset source)
  else Err OutOfBounds.

(** [view.setUint8(offset, value)] *)
Definition setUint8 (array : list byte) (offset : nat) (value : Z)
  : result (list byte) :=
  set array [byte.of_Z value] offset.

(** [view.setUint16(offset, value, true)] *)
Definition setUint16 (array : list byte) (offset : nat) (value : Z)
  : result (list byte) :=
  set array (le_split 2 value) offset.

(** [new Uint8Array(buffer, byteOffset, length)] *)
Definition subarray (view : list byte) (byteOffset : nat) (len : nat)
  : result (list byte) :=
  if (byteOffset + len <=? length view)%nat
  then Ok (firstn len (skipn byteOffset view))
  else Err OutOfBounds.

(** ** Flags and enumerations *)

Module Flags.
Definition ON_OFF : Z := Z.shiftl 1 0.
Definition BRIGHTNESS : Z := Z.shiftl 1 1.
Definition COLOR_MIRED : Z := Z.shiftl 1 2.
Definition COLOR_XY : Z := Z.shiftl 1 3.
Definition TRANSITION_TIME : Z := Z.shiftl 1 4.
Definition EFFECT : Z := Z.shiftl 1 5.
Definition GRADIENT_PARAMS : Z := Z.shiftl 1 6.
Definition EFFECT_SPEED : Z := Z.shiftl 1 7.
Definition GRADIENT_COLORS : Z := Z.shiftl 1 8.
End Flags.

Module HueLightEffect.
Definition CANDLE : Z := 0x01.
Definition FIREPLACE : Z := 0x02.
Definition PRISM : Z := 0x03.
Definition SUNRISE : Z := 0x09.
Definition SPARKLE : Z := 0x0a.
Definition OPAL : Z := 0x0b.
Definition GLISTEN : Z := 0x0c.
Definition SUNSET : Z := 0x0d.
Definition UNDERWATER : Z := 0x0e.
Definition COSMOS : Z := 0x0f.
Definition SUNBEAM : Z := 0x10.
Definition ENCHANT : Z := 0x11.
End HueLightEffect.

Module HueLightGradientStyle.
Definition LINEAR : Z := 0x00.
Definition SCATTERED : Z := 0x02.
Definition MIRRORED : Z := 0x04.
End HueLightGradientStyle.

(** ** Colours *)

Module HueLightColorXYScaled.

Record t : Type := mk { x : Z; y : Z }.

Definition SCALING_MAX_X : Q := 0.7347.
Definition SCALING_MAX_Y : Q := 0.8264.

(** Serialize to a 3-byte buffer. *)
Definition toBytes (c : t) : list byte :=
  [ byte.of_Z (Z.land (x c) 0x0ff);
    byte.of_Z (Z.lor (Z.shiftr (Z.land (x c) 0xf00) 8)
                     (Z.shiftl (Z.land (y c) 0x00f) 4));
    byte.of_Z (Z.shiftr (Z.land (y c) 0xff0) 4) ].

(** Deserialize from a 3-byte buffer. *)
Definition fromBytes (data : list byte) : result t :=
  if negb (length data =? 3)%nat then Err (Expected3Bytes (length data))
  else
    let a := byte.unsigned (nth 0 data x00) in
    let b := byte.unsigned (nth 1 data x00) in
    let c := byte.unsigned (nth 2 data x00) in
    Ok (mk (Z.lor (Z.shiftl (Z.land b 0x0f) 8) a)
           (Z.lor (Z.shiftl c 4) (Z.shiftr b 4))).

End HueLightColorXYScaled.

Module HueLightColorXY.

Record t : Type := mk { x : Q; y : Q }.

(** Convert from 0-1 to a scaled representation for serialization. *)
Definition toScaled (c : t) : HueLightColorXYScaled.t :=
  HueLightColorXYScaled.mk
    (Math_trunc (inject_Z 0xfff *
       Qmax 0 (Qmin (x c / HueLightColorXYScaled.SCALING_MAX_X) 1)))
    (Math_trunc (inject_Z 0xfff *
       Qmax 0 (Qmin (y c / HueLightColorXYScaled.SCALING_MAX_Y) 1))).

(** Convert from a scaled representation to 0-1. *)
Definition fromScaled (scaled : HueLightColorXYScaled.t) : t :=
  mk ((inject_Z (HueLightColorXYScaled.x scaled) / inject_Z 0xfff)
        * HueLightColorXYScaled.SCALING_MAX_X)
     ((inject_Z (HueLightColorXYScaled.y scaled) / inject_Z 0xfff)
        * HueLightColorXYScaled.SCALING_MAX_Y).

End HueLightColorXY.

Module HueLightColorMired.
Record t : Type := mk { mired : Z }.

(** Create a color by converting from Kelvin to mireds.  (For [kelvin = 0]
    JavaScript computes the number Infinity, which [mired : Z] cannot hold;
    what is stated of [fromKelvin] below is stated for [kelvin <> 0].) *)
Definition fromKelvin (kelvin : Q) : t :=
  mk (Math_trunc (1000000 / kelvin)).
End HueLightColorMired.

Module HueLightGradient.
Record t : Type := mk { style : Z; colors : list HueLightColorXY.t }.
End HueLightGradient.

Module HueLightGradientParams.
Record t : Type := mk { scale : Q; offset : Q }.
End HueLightGradientParams.

(** ** The combined light-state update message *)

Module HueLightUpdateMessage.

Record t : Type := mk {
  isOn : option bool;
  brightness : option Z;
  colorTemp : option HueLightColorMired.t;
  colorXY : option HueLightColorXY.t;
  transitionTime : option Z;
  effect : option Z;
  effectSpeed : option Z;
  gradient : option HueLightGradient.t;
  gradientParams : option HueLightGradientParams.t
}.

(** *** Encoding *)

Definition encodedLength (m : t) : nat :=
  (2 +
   (if defined (isOn m) then 1 else 0) +
   (if defined (brightness m) then 1 else 0) +
   (if defined (colorTemp m) then 2 else 0) +
   (if defined (colorXY m) then 4 else 0) +
   (if defined (transitionTime m) then 2 else 0) +
   (if defined (effect m) then 1 else 0) +
   (match gradient m with
    | Some g => 5 + 3 * length (HueLightGradient.colors g)
    | None => 0
    end) +
   (if defined (effectSpeed m) then 1 else 0) +
   (if defined (gradientParams m) then 2 else 0))%nat.

(** The three locals the encoder threads through its blocks. *)
Record wstate : Type :=
  mkw { st_array : list byte; st_offset : nat; st_flags : Z }.

Definition writeIsOn (v : option bool) (st : wstate) : result wstate :=
  match v with
  | None => Ok st
  | Some isOn =>
      let flags := Z.lor (st_flags st) Flags.ON_OFF in
      let* array := setUint8 (st_array st) (st_offset st) (if isOn then 1 else 0) in
      Ok (mkw array (st_offset st + 1) flags)
  end.

Definition writeBrightness (v : option Z) (st : wstate) : result wstate :=
  match v with
  | None => Ok st
  | Some brightness =>
      if (brightness <? 1) || (brightness >? 254) then Err BrightnessOutOfRange
      else
        let flags := Z.lor (st_flags st) Flags.BRIGHTNESS in
        let* array := setUint8 (st_array st) (st_offset st) brightness in
        Ok (mkw array (st_offset st + 1) flags)
  end.

Definition writeColorTemp (v : option HueLightColorMired.t) (st : wstate)
  : result wstate :=
  match v with
  | None => Ok st
  | Some colorTemp =>
      let flags := Z.lor (st_flags st) Flags.COLOR_MIRED in
      let* array :=
        setUint16 (st_array st) (st_offset st) (HueLightColorMired.mired colorTemp) in
      Ok (mkw array (st_offset st + 2) flags)
  end.

Definition writeColorXY (v : option HueLightColorXY.t) (st : wstate)
  : result wstate :=
  match v with
  | None => Ok st
  | Some colorXY =>
      let flags := Z.lor (st_flags st) Flags.COLOR_XY in
      let* array :=
        setUint16 (st_array st) (st_offset st)
          (Math_trunc (HueLightColorXY.x colorXY * inject_Z 0xffff)) in
      let* array :=
        setUint16 array (st_offset st + 2)
          (Math_trunc (HueLightColorXY.y colorXY * inject_Z 0xffff)) in
      Ok (mkw array (st_offset st + 4) flags)
  end.

Definition writeTransitionTime (v : option Z) (st : wstate) : result wstate :=
  match v with
  | None => Ok st
  | Some transitionTime =>
      let flags := Z.lor (st_flags st) Flags.TRANSITION_TIME in
      let* array := setUint16 (st_array st) (st_offset st) transitionTime in
      Ok (mkw array (st_offset st + 2) flags)
  end.

Definition writeEffect (v : option Z) (st : wstate) : result wstate :=
  match v with
  | None => Ok st
  | Some effect =>
      let flags := Z.lor (st_flags st) Flags.EFFECT in
      let* array := setUint8 (st_array st) (st_offset st) effect in
      Ok (mkw array (st_offset st + 1) flags)
  end.

(** [for (const color of gradient.colors) { array.set(...); offset += 3; }] *)
Fixpoint writeColors (colors : list HueLightColorXY.t)
                     (array : list byte) (offset : nat)
  : result (list byte * nat) :=
  match colors with
  | [] => Ok (array, offset)
  | color :: rest =>
      let* array :=
        set array (HueLightColorXYScaled.toBytes (HueLightColorXY.toScaled color))
            offset in
      writeColors rest array (offset + 3)
  end.

Definition writeGradient (v : option HueLightGradient.t) (st : wstate)
  : result wstate :=
  match v with
  | None => Ok st
  | Some gradient =>
      let colors := HueLightGradient.colors gradient in
      let flags := Z.lor (st_flags st) Flags.GRADIENT_COLORS in
      let size := 4 + 3 * Z.of_nat (length colors) in
      let offset := st_offset st in
      let* array := setUint8 (st_array st) offset size in
      let offset := (offset + 1)%nat in
      let* array := setUint8 array offset (Z.shiftl (Z.of_nat (length colors)) 4) in
      let offset := (offset + 1)%nat in
      let* array := setUint8 array offset (HueLightGradient.style gradient) in
      let offset := (offset + 1)%nat in
      let offset := (offset + 2)%nat in (* reserved/zero *)
      let* (array, offset) := writeColors colors array offset in
      Ok (mkw array offset flags)
  end.

Definition writeEffectSpeed (v : option Z) (st : wstate) : result wstate :=
  match v with
  | None => Ok st
  | Some effectSpeed =>
      let flags := Z.lor (st_flags st) Flags.EFFECT_SPEED in
      let* array := setUint8 (st_array st) (st_offset st) effectSpeed in
      Ok (mkw array (st_offset st + 1) flags)
  end.

Definition writeGradientParams (v : option HueLightGradientParams.t) (st : wstate)
  : result wstate :=
  match v with
  | None => Ok st
  | Some gradientParams =>
      let flags := Z.lor (st_flags st) Flags.GRADIENT_PARAMS in
      let* array :=
        setUint8 (st_array st) (st_offset st)
          (Math_trunc (HueLightGradientParams.scale gradientParams * inject_Z 8)) in
      let* array :=
        setUint8 array (st_offset st + 1)
          (Math_trunc (HueLightGradientParams.offset gradientParams * inject_Z 8)) in
      Ok (mkw array (st_offset st + 2) flags)
  end.

(** The blocks of [toBytes] in source order, up to the invariant check. *)
Definition writeFields (m : t) (st : wstate) : result wstate :=
  let* st := writeIsOn (isOn m) st in
  let* st := writeBrightness (brightness m) st in
  let* st := writeColorTemp (colorTemp m) st in
  let* st := writeColorXY (colorXY m) st in
  let* st := writeTransitionTime (transitionTime m) st in
  let* st := writeEffect (effect m) st in
  let* st := writeGradient (gradient m) st in
  let* st := writeEffectSpeed (effectSpeed m) st in
  writeGradientParams (gradientParams m) st.

(** Serialize a HueLightUpdateMessage to a byte array. *)
Definition toBytes (m : t) : result (list byte) :=
  let encodedLength := encodedLength m in
  let array := repeat x00 encodedLength in
  (* flags are written at the end *)
  let* st := writeFields m (mkw array 2 0) in
  if negb (st_offset st =? encodedLength)%nat
  then Err (InvariantViolated encodedLength (st_offset st))
  else setUint16 (st_array st) 0 (st_flags st).

(** *** Decoding *)

(** [(flags & flag) !== 0] *)
Definition hasFlag (flags flag : Z) : bool := negb (Z.land flags flag =? 0).

Definition readIsOn (flags : Z) (view : list byte) (offset : nat)
  : result (option bool * nat) :=
  if hasFlag flags Flags.ON_OFF then
    let* v := getUint8 view offset in
    Ok (Some (negb (v =? 0)), (offset + 1)%nat)
  else Ok (None, offset).

Definition readBrightness (flags : Z) (view : list byte) (offset : nat)
  : result (option Z * nat) :=
  if hasFlag flags Flags.BRIGHTNESS then
    let* v := getUint8 view offset in
    Ok (Some v, (offset + 1)%nat)
  else Ok (None, offset).

Definition readColorTemp (flags : Z) (view : list byte) (offset : nat)
  : result (option HueLightColorMired.t * nat) :=
  if hasFlag flags Flags.COLOR_MIRED then
    let* mired := getUint16 view offset in
    Ok (Some (HueLightColorMired.mk mired), (offset + 2)%nat)
  else Ok (None, offset).

Definition readColorXY (flags : Z) (view : list byte) (offset : nat)
  : result (option HueLightColorXY.t * nat) :=
  if hasFlag flags Flags.COLOR_XY then
    let* x := getUint16 view offset in
    let x := (inject_Z x / inject_Z 0xffff)%Q in
    let offset := (offset + 2)%nat in
    let* y := getUint16 view offset in
    let y := (inject_Z y / inject_Z 0xffff)%Q in
    let offset := (offset + 2)%nat in
    Ok (Some (HueLightColorXY.mk x y), offset)
  else Ok (None, offset).

Definition readTransitionTime (flags : Z) (view : list byte) (offset : nat)
  : result (option Z * nat) :=
  if hasFlag flags Flags.TRANSITION_TIME then
    let* v := getUint16 view offset in
    Ok (Some v, (offset + 2)%nat)
  else Ok (None, offset).

Definition readEffect (flags : Z) (view : list byte) (offset : nat)
  : result (option Z * nat) :=
  if hasFlag flags Flags.EFFECT then
    let* v := getUint8 view offset in
    Ok (Some v, (offset + 1)%nat)
  else Ok (None, offset).

(** [for (let colorOffset = colorsStart; colorOffset < colorsEnd; colorOffset += 3)]
    with [colorsEnd = colorsStart + colorCount * 3]: the body runs
    [colorCount] times. *)
Fixpoint readColors (view : list byte) (colorOffset : nat) (colorCount : nat)
  : result (list HueLightColorXY.t) :=
  match colorCount with
  | O => Ok []
  | S n =>
      let* bytes := subarray view colorOffset 3 in
      let* scaled := HueLightColorXYScaled.fromBytes bytes in
      let* rest := readColors view (colorOffset + 3) n in
      Ok (HueLightColorXY.fromScaled scaled :: rest)
  end.

Definition readGradient (flags : Z) (view : list byte) (offset : nat)
  : result (option HueLightGradient.t * nat) :=
  if hasFlag flags Flags.GRADIENT_COLORS then
    let* size := getUint8 view offset in
    if size <? 4 then Err (GradientSizeTooSmall size)
    else if Z.of_nat offset + size + 1 >? Z.of_nat (length view)
    then Err (GradientBeyondEnd size (offset + 1))
    else
      let* b := getUint8 view (offset + 1) in
      let colorCount := Z.shiftr b 4 in
      let* style := getUint8 view (offset + 2) in
      let colorsStart := (offset + 5)%nat in
      let colorsEnd := Z.of_nat colorsStart + colorCount * 3 in
      if colorsEnd >? Z.of_nat offset + size + 1
      then Err (GradientNotEnoughData colorCount (colorsEnd - Z.of_nat offset)
                                      offset size)
      else
        let* colors := readColors view colorsStart (Z.to_nat colorCount) in
        Ok (Some (HueLightGradient.mk style colors),
            (offset + (Z.to_nat size + 1))%nat)
  else Ok (None, offset).

Definition readEffectSpeed (flags : Z) (view : list byte) (offset : nat)
  : result (option Z * nat) :=
  if hasFlag flags Flags.EFFECT_SPEED then
    let* v := getUint8 view offset in
    Ok (Some v, (offset + 1)%nat)
  else Ok (None, offset).

Definition readGradientParams (flags : Z) (view : list byte) (offset : nat)
  : result (option HueLightGradientParams.t * nat) :=
  if hasFlag flags Flags.GRADIENT_PARAMS then
    let* scale := getUint8 view offset in
    let* offset' := getUint8 view (offset + 1) in
    Ok (Some (HueLightGradientParams.mk (inject_Z scale / inject_Z 8)
                                        (inject_Z offset' / inject_Z 8)),
        (offset + 2)%nat)
  else Ok (None, offset).

(** The body of [fromBytes]: the decoded message together with the final
    value of the read cursor. *)
Definition decode (view : list byte) : result (t * nat) :=
  let offset := 0%nat in
  let* flags := getUint16 view offset in
  let offset := (offset + 2)%nat in
  let* (isOn, offset) := readIsOn flags view offset in
  let* (brightness, offset) := readBrightness flags view offset in
  let* (colorTemp, offset) := readColorTemp flags view offset in
  let* (colorXY, offset) := readColorXY flags view offset in
  let* (transitionTime, offset) := readTransitionTime flags view offset in
  let* (effect, offset) := readEffect flags view offset in
  let* (gradient, offset) := readGradient flags view offset in
  let* (effectSpeed, offset) := readEffectSpeed flags view offset in
  let* (gradientParams, offset) := readGradientParams flags view offset in
  Ok (mk isOn brightness colorTemp colorXY transitionTime effect effectSpeed
         gradient gradientParams, offset).

(** Deserialize a HueLightUpdateMessage from a byte buffer. *)
Definition fromBytes (data : list byte) : result t :=
  let* (result, _) := decode data in
  Ok result.

End HueLightUpdateMessage.


(** ** The wire format

    The byte image of a message written out field by field, in the order of
    the wire (flag word; on/off; brightness; mired; XY; transition time;
    effect; gradient colours; effect speed; gradient parameters).  The
    encoder, which stores into a preallocated array through a moving
    cursor, is proved below to produce exactly this image. *)

Module Wire.

Import HueLightUpdateMessage.

Definition u8 (v : Z) : list byte := [byte.of_Z v].
Definition u16 (v : Z) : list byte := le_split 2 v.

Definition bytesIsOn (v : option bool) : list byte :=
  match v with
  | Some b => u8 (if b then 1 else 0)
  | None => []
  end.

Definition bytesU8 (v : option Z) : list byte :=
  match v with
  | Some n => u8 n
  | None => []
  end.

Definition bytesU16 (v : option Z) : list byte :=
  match v with
  | Some n => u16 n
  | None => []
  end.

Definition bytesColorTemp (v : option HueLightColorMired.t) : list byte :=
  match v with
  | Some c => u16 (HueLightColorMired.mired c)
  | None => []
  end.

Definition bytesColorXY (v : option HueLightColorXY.t) : list byte :=
  match v with
  | Some c =>
      u16 (Math_trunc (HueLightColorXY.x c * inject_Z 0xffff))
      ++ u16 (Math_trunc (HueLightColorXY.y c * inject_Z 0xffff))
  | None => []
  end.

Definition bytesColor (c : HueLightColorXY.t) : list byte :=
  HueLightColorXYScaled.toBytes (HueLightColorXY.toScaled c).

Definition bytesGradient (v : option HueLightGradient.t) : list byte :=
  match v with
  | Some g =>
      let colors := HueLightGradient.colors g in
      u8 (4 + 3 * Z.of_nat (length colors))
      ++ u8 (Z.shiftl (Z.of_nat (length colors)) 4)
      ++ u8 (HueLightGradient.style g)
      ++ [x00; x00]
      ++ flat_map bytesColor colors
  | None => []
  end.

Definition bytesGradientParams (v : option HueLightGradientParams.t) : list byte :=
  match v with
  | Some p =>
      u8 (Math_trunc (HueLightGradientParams.scale p * inject_Z 8))
      ++ u8 (Math_trunc (HueLightGradientParams.offset p * inject_Z 8))
  | None => []
  end.

(** [flags |= flag], performed when the field is set. *)
Definition orFlag {A : Type} (v : option A) (flag : Z) (flags : Z) : Z :=
  if defined v then Z.lor flags flag else flags.

Definition flagsOf (m : t) : Z :=
  orFlag (gradientParams m) Flags.GRADIENT_PARAMS
    (orFlag (effectSpeed m) Flags.EFFECT_SPEED
      (orFlag (gradient m) Flags.GRADIENT_COLORS
        (orFlag (effect m) Flags.EFFECT
          (orFlag (transitionTime m) Flags.TRANSITION_TIME
            (orFlag (colorXY m) Flags.COLOR_XY
              (orFlag (colorTemp m) Flags.COLOR_MIRED
                (orFlag (brightness m) Flags.BRIGHTNESS
                  (orFlag (isOn m) Flags.ON_OFF 0)))))))).

Definition body (m : t) : list byte :=
  bytesIsOn (isOn m)
  ++ bytesU8 (brightness m)
  ++ bytesColorTemp (colorTemp m)
  ++ bytesColorXY (colorXY m)
  ++ bytesU16 (transitionTime m)
  ++ bytesU8 (effect m)
  ++ bytesGradient (gradient m)
  ++ bytesU8 (effectSpeed m)
  ++ bytesGradientParams (gradientParams m).

Definition image (m : t) : list byte := u16 (flagsOf m) ++ body m.

(** Shape shared by the write blocks: started on an array that holds [pre]
    followed by enough zero bytes, with the cursor at the end of [pre], the
    block leaves [pre ++ img] followed by the remaining zero bytes, the
    cursor at the end of [pre ++ img], and its flag accumulated. *)
Definition writes {A : Type} (block : option A -> wstate -> result wstate)
                  (img : option A -> list byte) (flag : Z) (v : option A) : Prop :=
  forall (pre : list byte) (o n k : nat) (f : Z),
    o = length pre -> n = (length (img v) + k)%nat ->
    block v (mkw (pre ++ repeat x00 n) o f)
    = Ok (mkw ((pre ++ img v) ++ repeat x00 k) (length (pre ++ img v))
              (orFlag v flag f)).

(** The brightness test of the encoder. *)
Definition brightnessInRange (m : t) : bool :=
  match brightness m with
  | Some b => negb ((b <? 1) || (b >? 254))
  | None => true
  end.

End Wire.

(** ** Readers

    Every block of the decoder is a reader: given the view and the cursor it
    returns the decoded attribute (or [None] when its flag is clear) and the
    advanced cursor.  The blocks that read a fixed number of bytes all have
    the shape [fixedField]. *)

Module Reader.

Definition t (A : Type) : Type := list byte -> nat -> result (option A * nat).

(** The [n] bytes of the view that start at offset [o]. *)
Definition window (view : list byte) (o n : nat) : list byte :=
  firstn n (skipn o view).

Definition fixedField {A : Type} (present : bool) (n : nat)
                      (value : list byte -> A) : t A :=
  fun view o =>
    if present then
      if (o + n <=? length view)%nat
      then Ok (Some (value (window view o n)), (o + n)%nat)
      else Err OutOfBounds
    else Ok (None, o).

(** What each fixed-size block makes of the bytes of its window. *)
Definition u8At (bs : list byte) (i : nat) : Z := byte.unsigned (nth i bs x00).

Definition valueIsOn (bs : list byte) : bool := negb (u8At bs 0 =? 0).

Definition valueU8 (bs : list byte) : Z := u8At bs 0.

Definition valueU16 (bs : list byte) : Z := le_combine bs.

Definition valueColorTemp (bs : list byte) : HueLightColorMired.t :=
  HueLightColorMired.mk (le_combine bs).

Definition valueColorXY (bs : list byte) : HueLightColorXY.t :=
  HueLightColorXY.mk (inject_Z (le_combine (firstn 2 bs)) / inject_Z 0xffff)
                     (inject_Z (le_combine (skipn 2 bs)) / inject_Z 0xffff).

Definition valueGradientParams (bs : list byte) : HueLightGradientParams.t :=
  HueLightGradientParams.mk (inject_Z (u8At bs 0) / inject_Z 8)
                            (inject_Z (u8At bs 1) / inject_Z 8).

(** A reader moves the cursor forward and stays inside the view. *)
Definition advances {A : Type} (R : t A) : Prop :=
  forall view o a o',
    R view o = Ok (a, o') -> (o <= o' /\ (o <= length view -> o' <= length view))%nat.

(** A successful read is not affected by bytes appended to the view. *)
Definition extends {A : Type} (R : t A) : Prop :=
  forall view extra o r, R view o = Ok r -> R (view ++ extra) o = Ok r.

(** A read at [o] depends only on the length of the view and on its bytes
    from [o] on. *)
Definition local {A : Type} (R : t A) : Prop :=
  forall view view' o,
    length view = length view' -> skipn o view = skipn o view' ->
    R view o = R view' o.

End Reader.

(** The flag word and the cursor at which the gradient block starts: the
    blocks of [decode] that precede the gradient block. *)
Definition gradientCursor (view : list byte) : result (Z * nat) :=
  let* flags := getUint16 view 0 in
  let* (_, offset) := HueLightUpdateMessage.readIsOn flags view 2 in
  let* (_, offset) := HueLightUpdateMessage.readBrightness flags view offset in
  let* (_, offset) := HueLightUpdateMessage.readColorTemp flags view offset in
  let* (_, offset) := HueLightUpdateMessage.readColorXY flags view offset in
  let* (_, offset) := HueLightUpdateMessage.readTransitionTime flags view offset in
  let* (_, offset) := HueLightUpdateMessage.readEffect flags view offset in
  Ok (flags, offset).

(** A successful run of [decode], block by block: the flag word, the
    attribute and the cursor each block returns. *)
Definition decodes (view : list byte) (flags : Z) (m : HueLightUpdateMessage.t)
                   (o1 o2 o3 o4 o5 o6 o7 o8 n : nat) : Prop :=
  getUint16 view 0 = Ok flags
  /\ HueLightUpdateMessage.readIsOn flags view 2
     = Ok (HueLightUpdateMessage.isOn m, o1)
  /\ HueLightUpdateMessage.readBrightness flags view o1
     = Ok (HueLightUpdateMessage.brightness m, o2)
  /\ HueLightUpdateMessage.readColorTemp flags view o2
     = Ok (HueLightUpdateMessage.colorTemp m, o3)
  /\ HueLightUpdateMessage.readColorXY flags view o3
     = Ok (HueLightUpdateMessage.colorXY m, o4)
  /\ HueLightUpdateMessage.readTransitionTime flags view o4
     = Ok (HueLightUpdateMessage.transitionTime m, o5)
  /\ HueLightUpdateMessage.readEffect flags view o5
     = Ok (HueLightUpdateMessage.effect m, o6)
  /\ HueLightUpdateMessage.readGradient flags view o6
     = Ok (HueLightUpdateMessage.gradient m, o7)
  /\ HueLightUpdateMessage.readEffectSpeed flags view o7
     = Ok (HueLightUpdateMessage.effectSpeed m, o8)
  /\ HueLightUpdateMessage.readGradientParams flags view o8
     = Ok (HueLightUpdateMessage.gradientParams m, n).

(** The buffer with further bits of its flag word set: the little-endian
    16-bit word in the first two bytes is or-ed with [bits]. *)
Definition setFlagBits (bits : Z) (data : list byte) : list byte :=
  match data with
  | b0 :: b1 :: rest => le_split 2 (Z.lor (le_combine [b0; b1]) bits) ++ rest
  | _ => data
  end.

(** Two flag words that agree on the nine assigned bits. *)
Definition sameFlags (f f' : Z) : Prop :=
  forall i, 0 <= i <= 8 ->
    HueLightUpdateMessage.hasFlag f (Z.shiftl 1 i)
    = HueLightUpdateMessage.hasFlag f' (Z.shiftl 1 i).

(** Where a cut of the buffer at length [k] falls with respect to the
    gradient block: [Some (size, o)] when the gradient flag is set, the
    block starts at [o] with size byte [size], and the cut keeps the size
    byte but not the whole block. *)
Definition cutInsideGradient (full : list byte) (k : nat) : option (Z * nat) :=
  match gradientCursor full with
  | Ok (flags, o) =>
      if HueLightUpdateMessage.hasFlag flags Flags.GRADIENT_COLORS then
        match getUint8 full o with
        | Ok size =>
            if (o <? k)%nat && (Z.of_nat k <? Z.of_nat o + size + 1)
            then Some (size, o)
            else None
        | Err _ => None
        end
      else None
  | Err _ => None
  end.

(** The exception a truncated buffer raises. *)
Definition truncationError (full : list byte) (k : nat) : error :=
  match cutInsideGradient full k with
  | Some (size, o) => GradientBeyondEnd size (o + 1)
  | None => OutOfBounds
  end.

(** ** Round trips

    What decoding the wire image of a message returns, in closed form, and
    the comparison of a message with its round trip that the specification
    asks for. *)

Module RoundTrip.

Import HueLightUpdateMessage.

Definition u16wrap (v : Z) : Z := v mod 2 ^ 16.

Definition colorXY' (c : HueLightColorXY.t) : HueLightColorXY.t :=
  HueLightColorXY.mk
    (inject_Z (u16wrap (Math_trunc (HueLightColorXY.x c * inject_Z 0xffff)))
       / inject_Z 0xffff)
    (inject_Z (u16wrap (Math_trunc (HueLightColorXY.y c * inject_Z 0xffff)))
       / inject_Z 0xffff).

Definition gradientColor' (c : HueLightColorXY.t) : HueLightColorXY.t :=
  HueLightColorXY.fromScaled (HueLightColorXY.toScaled c).

Definition gradient' (g : HueLightGradient.t) : HueLightGradient.t :=
  HueLightGradient.mk (byte.wrap (HueLightGradient.style g))
                      (map gradientColor' (HueLightGradient.colors g)).

Definition gradientParams' (p : HueLightGradientParams.t)
  : HueLightGradientParams.t :=
  HueLightGradientParams.mk
    (inject_Z (byte.wrap (Math_trunc (HueLightGradientParams.scale p * inject_Z 8)))
       / inject_Z 8)
    (inject_Z (byte.wrap (Math_trunc (HueLightGradientParams.offset p * inject_Z 8)))
       / inject_Z 8).

(** The message [fromBytes] returns on the wire image of [m]. *)
Definition decoded (m : t) : t :=
  mk (isOn m)
     (option_map byte.wrap (brightness m))
     (option_map (fun c => HueLightColorMired.mk (u16wrap (HueLightColorMired.mired c)))
                 (colorTemp m))
     (option_map colorXY' (colorXY m))
     (option_map u16wrap (transitionTime m))
     (option_map byte.wrap (effect m))
     (option_map byte.wrap (effectSpeed m))
     (option_map gradient' (gradient m))
     (option_map gradientParams' (gradientParams m)).

(** Both unset, or both set and related. *)
Definition optRel {A : Type} (R : A -> A -> Prop) (a b : option A) : Prop :=
  match a, b with
  | Some u, Some v => R u v
  | None, None => True
  | _, _ => False
  end.

(** Each coordinate of [d] is within 1/4095 of the axis maximum of the
    coordinate of [c]. *)
Definition closeXY (c d : HueLightColorXY.t) : Prop :=
  (Qabs (HueLightColorXY.x d - HueLightColorXY.x c)
     <= (1 # 4095) * HueLightColorXYScaled.SCALING_MAX_X
   /\ Qabs (HueLightColorXY.y d - HueLightColorXY.y c)
     <= (1 # 4095) * HueLightColorXYScaled.SCALING_MAX_Y)%Q.

Definition sameGradient (g g' : HueLightGradient.t) : Prop :=
  HueLightGradient.style g' = HueLightGradient.style g
  /\ length (HueLightGradient.colors g') = length (HueLightGradient.colors g)
  /\ Forall2 closeXY (HueLightGradient.colors g) (HueLightGradient.colors g').

Definition sameParams (p p' : HueLightGradientParams.t) : Prop :=
  (HueLightGradientParams.scale p' == HueLightGradientParams.scale p
   /\ HueLightGradientParams.offset p' == HueLightGradientParams.offset p)%Q.

(** [m'] reproduces [m]: the same attributes are set; on/off, brightness,
    mired, transition time, effect and effect speed are equal; gradient
    style, colour count and gradient parameters are equal; colours are
    within the quantisation tolerance. *)
Definition reproduces (m m' : t) : Prop :=
  isOn m' = isOn m
  /\ brightness m' = brightness m
  /\ colorTemp m' = colorTemp m
  /\ optRel closeXY (colorXY m) (colorXY m')
  /\ transitionTime m' = transitionTime m
  /\ effect m' = effect m
  /\ effectSpeed m' = effectSpeed m
  /\ optRel sameGradient (gradient m) (gradient m')
  /\ optRel sameParams (gradientParams m) (gradientParams m').

Definition whenSet {A : Type} (P : A -> Prop) (a : option A) : Prop :=
  match a with
  | Some u => P u
  | None => True
  end.

(** The messages the round-trip claim of the specification quantifies over:
    brightness, if set, in 1..254 and at most 15 gradient colours. *)
Definition claimed (m : t) : Prop :=
  whenSet (fun b => 1 <= b <= 254) (brightness m)
  /\ whenSet (fun g => (length (HueLightGradient.colors g) <= 15)%nat) (gradient m).

(** A multiple of 1/8 between 0 and 31.875. *)
Definition eighths (q : Q) : Prop :=
  exists k : Z, 0 <= k <= 255 /\ (q == inject_Z k / inject_Z 8)%Q.

(** Every attribute within the range its documentation gives: integers
    within the width of their wire field, normalised coordinates in 0..1,
    gradient coordinates not above the axis maxima, gradient parameters in
    eighths. *)
Definition inRange (m : t) : Prop :=
  whenSet (fun b => 1 <= b <= 254) (brightness m)
  /\ whenSet (fun c => 0 <= HueLightColorMired.mired c <= 0xffff) (colorTemp m)
  /\ whenSet (fun c => (0 <= HueLightColorXY.x c <= 1
                        /\ 0 <= HueLightColorXY.y c <= 1)%Q) (colorXY m)
  /\ whenSet (fun v => 0 <= v <= 0xffff) (transitionTime m)
  /\ whenSet (fun v => 0 <= v <= 0xff) (effect m)
  /\ whenSet (fun v => 0 <= v <= 0xff) (effectSpeed m)
  /\ whenSet (fun g =>
                0 <= HueLightGradient.style g <= 0xff
                /\ (length (HueLightGradient.colors g) <= 15)%nat
                /\ Forall (fun c =>
                             (0 <= HueLightColorXY.x c
                                <= HueLightColorXYScaled.SCALING_MAX_X
                              /\ 0 <= HueLightColorXY.y c
                                <= HueLightColorXYScaled.SCALING_MAX_Y)%Q)
                          (HueLightGradient.colors g))
             (gradient m)
  /\ whenSet (fun p => eighths (HueLightGradientParams.scale p)
                       /\ eighths (HueLightGradientParams.offset p))
             (gradientParams m).

End RoundTrip.

(** ** Hex strings

    A JavaScript string is a [string]: its characters are the code units
    below 256 (a string with a code unit above 255 is not represented; the
    test of [hexToBytes] would reject it).  The one [throw] of [hexToBytes]
    is the result [None]. *)

Module Hex.

Import Ascii String.

Definition code (c : ascii) : Z := Z.of_N (N_of_ascii c).

(** The character class [[0-9a-fA-F]]. *)
Definition isHexDigit (c : ascii) : bool :=
  ((code "0"%char <=? code c) && (code c <=? code "9"%char))
  || ((code "a"%char <=? code c) && (code c <=? code "f"%char))
  || ((code "A"%char <=? code c) && (code c <=? code "F"%char)).

(** [VALID_HEX.test(str)], for [VALID_HEX = /^(?:[0-9a-fA-F]{2})*$/]. *)
Fixpoint VALID_HEX (str : string) : bool :=
  match str with
  | EmptyString => true
  | String _ EmptyString => false
  | String a (String b rest) => isHexDigit a && isHexDigit b && VALID_HEX rest
  end.

(** The value of a digit in radix 16, [None] for any other character. *)
Definition digitValue (c : ascii) : option Z :=
  if (code "0"%char <=? code c) && (code c <=? code "9"%char) then Some (code c - code "0"%char)
  else if (code "a"%char <=? code c) && (code c <=? code "f"%char) then Some (code c - code "a"%char + 10)
  else if (code "A"%char <=? code c) && (code c <=? code "F"%char) then Some (code c - code "A"%char + 10)
  else None.

(** White space that [parseInt] skips (tab, line feed, vertical tab, form
    feed, carriage return, space, no-break space). *)
Definition isWhiteSpace (c : ascii) : bool :=
  ((9 <=? code c) && (code c <=? 13)) || (code c =? 32) || (code c =? 160).

Fixpoint trimStart (s : string) : string :=
  match s with
  | String c rest => if isWhiteSpace c then trimStart rest else s
  | EmptyString => EmptyString
  end.

(** The value of the longest prefix of digits, most significant first. *)
Fixpoint digits (acc : Z) (s : string) : Z :=
  match s with
  | String c rest =>
      match digitValue c with
      | Some d => digits (16 * acc + d) rest
      | None => acc
      end
  | EmptyString => acc
  end.

Definition startsWithDigit (s : string) : bool :=
  match s with
  | String c _ => defined (digitValue c)
  | EmptyString => false
  end.

(** [parseInt(s, 16)]: leading white space, an optional sign and an
    optional [0x] / [0X] prefix are skipped; the result is the value of the
    following digits, [None] (NaN) when there is none. *)
Definition parseInt16 (s : string) : option Z :=
  let s := trimStart s in
  let '(sign, s) :=
    match s with
    | String c rest =>
        if (c =? "-")%char then (-1, rest)
        else if (c =? "+")%char then (1, rest)
        else (1, s)
    | EmptyString => (1, s)
    end in
  let s :=
    match s with
    | String c0 (String c1 rest) =>
        if (c0 =? "0")%char && ((c1 =? "x")%char || (c1 =? "X")%char)
        then rest
        else s
    | _ => s
    end in
  if startsWithDigit s then Some (sign * digits 0 s) else None.

(** A store [result[i] = v] into a [Uint8Array]: NaN is stored as 0. *)
Definition toUint8 (v : option Z) : byte :=
  match v with
  | Some n => byte.of_Z n
  | None => x00
  end.

(** Convert a hex string into a [Uint8Array].  The length of a string that
    passes the test is even, so [str.length / 2] is a whole number. *)
Definition hexToBytes (str : string) : option (list byte) :=
  if negb (VALID_HEX str) then None
  else
    let byteLength := (String.length str / 2)%nat in
    Some (map (fun i => toUint8 (parseInt16 (substring (i * 2) 2 str)))
              (seq 0 byteLength)).

(** The digit of a value below 16, as [toString(16)] writes it. *)
Definition hexChar (d : Z) : ascii :=
  if d <? 10 then ascii_of_N (Z.to_N (code "0"%char + d))
  else ascii_of_N (Z.to_N (code "a"%char + (d - 10))).

(** [byte.toString(16)] for a value below 256: one or two digits, no
    leading zero. *)
Definition toString16 (n : Z) : string :=
  if n <? 16 then String (hexChar n) EmptyString
  else String (hexChar (n / 16)) (String (hexChar (n mod 16)) EmptyString).

(** Convert a byte buffer into a hex string. *)
Definition bytesToHex (bytes : list byte) : string :=
  fold_left
    (fun result b =>
       let byte := byte.unsigned b in
       let result := if byte <? 0x10 then (result ++ "0")%string else result in
       (result ++ toString16 byte)%string)
    bytes EmptyString.

(** The value of a hexadecimal digit (0 for any other character), and the
    bytes a string of digit pairs denotes. *)
Definition digit (c : ascii) : Z :=
  match digitValue c with
  | Some d => d
  | None => 0
  end.

Fixpoint pairs (s : string) : list byte :=
  match s with
  | String a (String b rest) => byte.of_Z (16 * digit a + digit b) :: pairs rest
  | _ => []
  end.

(** Lower case of the letters A to Z, every other character unchanged. *)
Definition toLowerCase1 (c : ascii) : ascii :=
  if (code "A"%char <=? code c) && (code c <=? code "Z"%char)
  then ascii_of_N (Z.to_N (code c + 32))
  else c.

Fixpoint toLowerCase (s : string) : string :=
  match s with
  | String c rest => String (toLowerCase1 c) (toLowerCase rest)
  | EmptyString => EmptyString
  end.

End Hex.

(** ** Gradients of more than 15 colours

    The colour count of a gradient block is a 4-bit field: [toBytes] stores
    [colors.length << 4] in one byte. *)

Module LongGradient.

Import HueLightUpdateMessage.

(** The message with its gradient replaced. *)
Definition withGradient (m : t) (g : option HueLightGradient.t) : t :=
  mk (isOn m) (brightness m) (colorTemp m) (colorXY m) (transitionTime m)
     (effect m) (effectSpeed m) g (gradientParams m).

(** The gradient with only the colours the 4-bit count covers. *)
Definition counted (g : HueLightGradient.t) : HueLightGradient.t :=
  HueLightGradient.mk
    (HueLightGradient.style g)
    (firstn (length (HueLightGradient.colors g) mod 16)
            (HueLightGradient.colors g)).

End LongGradient.

(** ** Buffers without a gradient block

    The number of bytes the decoder reads when the gradient flag is clear:
    the flag word and the fixed-size field of every flag that is set. *)
Definition fixedLength (flags : Z) : nat :=
  (2 +
   (if HueLightUpdateMessage.hasFlag flags Flags.ON_OFF then 1 else 0) +
   (if HueLightUpdateMessage.hasFlag flags Flags.BRIGHTNESS then 1 else 0) +
   (if HueLightUpdateMessage.hasFlag flags Flags.COLOR_MIRED then 2 else 0) +
   (if HueLightUpdateMessage.hasFlag flags Flags.COLOR_XY then 4 else 0) +
   (if HueLightUpdateMessage.hasFlag flags Flags.TRANSITION_TIME then 2 else 0) +
   (if HueLightUpdateMessage.hasFlag flags Flags.EFFECT then 1 else 0) +
   (if HueLightUpdateMessage.hasFlag flags Flags.EFFECT_SPEED then 1 else 0) +
   (if HueLightUpdateMessage.hasFlag flags Flags.GRADIENT_PARAMS then 2 else 0))%nat.

(** * Properties *)

(** ** Bytes and bit fields *)

Lemma unsigned_of_Z_small (z : Z) :
  0 <= z < 256 -> byte.unsigned (byte.of_Z z) = z.
Proof.
  intros Hz. rewrite byte.unsigned_of_Z. unfold byte.wrap.
  apply Z.mod_small. lia.
Qed.

Lemma lor_disjoint_add (a b : Z) : Z.land a b = 0 -> Z.lor a b = a + b.
Proof.
  intros Hab. rewrite <- Z.lxor_lor by assumption.
  symmetry. now apply Z.add_nocarry_lxor.
Qed.

(** The three bit-field identities behind the 12+12 bit packing. *)
Lemma pack_middle_byte (x y : Z) :
  0 <= x < 2 ^ 12 -> 0 <= y < 2 ^ 12 ->
  Z.lor (Z.shiftr (Z.land x 0xf00) 8) (Z.shiftl (Z.land y 0x00f) 4)
  = x / 256 + 16 * (y mod 16).
Proof.
  intros Hx Hy.
  change 0xf00 with (Z.shiftl (Z.ones 4) 8). change 0x00f with (Z.ones 4).
  rewrite lor_disjoint_add by prove_Zeq_bitwise.
  replace (Z.shiftr (Z.land x (Z.shiftl (Z.ones 4) 8)) 8) with (Z.shiftr x 8)
    by prove_Zeq_bitwise.
  rewrite Z.shiftr_div_pow2, Z.shiftl_mul_pow2, Z.land_ones by lia.
  change (2 ^ 8) with 256. change (2 ^ 4) with 16. lia.
Qed.

Lemma unpack_x (x y : Z) :
  0 <= x < 2 ^ 12 -> 0 <= y < 2 ^ 12 ->
  Z.lor (Z.shiftl (Z.land (byte.wrap (Z.lor (Z.shiftr (Z.land x 0xf00) 8)
                                            (Z.shiftl (Z.land y 0x00f) 4)))
                          0x0f) 8)
        (byte.wrap (Z.land x 0x0ff)) = x.
Proof.
  intros Hx Hy. unfold byte.wrap.
  change 0xf00 with (Z.shiftl (Z.ones 4) 8). change 0x00f with (Z.ones 4).
  change 0x0ff with (Z.ones 8).
  rewrite <- !Z.land_ones by lia. prove_Zeq_bitwise.
Qed.

Lemma unpack_y (x y : Z) :
  0 <= x < 2 ^ 12 -> 0 <= y < 2 ^ 12 ->
  Z.lor (Z.shiftl (byte.wrap (Z.shiftr (Z.land y 0xff0) 4)) 4)
        (Z.shiftr (byte.wrap (Z.lor (Z.shiftr (Z.land x 0xf00) 8)
                                    (Z.shiftl (Z.land y 0x00f) 4))) 4) = y.
Proof.
  intros Hx Hy. unfold byte.wrap.
  change 0xf00 with (Z.shiftl (Z.ones 4) 8). change 0x00f with (Z.ones 4).
  change 0xff0 with (Z.shiftl (Z.ones 8) 4).
  rewrite <- !Z.land_ones by lia. prove_Zeq_bitwise.
Qed.

Lemma scaled_fromBytes_toBytes (x y : Z) :
  0 <= x <= 4095 -> 0 <= y <= 4095 ->
  HueLightColorXYScaled.fromBytes
    (HueLightColorXYScaled.toBytes (HueLightColorXYScaled.mk x y))
  = Ok (HueLightColorXYScaled.mk x y).
Proof.
  intros Hx Hy.
  unfold HueLightColorXYScaled.fromBytes, HueLightColorXYScaled.toBytes.
  cbn [length Nat.eqb negb nth HueLightColorXYScaled.x HueLightColorXYScaled.y].
  rewrite !byte.unsigned_of_Z.
  rewrite unpack_x, unpack_y by (change (2 ^ 12) with 4096; lia).
  reflexivity.
Qed.

Lemma scaled_fromBytes_length (data : list byte) :
  length data <> 3%nat ->
  HueLightColorXYScaled.fromBytes data = Err (Expected3Bytes (length data)).
Proof.
  intros Hlen. unfold HueLightColorXYScaled.fromBytes.
  destruct (Nat.eqb_spec (length data) 3) as [E | E]; [contradiction | reflexivity].
Qed.

(** C7. [HueLightColorXYScaled.toBytes] lays two 12-bit coordinates out as
    the three bytes [x mod 256], [x / 256 + 16 * (y mod 16)], [y / 16]
    (low 8 bits of x; high 4 bits of x below the low 4 bits of y; high 8 bits
    of y); [fromBytes] undoes it on every pair of coordinates in 0..4095, and
    on an input that is not exactly 3 bytes long it fails with the
    "Expected 3 bytes" error, which the specification calls a LengthError. *)
Theorem scaled_color_pack_unpack (x y : Z) :
  0 <= x <= 4095 -> 0 <= y <= 4095 ->
  map byte.unsigned (HueLightColorXYScaled.toBytes (HueLightColorXYScaled.mk x y))
    = [x mod 256; x / 256 + 16 * (y mod 16); y / 16]
  /\ HueLightColorXYScaled.fromBytes
       (HueLightColorXYScaled.toBytes (HueLightColorXYScaled.mk x y))
     = Ok (HueLightColorXYScaled.mk x y)
  /\ (forall data : list byte,
        length data <> 3%nat ->
        exists e, HueLightColorXYScaled.fromBytes data = Err e
                  /\ e = Expected3Bytes (length data)
                  /\ kind_of e = LengthError).
Proof.
  intros Hx Hy. split; [| split].
  - unfold HueLightColorXYScaled.toBytes.
    cbn [map HueLightColorXYScaled.x HueLightColorXYScaled.y].
    rewrite pack_middle_byte by (change (2 ^ 12) with 4096; lia).
    change 0x0ff with (Z.ones 8). rewrite Z.land_ones by lia.
    replace (Z.shiftr (Z.land y 0xff0) 4) with (Z.shiftr y 4).
    2:{ change 0xff0 with (Z.shiftl (Z.ones 8) 4).
        assert (0 <= y < 2 ^ 12) by (change (2 ^ 12) with 4096; lia).
        prove_Zeq_bitwise. }
    rewrite Z.shiftr_div_pow2 by lia.
    change (2 ^ 8) with 256. change (2 ^ 4) with 16.
    rewrite !unsigned_of_Z_small; [reflexivity | |  | ].
    + split; [apply Z.div_pos; lia | apply Z.div_lt_upper_bound; lia].
    + assert (0 <= x / 256 < 16)
        by (split; [apply Z.div_pos; lia | apply Z.div_lt_upper_bound; lia]).
      pose proof (Z.mod_pos_bound y 16 eq_refl). lia.
    + apply Z.mod_pos_bound. reflexivity.
  - now apply scaled_fromBytes_toBytes.
  - intros data Hlen. exists (Expected3Bytes (length data)).
    split; [now apply scaled_fromBytes_length | split; reflexivity].
Qed.

Lemma scaled_color_pack_unpack_witness :
  map byte.unsigned
      (HueLightColorXYScaled.toBytes (HueLightColorXYScaled.mk 0x123 0xabc))
    = [0x23; 0xc1; 0xab]
  /\ HueLightColorXYScaled.fromBytes [x23; xc1; xab]
     = Ok (HueLightColorXYScaled.mk 0x123 0xabc)
  /\ HueLightColorXYScaled.fromBytes [x23; xc1]
     = Err (Expected3Bytes 2).
Proof.
  destruct (scaled_color_pack_unpack 0x123 0xabc) as (Hlay & Hrt & Hlen);
    [lia | lia |].
  split; [exact Hlay | split; [exact Hrt |]].
  destruct (Hlen [x23; xc1]) as (e & He & -> & _); [cbn; lia | exact He].
Defined.

(** ** Stores into the preallocated array *)

Lemma set_middle (pre old post src : list byte) (o : nat) :
  o = length pre -> length old = length src ->
  set (pre ++ old ++ post) src o = Ok (pre ++ src ++ post).
Proof.
  intros -> Hlen. unfold set. rewrite !length_app.
  destruct (Nat.leb_spec (length pre + length src)
                         (length pre + (length old + length post))) as [_ | H];
    [| lia].
  f_equal. unfold List.upds. rewrite !length_app.
  rewrite firstn_app, firstn_all, Nat.sub_diag, firstn_O, app_nil_r.
  f_equal. rewrite firstn_all2 by lia. f_equal.
  rewrite skipn_app, skipn_all2 by lia. cbn [app].
  replace (length src + length pre - length pre)%nat with (length old) by lia.
  rewrite skipn_app, skipn_all, Nat.sub_diag. reflexivity.
Qed.

Lemma set_zeros (pre src : list byte) (o n k : nat) :
  o = length pre -> n = (length src + k)%nat ->
  set (pre ++ repeat x00 n) src o = Ok ((pre ++ src) ++ repeat x00 k).
Proof.
  intros Ho ->. rewrite repeat_app, <- app_assoc.
  apply set_middle; [assumption | apply repeat_length].
Qed.

(** ** The encoder produces the wire image *)

Section Encoder.

Import HueLightUpdateMessage Wire.

Ltac absent :=
  intros pre o n k f -> ->; cbn; rewrite app_nil_r; reflexivity.

Ltac done_block :=
  rewrite <- ?app_assoc, ?length_app, ?length_le_split; cbn [app length];
  unfold orFlag; cbn [defined];
  repeat f_equal; lia.

Ltac store :=
  first [ rewrite (set_zeros _ _ _ _ _ eq_refl eq_refl)
        | erewrite set_zeros;
          [ | rewrite ?length_app; cbn [length]; lia
            | rewrite ?length_app; cbn [length]; lia ] ];
  cbn [bind].

Lemma writeIsOn_image v : writes writeIsOn bytesIsOn Flags.ON_OFF v.
Proof.
  destruct v as [b |]; [| absent].
  intros pre o n k f -> ->. unfold writeIsOn, setUint8. cbn [st_array st_offset st_flags].
  unfold bytesIsOn, u8. store.
  done_block.
Qed.

Lemma writeBrightness_image v :
  match v with Some b => 1 <= b <= 254 | None => True end ->
  writes writeBrightness bytesU8 Flags.BRIGHTNESS v.
Proof.
  destruct v as [b |]; [| intros _; absent].
  intros Hb pre o n k f -> ->. unfold writeBrightness, setUint8.
  cbn [st_array st_offset st_flags].
  destruct (Z.ltb_spec b 1); [lia |]. destruct (Z.gtb_spec b 254); [lia |].
  cbn [orb]. unfold bytesU8, u8. store.
  done_block.
Qed.

Lemma writeColorTemp_image v : writes writeColorTemp bytesColorTemp Flags.COLOR_MIRED v.
Proof.
  destruct v as [c |]; [| absent].
  intros pre o n k f -> ->. unfold writeColorTemp, setUint16.
  cbn [st_array st_offset st_flags]. unfold bytesColorTemp, u16. store.
  done_block.
Qed.

Lemma writeColorXY_image v : writes writeColorXY bytesColorXY Flags.COLOR_XY v.
Proof.
  destruct v as [c |]; [| absent].
  intros pre o n k f -> ->. unfold writeColorXY, setUint16.
  cbn [st_array st_offset st_flags]. unfold bytesColorXY, u16.
  rewrite length_app, !length_le_split.
  rewrite (set_zeros pre _ _ _ (2 + k) eq_refl)
    by (rewrite length_le_split; lia).
  cbn [bind].
  rewrite (set_zeros (pre ++ _) _ _ _ k)
    by (rewrite ?length_app, ?length_le_split; lia).
  cbn [bind]. done_block.
Qed.

Lemma writeTransitionTime_image v :
  writes writeTransitionTime bytesU16 Flags.TRANSITION_TIME v.
Proof.
  destruct v as [c |]; [| absent].
  intros pre o n k f -> ->. unfold writeTransitionTime, setUint16.
  cbn [st_array st_offset st_flags]. unfold bytesU16, u16. store.
  done_block.
Qed.

Lemma writeEffect_image v : writes writeEffect bytesU8 Flags.EFFECT v.
Proof.
  destruct v as [c |]; [| absent].
  intros pre o n k f -> ->. unfold writeEffect, setUint8.
  cbn [st_array st_offset st_flags]. unfold bytesU8, u8. store.
  done_block.
Qed.

Lemma writeEffectSpeed_image v : writes writeEffectSpeed bytesU8 Flags.EFFECT_SPEED v.
Proof.
  destruct v as [c |]; [| absent].
  intros pre o n k f -> ->. unfold writeEffectSpeed, setUint8.
  cbn [st_array st_offset st_flags]. unfold bytesU8, u8. store.
  done_block.
Qed.

Lemma writeGradientParams_image v :
  writes writeGradientParams bytesGradientParams Flags.GRADIENT_PARAMS v.
Proof.
  destruct v as [c |]; [| absent].
  intros pre o n k f -> ->. unfold writeGradientParams, setUint8.
  cbn [st_array st_offset st_flags]. unfold bytesGradientParams, u8.
  cbn [app length].
  rewrite (set_zeros pre [_] _ _ (1 + k) eq_refl) by (cbn [length]; lia).
  cbn [bind].
  rewrite (set_zeros (pre ++ [_]) [_] _ _ k)
    by (rewrite ?length_app; cbn [length]; lia).
  cbn [bind]. done_block.
Qed.

Lemma length_bytesColor c : length (bytesColor c) = 3%nat.
Proof. reflexivity. Qed.

Lemma length_flat_map_bytesColor colors :
  length (flat_map bytesColor colors) = (3 * length colors)%nat.
Proof.
  induction colors as [| c colors IH]; [reflexivity |].
  cbn [flat_map]. rewrite length_app, IH, length_bytesColor. cbn [length]. lia.
Qed.

Lemma writeColors_image colors : forall (pre : list byte) (o n k : nat),
  o = length pre -> n = (3 * length colors + k)%nat ->
  writeColors colors (pre ++ repeat x00 n) o
  = Ok ((pre ++ flat_map bytesColor colors) ++ repeat x00 k,
        (o + 3 * length colors)%nat).
Proof.
  induction colors as [| c colors IH]; intros pre o n k -> ->.
  - cbn. rewrite app_nil_r, Nat.add_0_r. reflexivity.
  - cbn [writeColors flat_map].
    rewrite (set_zeros pre _ _ _ (3 * length colors + k) eq_refl)
      by (unfold HueLightColorXYScaled.toBytes; cbn [length]; lia).
    cbn [bind]. fold (bytesColor c).
    rewrite (IH (pre ++ bytesColor c) _ _ k)
      by (rewrite ?length_app, ?length_bytesColor; lia).
    rewrite <- !app_assoc. cbn [length]. do 2 f_equal. lia.
Qed.

Lemma writeGradient_image v : writes writeGradient bytesGradient Flags.GRADIENT_COLORS v.
Proof.
  destruct v as [g |]; [| absent].
  intros pre o n k f -> ->. unfold writeGradient, setUint8.
  cbn [st_array st_offset st_flags]. unfold bytesGradient, u8.
  rewrite !length_app, length_flat_map_bytesColor. cbn [length].
  set (cs := HueLightGradient.colors g).
  rewrite (set_zeros pre [_] _ _ (4 + 3 * length cs + k) eq_refl)
    by (cbn [length]; lia).
  cbn [bind].
  rewrite (set_zeros (pre ++ [_]) [_] _ _ (3 + 3 * length cs + k))
    by (rewrite ?length_app; cbn [length]; lia).
  cbn [bind].
  rewrite (set_zeros ((pre ++ [_]) ++ [_]) [_] _ _ (2 + 3 * length cs + k))
    by (rewrite ?length_app; cbn [length]; lia).
  cbn [bind].
  change (repeat x00 (2 + 3 * length cs + k))
    with ([x00; x00] ++ repeat x00 (3 * length cs + k)).
  rewrite app_assoc.
  rewrite (writeColors_image cs _ _ _ k)
    by (rewrite ?length_app; cbn [length]; lia).
  cbn [bind]. rewrite <- !app_assoc. cbn [app].
  unfold orFlag. cbn [defined]. do 2 f_equal. lia.
Qed.

End Encoder.

Section EncoderWhole.

Import HueLightUpdateMessage Wire.

Lemma length_u16 (v : Z) : length (u16 v) = 2%nat.
Proof. reflexivity. Qed.

Lemma length_bytesGradient (v : option HueLightGradient.t) :
  length (bytesGradient v)
  = match v with
    | Some g => (5 + 3 * length (HueLightGradient.colors g))%nat
    | None => 0%nat
    end.
Proof.
  destruct v as [g |]; [| reflexivity].
  unfold bytesGradient, u8. cbn [app length].
  now rewrite length_flat_map_bytesColor.
Qed.

Lemma length_body (m : t) : encodedLength m = (2 + length (body m))%nat.
Proof.
  unfold encodedLength, body. rewrite !length_app, length_bytesGradient.
  destruct (isOn m), (brightness m), (colorTemp m), (colorXY m),
    (transitionTime m), (effect m), (effectSpeed m), (gradientParams m);
    cbn [defined bytesIsOn bytesU8 bytesU16 bytesColorTemp bytesColorXY
         bytesGradientParams u8];
    rewrite ?length_app, ?length_u16; unfold u8; cbn [length]; lia.
Qed.

Tactic Notation "block" open_constr(L) :=
  erewrite L; [ cbn [bind] | reflexivity | apply length_app ].

Lemma writeFields_image (m : t) :
  brightnessInRange m = true ->
  writeFields m (mkw (repeat x00 (encodedLength m)) 2 0)
  = Ok (mkw ([x00; x00] ++ body m) (encodedLength m) (flagsOf m)).
Proof.
  intros Hb. rewrite length_body.
  change (repeat x00 (2 + length (body m)))
    with ([x00; x00] ++ repeat x00 (length (body m))).
  unfold writeFields, body.
  assert (Hrange : match brightness m with
                   | Some b => 1 <= b <= 254
                   | None => True
                   end).
  { unfold brightnessInRange in Hb. destruct (brightness m) as [b |]; [| exact I].
    destruct (Z.ltb_spec b 1), (Z.gtb_spec b 254); cbn in Hb;
      try discriminate; lia. }
  block (writeIsOn_image (isOn m) [x00; x00]).
  block (writeBrightness_image _ Hrange _).
  block (writeColorTemp_image _ _).
  block (writeColorXY_image _ _).
  block (writeTransitionTime_image _ _).
  block (writeEffect_image _ _).
  block (writeGradient_image _ _).
  block (writeEffectSpeed_image _ _).
  erewrite (writeGradientParams_image _ _);
    [ | reflexivity | symmetry; apply Nat.add_0_r ].
  cbn [repeat]. rewrite app_nil_r, <- !app_assoc.
  unfold flagsOf. do 2 f_equal; rewrite ?length_app; cbn [length]; lia.
Qed.

Lemma toBytes_image (m : t) :
  brightnessInRange m = true -> toBytes m = Ok (image m).
Proof.
  intros Hb. unfold toBytes. rewrite writeFields_image by assumption.
  cbn [bind st_offset st_array st_flags]. rewrite Nat.eqb_refl. cbn [negb].
  unfold setUint16, image, u16.
  apply (set_middle [] [x00; x00] (body m)); reflexivity.
Qed.

Lemma toBytes_brightness (m : t) :
  brightnessInRange m = false -> toBytes m = Err BrightnessOutOfRange.
Proof.
  intros Hb. unfold toBytes, writeFields.
  assert (Hlen : exists n, encodedLength m
                           = (2 + (length (bytesIsOn (isOn m)) + n))%nat).
  { rewrite length_body. unfold body. rewrite length_app. eauto. }
  destruct Hlen as [n ->].
  change (repeat x00 (2 + (length (bytesIsOn (isOn m)) + n)))
    with ([x00; x00] ++ repeat x00 (length (bytesIsOn (isOn m)) + n)).
  erewrite (writeIsOn_image (isOn m) [x00; x00]); [| reflexivity | reflexivity].
  cbn [bind]. unfold brightnessInRange in Hb. unfold writeBrightness.
  destruct (brightness m) as [b |]; [| discriminate].
  apply negb_false_iff in Hb. rewrite Hb. reflexivity.
Qed.

(** The encoder, in closed form. *)
Lemma toBytes_cases (m : t) :
  toBytes m = if brightnessInRange m then Ok (image m) else Err BrightnessOutOfRange.
Proof.
  destruct (brightnessInRange m) eqn:Hb;
    [now apply toBytes_image | now apply toBytes_brightness].
Qed.

End EncoderWhole.

(** ** Brightness range and the cursor invariant *)

Section EncoderClaims.

Import HueLightUpdateMessage Wire.

(** C6. With brightness set to [b], [toBytes] returns a buffer when
    [1 <= b <= 254] (whatever the other attributes are) and throws the
    brightness RangeError, returning no buffer, when [b < 1] or [b > 254]. *)
Theorem toBytes_brightness_range (m : t) (b : Z) :
  brightness m = Some b ->
  (1 <= b <= 254 -> exists bytes, toBytes m = Ok bytes)
  /\ (b < 1 \/ 254 < b ->
      toBytes m = Err BrightnessOutOfRange
      /\ kind_of BrightnessOutOfRange = RangeError).
Proof.
  intros Hb. rewrite toBytes_cases. unfold brightnessInRange. rewrite Hb.
  split.
  - intros Hr. destruct (Z.ltb_spec b 1); [lia |].
    destruct (Z.gtb_spec b 254); [lia |]. cbn. eauto.
  - intros Hr. split; [| reflexivity].
    destruct (Z.ltb_spec b 1); [reflexivity |].
    destruct (Z.gtb_spec b 254); [reflexivity | lia].
Qed.

Lemma toBytes_brightness_range_witness :
  (exists bytes,
     toBytes (mk None (Some 1) None None None None None None None) = Ok bytes)
  /\ (exists bytes,
     toBytes (mk None (Some 254) None None None None None None None) = Ok bytes)
  /\ toBytes (mk None (Some 0) None None None None None None None)
     = Err BrightnessOutOfRange
  /\ toBytes (mk None (Some 255) None None None None None None None)
     = Err BrightnessOutOfRange.
Proof.
  split; [| split; [| split]].
  - apply (toBytes_brightness_range
             (mk None (Some 1) None None None None None None None) 1 eq_refl).
    lia.
  - apply (toBytes_brightness_range
             (mk None (Some 254) None None None None None None None) 254 eq_refl).
    lia.
  - apply (toBytes_brightness_range
             (mk None (Some 0) None None None None None None None) 0 eq_refl).
    lia.
  - apply (toBytes_brightness_range
             (mk None (Some 255) None None None None None None None) 255 eq_refl).
    lia.
Defined.

(** C8. When the brightness test passes, the blocks of [toBytes] all succeed
    and leave the write cursor exactly at the precomputed [encodedLength]
    (in an array of that length), so the comparison of the final offset with
    the precomputed length never fails: no message makes [toBytes] throw the
    "Invariant" error, and the only error it can throw is the brightness
    RangeError. *)
Theorem toBytes_cursor_reaches_encodedLength (m : t) :
  (brightnessInRange m = true ->
   exists st,
     writeFields m (mkw (repeat x00 (encodedLength m)) 2 0) = Ok st
     /\ st_offset st = encodedLength m
     /\ length (st_array st) = encodedLength m
     /\ exists bytes, toBytes m = Ok bytes /\ length bytes = encodedLength m)
  /\ (forall n o, toBytes m <> Err (InvariantViolated n o))
  /\ (forall e, toBytes m = Err e ->
        e = BrightnessOutOfRange /\ brightnessInRange m = false).
Proof.
  split; [| split].
  - intros Hb. eexists. split; [now apply writeFields_image |].
    cbn [st_offset st_array]. split; [reflexivity |]. split.
    + rewrite length_body. reflexivity.
    + exists (image m). split; [now apply toBytes_image |].
      unfold image. rewrite length_app, length_u16, length_body. reflexivity.
  - intros n o. rewrite toBytes_cases.
    destruct (brightnessInRange m); discriminate.
  - intros e. rewrite toBytes_cases.
    destruct (brightnessInRange m); [discriminate |].
    intros [= <-]. split; reflexivity.
Qed.

Lemma toBytes_cursor_reaches_encodedLength_witness :
  let m := mk (Some true) (Some 46) None
              (Some (HueLightColorXY.mk (0x2f6f # 0xffff) (0x1040 # 0xffff)))
              None (Some HueLightEffect.COSMOS) (Some 127) None None in
  exists st,
    writeFields m (mkw (repeat x00 (encodedLength m)) 2 0) = Ok st
    /\ st_offset st = 10%nat
    /\ length (st_array st) = 10%nat.
Proof.
  intros m.
  destruct (proj1 (toBytes_cursor_reaches_encodedLength m) eq_refl)
    as (st & Hw & Ho & Hl & _).
  exists st. split; [exact Hw | split; [exact Ho | exact Hl]].
Defined.

End EncoderClaims.

(** ** Reads from the view *)

Lemma bind_Ok {A B : Type} (c : result A) (k : A -> result B) (b : B) :
  bind c k = Ok b -> exists a, c = Ok a /\ k a = Ok b.
Proof. destruct c as [a | e]; [eauto | discriminate]. Qed.

Lemma bind_Err {A B : Type} (c : result A) (k : A -> result B) (e : error) :
  bind c k = Err e -> c = Err e \/ exists a, c = Ok a /\ k a = Err e.
Proof. destruct c as [a | e']; [eauto | intros [= ->]; now left]. Qed.

Section Windows.

Import Reader.

Lemma length_window (view : list byte) (o n : nat) :
  (o + n <= length view)%nat -> length (window view o n) = n.
Proof.
  intros H. unfold window. rewrite length_firstn, length_skipn. lia.
Qed.

Lemma window_app (view extra : list byte) (o n : nat) :
  (o + n <= length view)%nat -> window (view ++ extra) o n = window view o n.
Proof.
  intros H. unfold window. rewrite skipn_app, firstn_app, length_skipn.
  replace (n - (length view - o))%nat with 0%nat by lia.
  rewrite firstn_O, app_nil_r. reflexivity.
Qed.

Lemma window_firstn (view : list byte) (k o n : nat) :
  (o + n <= k)%nat -> window (firstn k view) o n = window view o n.
Proof.
  intros H. unfold window. rewrite skipn_firstn_comm, firstn_firstn.
  f_equal. lia.
Qed.

Lemma window_middle (pre bs post : list byte) (o n : nat) :
  o = length pre -> n = length bs -> window (pre ++ bs ++ post) o n = bs.
Proof.
  intros -> ->. unfold window.
  rewrite skipn_app, skipn_all, Nat.sub_diag. cbn [app skipn].
  rewrite firstn_app, firstn_all, Nat.sub_diag, firstn_O, app_nil_r.
  reflexivity.
Qed.

Lemma window_split (view : list byte) (o n k : nat) :
  window view o (n + k) = window view o n ++ window view (o + n) k.
Proof.
  unfold window. rewrite <- (firstn_skipn n (firstn (n + k) (skipn o view))).
  f_equal.
  - rewrite firstn_firstn. f_equal. lia.
  - rewrite skipn_firstn_comm, skipn_skipn. f_equal; [lia | f_equal; lia].
Qed.

Lemma window_local (view view' : list byte) (o o' n : nat) :
  (o <= o')%nat -> skipn o view = skipn o view' ->
  window view o' n = window view' o' n.
Proof.
  intros Ho H. unfold window.
  replace o' with ((o' - o) + o)%nat by lia.
  rewrite <- !skipn_skipn, H. reflexivity.
Qed.

Lemma window_1 (view : list byte) (o : nat) :
  window view o 1 = match nth_error view o with Some b => [b] | None => [] end.
Proof.
  unfold window. revert o. induction view as [| b view IH]; intros [| o]; cbn;
    try reflexivity.
  apply IH.
Qed.

Lemma getUint8_window (view : list byte) (o : nat) :
  getUint8 view o
  = if (o + 1 <=? length view)%nat
    then Ok (byte.unsigned (nth 0 (window view o 1) x00))
    else Err OutOfBounds.
Proof.
  unfold getUint8. rewrite window_1.
  destruct (nth_error view o) as [b |] eqn:E.
  - assert (o < length view)%nat by (apply nth_error_Some; congruence).
    destruct (Nat.leb_spec (o + 1) (length view)); [reflexivity | lia].
  - apply nth_error_None in E.
    destruct (Nat.leb_spec (o + 1) (length view)); [lia | reflexivity].
Qed.

Lemma getUint16_window (view : list byte) (o : nat) :
  getUint16 view o
  = if (o + 2 <=? length view)%nat
    then Ok (le_combine (window view o 2))
    else Err OutOfBounds.
Proof. reflexivity. Qed.

Lemma subarray_window (view : list byte) (o n : nat) :
  subarray view o n
  = if (o + n <=? length view)%nat then Ok (window view o n) else Err OutOfBounds.
Proof. reflexivity. Qed.

(** *** Properties of the fixed-size fields *)

Context {A : Type} (present : bool) (n : nat) (value : list byte -> A).

Lemma fixedField_advances : advances (fixedField present n value).
Proof.
  intros view o a o'. unfold fixedField.
  destruct present; [| intros [= <- <-]; lia].
  destruct (Nat.leb_spec (o + n) (length view)); [| discriminate].
  intros [= <- <-]. lia.
Qed.

Lemma fixedField_extends : extends (fixedField present n value).
Proof.
  intros view extra o r. unfold fixedField.
  destruct present; [| trivial].
  destruct (Nat.leb_spec (o + n) (length view)) as [H | H]; [| discriminate].
  intros <-. rewrite length_app.
  destruct (Nat.leb_spec (o + n) (length view + length extra)); [| lia].
  now rewrite window_app.
Qed.

Lemma fixedField_local : local (fixedField present n value).
Proof.
  intros view view' o Hlen Hskip. unfold fixedField.
  now rewrite Hlen, (window_local view view' o o n (Nat.le_refl o) Hskip).
Qed.

(** Cutting the view at [k]: the read survives when it ends at or before
    [k], and runs out of bounds when it ends after [k]. *)
Lemma fixedField_firstn (full : list byte) (o k : nat) (a : option A) (o' : nat) :
  fixedField present n value full o = Ok (a, o') ->
  ((o' <= k)%nat -> fixedField present n value (firstn k full) o = Ok (a, o'))
  /\ ((o <= k < o')%nat -> fixedField present n value (firstn k full) o = Err OutOfBounds).
Proof.
  unfold fixedField.
  destruct present; [| intros [= <- <-]; split; [trivial | lia]].
  destruct (Nat.leb_spec (o + n) (length full)) as [H | H]; [| discriminate].
  intros [= <- <-]. rewrite length_firstn. split; intros Hk.
  - destruct (Nat.leb_spec (o + n) (Nat.min k (length full))); [| lia].
    now rewrite window_firstn.
  - destruct (Nat.leb_spec (o + n) (Nat.min k (length full))); [lia | reflexivity].
Qed.

Lemma fixedField_middle (pre bs post : list byte) (o : nat) :
  o = length pre -> n = length bs ->
  fixedField present n value (pre ++ bs ++ post) o
  = if present then Ok (Some (value bs), length (pre ++ bs)) else Ok (None, o).
Proof.
  intros -> ->. unfold fixedField. destruct present; [| reflexivity].
  rewrite !length_app.
  destruct (Nat.leb_spec (length pre + length bs)
                         (length pre + (length bs + length post))); [| lia].
  now rewrite window_middle.
Qed.

End Windows.

(** ** The fixed-size blocks of the decoder *)

Section FixedBlocks.

Import Reader HueLightUpdateMessage.

Variables (flags : Z) (view : list byte) (o : nat).

Ltac u8_block :=
  unfold fixedField; destruct (hasFlag flags _); [| reflexivity];
  rewrite getUint8_window;
  destruct (Nat.leb_spec (o + 1) (length view)); reflexivity.

Ltac u16_block :=
  unfold fixedField; destruct (hasFlag flags _); [| reflexivity];
  rewrite getUint16_window;
  destruct (Nat.leb_spec (o + 2) (length view)); reflexivity.

Lemma readIsOn_fixed :
  readIsOn flags view o
  = fixedField (hasFlag flags Flags.ON_OFF) 1 valueIsOn view o.
Proof. unfold readIsOn. u8_block. Qed.

Lemma readBrightness_fixed :
  readBrightness flags view o
  = fixedField (hasFlag flags Flags.BRIGHTNESS) 1 valueU8 view o.
Proof. unfold readBrightness. u8_block. Qed.

Lemma readColorTemp_fixed :
  readColorTemp flags view o
  = fixedField (hasFlag flags Flags.COLOR_MIRED) 2 valueColorTemp view o.
Proof. unfold readColorTemp. u16_block. Qed.

Lemma readColorXY_fixed :
  readColorXY flags view o
  = fixedField (hasFlag flags Flags.COLOR_XY) 4 valueColorXY view o.
Proof.
  unfold readColorXY, fixedField. destruct (hasFlag flags _); [| reflexivity].
  rewrite !getUint16_window.
  destruct (Nat.leb_spec (o + 4) (length view)) as [H | H].
  - destruct (Nat.leb_spec (o + 2) (length view)); [| lia]. cbn [bind].
    destruct (Nat.leb_spec (o + 2 + 2) (length view)); [| lia]. cbn [bind].
    unfold valueColorXY.
    replace (window view o 4) with (window view o 2 ++ window view (o + 2) 2)
      by (symmetry; apply (window_split view o 2 2)).
    rewrite firstn_app, skipn_app, length_window by lia.
    rewrite Nat.sub_diag, firstn_O, app_nil_r.
    rewrite firstn_all2, skipn_all2 by (rewrite length_window; lia).
    cbn [skipn app]. do 2 f_equal. lia.
  - destruct (Nat.leb_spec (o + 2) (length view)); [| reflexivity]. cbn [bind].
    destruct (Nat.leb_spec (o + 2 + 2) (length view)); [lia | reflexivity].
Qed.

Lemma readTransitionTime_fixed :
  readTransitionTime flags view o
  = fixedField (hasFlag flags Flags.TRANSITION_TIME) 2 valueU16 view o.
Proof. unfold readTransitionTime. u16_block. Qed.

Lemma readEffect_fixed :
  readEffect flags view o
  = fixedField (hasFlag flags Flags.EFFECT) 1 valueU8 view o.
Proof. unfold readEffect. u8_block. Qed.

Lemma readEffectSpeed_fixed :
  readEffectSpeed flags view o
  = fixedField (hasFlag flags Flags.EFFECT_SPEED) 1 valueU8 view o.
Proof. unfold readEffectSpeed. u8_block. Qed.

Lemma readGradientParams_fixed :
  readGradientParams flags view o
  = fixedField (hasFlag flags Flags.GRADIENT_PARAMS) 2 valueGradientParams view o.
Proof.
  unfold readGradientParams, fixedField. destruct (hasFlag flags _); [| reflexivity].
  rewrite !getUint8_window.
  destruct (Nat.leb_spec (o + 2) (length view)) as [H | H].
  - destruct (Nat.leb_spec (o + 1) (length view)); [| lia]. cbn [bind].
    destruct (Nat.leb_spec (o + 1 + 1) (length view)); [| lia]. cbn [bind].
    unfold valueGradientParams, u8At.
    replace (window view o 2) with (window view o 1 ++ window view (o + 1) 1)
      by (symmetry; apply (window_split view o 1 1)).
    rewrite app_nth1 by (rewrite length_window; lia).
    rewrite app_nth2 by (rewrite length_window; lia).
    rewrite length_window by lia. reflexivity.
  - destruct (Nat.leb_spec (o + 1) (length view)); [| reflexivity]. cbn [bind].
    destruct (Nat.leb_spec (o + 1 + 1) (length view)); [lia | reflexivity].
Qed.

End FixedBlocks.

(** ** The gradient block of the decoder *)

Section GradientBlock.

Import Reader HueLightUpdateMessage.

Lemma getUint8_app (view extra : list byte) (o : nat) (v : Z) :
  getUint8 view o = Ok v -> getUint8 (view ++ extra) o = Ok v.
Proof.
  unfold getUint8. destruct (nth_error view o) as [b |] eqn:E; [| discriminate].
  rewrite nth_error_app1 by (apply nth_error_Some; congruence).
  now rewrite E.
Qed.

Lemma getUint8_local (view view' : list byte) (o o' : nat) :
  length view = length view' -> (o <= o')%nat -> skipn o view = skipn o view' ->
  getUint8 view o' = getUint8 view' o'.
Proof.
  intros Hlen Ho Hskip. rewrite !getUint8_window, Hlen.
  now rewrite (window_local view view' o o' 1 Ho Hskip).
Qed.

Lemma getUint8_firstn (view : list byte) (k o : nat) :
  getUint8 (firstn k view) o
  = if (o <? k)%nat then getUint8 view o else Err OutOfBounds.
Proof.
  rewrite !getUint8_window, length_firstn.
  destruct (Nat.ltb_spec o k) as [H | H].
  - destruct (Nat.leb_spec (o + 1) (length view)).
    + destruct (Nat.leb_spec (o + 1) (Nat.min k (length view))); [| lia].
      rewrite window_firstn by lia. reflexivity.
    + destruct (Nat.leb_spec (o + 1) (Nat.min k (length view))); [lia | reflexivity].
  - destruct (Nat.leb_spec (o + 1) (Nat.min k (length view))); [lia | reflexivity].
Qed.

Lemma window_window (view : list byte) (o m i j : nat) :
  (i + j <= m)%nat -> window (window view o m) i j = window view (o + i) j.
Proof.
  intros H. unfold window.
  rewrite skipn_firstn_comm, firstn_firstn, skipn_skipn.
  f_equal; [lia | f_equal; lia].
Qed.

Lemma readColors_window (n : nat) : forall (view : list byte) (o : nat),
  (o + 3 * n <= length view)%nat ->
  readColors view o n = readColors (window view o (3 * n)) 0 n.
Proof.
  induction n as [| n IH]; intros view o H; [reflexivity |].
  cbn [readColors]. rewrite !subarray_window.
  rewrite (length_window view o (3 * S n)) by lia.
  destruct (Nat.leb_spec (o + 3) (length view)); [| lia].
  destruct (Nat.leb_spec (0 + 3) (3 * S n)); [| lia].
  rewrite window_window by lia. rewrite Nat.add_0_r. cbn [bind].
  destruct (HueLightColorXYScaled.fromBytes (window view o 3)) as [s | e];
    [| reflexivity].
  cbn [bind].
  rewrite (IH view (o + 3)%nat) by lia.
  rewrite (IH (window view o (3 * S n)) (0 + 3)%nat)
    by (rewrite length_window; lia).
  rewrite window_window by lia. reflexivity.
Qed.

Lemma readColors_total (n : nat) : forall (view : list byte) (o : nat),
  (o + 3 * n <= length view)%nat ->
  exists colors, readColors view o n = Ok colors /\ length colors = n.
Proof.
  induction n as [| n IH]; intros view o H; [now exists [] |].
  cbn [readColors]. rewrite subarray_window.
  destruct (Nat.leb_spec (o + 3) (length view)); [| lia]. cbn [bind].
  unfold HueLightColorXYScaled.fromBytes.
  rewrite length_window by lia. cbn [Nat.eqb negb bind].
  destruct (IH view (o + 3)%nat) as (cs & -> & Hcs); [lia |].
  cbn [bind]. eexists. split; [reflexivity |]. cbn [length]. now rewrite Hcs.
Qed.

Lemma readColors_local (n : nat) : forall (view view' : list byte) (o o' : nat),
  length view = length view' -> (o <= o')%nat -> skipn o view = skipn o view' ->
  readColors view o' n = readColors view' o' n.
Proof.
  induction n as [| n IH]; intros view view' o o' Hlen Ho Hskip; [reflexivity |].
  cbn [readColors]. rewrite !subarray_window, Hlen.
  rewrite (window_local view view' o o' 3 Ho Hskip).
  now rewrite (IH view view' o (o' + 3)%nat Hlen) by (trivial; lia).
Qed.

(** The successful runs of the gradient block. *)
Lemma readGradient_Ok (flags : Z) (view : list byte) (o : nat)
      (a : option HueLightGradient.t) (o' : nat) :
  hasFlag flags Flags.GRADIENT_COLORS = true ->
  readGradient flags view o = Ok (a, o') <->
  exists size b style colors,
    getUint8 view o = Ok size
    /\ 4 <= size
    /\ Z.of_nat o + size + 1 <= Z.of_nat (length view)
    /\ getUint8 view (o + 1) = Ok b
    /\ getUint8 view (o + 2) = Ok style
    /\ Z.of_nat (o + 5) + Z.shiftr b 4 * 3 <= Z.of_nat o + size + 1
    /\ readColors view (o + 5) (Z.to_nat (Z.shiftr b 4)) = Ok colors
    /\ a = Some (HueLightGradient.mk style colors)
    /\ o' = (o + (Z.to_nat size + 1))%nat.
Proof.
  intros Hf. unfold readGradient. rewrite Hf. split.
  - intros H.
    apply bind_Ok in H. destruct H as (size & Hsize & H).
    destruct (Z.ltb_spec size 4); [discriminate |].
    destruct (Z.gtb_spec (Z.of_nat o + size + 1) (Z.of_nat (length view)));
      [discriminate |].
    apply bind_Ok in H. destruct H as (b & Hb & H).
    apply bind_Ok in H. destruct H as (style & Hstyle & H).
    destruct (Z.gtb_spec (Z.of_nat (o + 5) + Z.shiftr b 4 * 3)
                         (Z.of_nat o + size + 1)); [discriminate |].
    apply bind_Ok in H. destruct H as (colors & Hcolors & H).
    injection H as <- <-.
    exists size, b, style, colors. repeat split; trivial; lia.
  - intros (size & b & style & colors & Hs & H4 & Hend & Hb & Hst & Hce & Hc & -> & ->).
    rewrite Hs. cbn [bind].
    destruct (Z.ltb_spec size 4); [lia |].
    destruct (Z.gtb_spec (Z.of_nat o + size + 1) (Z.of_nat (length view))); [lia |].
    rewrite Hb, Hst. cbn [bind]. cbv zeta.
    destruct (Z.gtb_spec (Z.of_nat (o + 5) + Z.shiftr b 4 * 3)
                         (Z.of_nat o + size + 1)); [lia |].
    rewrite Hc. reflexivity.
Qed.

Lemma getUint8_range (view : list byte) (o : nat) (v : Z) :
  getUint8 view o = Ok v -> 0 <= v < 256 /\ (o < length view)%nat.
Proof.
  unfold getUint8. destruct (nth_error view o) as [b |] eqn:E; [| discriminate].
  intros [= <-]. split; [apply byte.unsigned_range |].
  apply nth_error_Some. congruence.
Qed.

Lemma readGradient_absent (flags : Z) (view : list byte) (o : nat) :
  hasFlag flags Flags.GRADIENT_COLORS = false ->
  readGradient flags view o = Ok (None, o).
Proof. intros Hf. unfold readGradient. now rewrite Hf. Qed.

Lemma readGradient_advances (flags : Z) : advances (readGradient flags).
Proof.
  intros view o a o' H.
  destruct (hasFlag flags Flags.GRADIENT_COLORS) eqn:Hf.
  - apply readGradient_Ok in H; [| assumption].
    destruct H as (size & b & style & colors & Hs & H4 & Hend & _ & _ & _ & _ & _ & ->).
    lia.
  - rewrite readGradient_absent in H by assumption. injection H as <- <-. lia.
Qed.

Lemma readColors_app (n : nat) (view extra : list byte) (o : nat) :
  (o + 3 * n <= length view)%nat ->
  readColors (view ++ extra) o n = readColors view o n.
Proof.
  intros H. rewrite (readColors_window n (view ++ extra))
    by (rewrite length_app; lia).
  rewrite (readColors_window n view) by lia.
  now rewrite window_app.
Qed.

Lemma readColors_firstn (n : nat) (view : list byte) (k o : nat) :
  (o + 3 * n <= k)%nat -> (o + 3 * n <= length view)%nat ->
  readColors (firstn k view) o n = readColors view o n.
Proof.
  intros H Hk. rewrite (readColors_window n (firstn k view))
    by (rewrite length_firstn; lia).
  rewrite (readColors_window n view) by lia.
  now rewrite window_firstn.
Qed.

Lemma readGradient_extends (flags : Z) : extends (readGradient flags).
Proof.
  intros view extra o [a o'] H.
  destruct (hasFlag flags Flags.GRADIENT_COLORS) eqn:Hf.
  - apply readGradient_Ok in H; [| assumption]. apply readGradient_Ok; [assumption |].
    destruct H as (size & b & style & colors & Hs & H4 & Hend & Hb & Hst & Hce & Hc & -> & ->).
    pose proof (getUint8_range _ _ _ Hb) as [Hb0 _].
    assert (0 <= Z.shiftr b 4) by (apply Z.shiftr_nonneg; lia).
    exists size, b, style, colors.
    rewrite length_app, readColors_app by lia.
    repeat split; trivial; try (now apply getUint8_app); lia.
  - rewrite readGradient_absent in * by assumption. assumption.
Qed.

Lemma readGradient_local (flags : Z) : local (readGradient flags).
Proof.
  intros view view' o Hlen Hskip. unfold readGradient.
  destruct (hasFlag flags Flags.GRADIENT_COLORS); [| reflexivity].
  rewrite (getUint8_local view view' o o), (getUint8_local view view' o (o + 1)),
    (getUint8_local view view' o (o + 2)), Hlen by (trivial; lia).
  destruct (getUint8 view' o) as [size |]; [| reflexivity]. cbn [bind].
  destruct (size <? 4); [reflexivity |].
  destruct (Z.of_nat o + size + 1 >? Z.of_nat (length view')); [reflexivity |].
  destruct (getUint8 view' (o + 1)) as [b |]; [| reflexivity]. cbn [bind].
  destruct (getUint8 view' (o + 2)) as [style |]; [| reflexivity]. cbn [bind].
  destruct (_ >? _); [reflexivity |].
  now rewrite (readColors_local _ view view' o (o + 5)) by (trivial; lia).
Qed.

(** Cutting the view at [k]: the block survives when it ends at or before
    [k]; when [k] falls inside it, the read of the size byte runs out of
    bounds if the cut is at the size byte, and the block is reported to
    extend beyond the end of the data if the cut is after it. *)
Lemma readGradient_firstn (flags : Z) (full : list byte) (o k : nat)
      (a : option HueLightGradient.t) (o' : nat) :
  readGradient flags full o = Ok (a, o') ->
  ((o' <= k)%nat -> readGradient flags (firstn k full) o = Ok (a, o'))
  /\ ((o <= k < o')%nat ->
      hasFlag flags Flags.GRADIENT_COLORS = true
      /\ ((k = o /\ readGradient flags (firstn k full) o = Err OutOfBounds)
          \/ ((o < k)%nat /\ exists size,
                getUint8 full o = Ok size
                /\ readGradient flags (firstn k full) o
                   = Err (GradientBeyondEnd size (o + 1))))).
Proof.
  intros H. destruct (hasFlag flags Flags.GRADIENT_COLORS) eqn:Hf.
  2:{ rewrite readGradient_absent in * by assumption. injection H as <- <-.
      split; [trivial | lia]. }
  pose proof H as H0.
  apply readGradient_Ok in H; [| assumption].
  destruct H as (size & b & style & colors & Hs & H4 & Hend & Hb & Hst & Hce & Hc & -> & ->).
  pose proof (getUint8_range _ _ _ Hb) as [Hb0 _].
  assert (0 <= Z.shiftr b 4) by (apply Z.shiftr_nonneg; lia).
  split.
  - intros Hk. apply readGradient_Ok; [assumption |].
    exists size, b, style, colors.
    rewrite !getUint8_firstn, length_firstn.
    destruct (Nat.ltb_spec o k); [| lia].
    destruct (Nat.ltb_spec (o + 1) k); [| lia].
    destruct (Nat.ltb_spec (o + 2) k); [| lia].
    rewrite readColors_firstn by lia.
    repeat split; trivial; lia.
  - intros Hk. split; [reflexivity |]. unfold readGradient. rewrite Hf.
    rewrite getUint8_firstn, length_firstn.
    destruct (Nat.ltb_spec o k).
    + right. split; [assumption |]. exists size. split; [assumption |].
      rewrite Hs. cbn [bind].
      destruct (Z.ltb_spec size 4); [lia |].
      destruct (Z.gtb_spec (Z.of_nat o + size + 1)
                           (Z.of_nat (Nat.min k (length full)))); [reflexivity | lia].
    + left. split; [lia | reflexivity].
Qed.

End GradientBlock.

(** ** The decoder as a chain of readers *)

Section Chain.

Import Reader HueLightUpdateMessage.

Lemma decode_decodes (view : list byte) (m : t) (n : nat) :
  decode view = Ok (m, n) <->
  exists flags o1 o2 o3 o4 o5 o6 o7 o8,
    decodes view flags m o1 o2 o3 o4 o5 o6 o7 o8 n.
Proof.
  unfold decode, decodes. split.
  - intros H.
    apply bind_Ok in H. destruct H as (flags & E0 & H).
    apply bind_Ok in H. destruct H as ([a1 o1] & E1 & H).
    apply bind_Ok in H. destruct H as ([a2 o2] & E2 & H).
    apply bind_Ok in H. destruct H as ([a3 o3] & E3 & H).
    apply bind_Ok in H. destruct H as ([a4 o4] & E4 & H).
    apply bind_Ok in H. destruct H as ([a5 o5] & E5 & H).
    apply bind_Ok in H. destruct H as ([a6 o6] & E6 & H).
    apply bind_Ok in H. destruct H as ([a7 o7] & E7 & H).
    apply bind_Ok in H. destruct H as ([a8 o8] & E8 & H).
    apply bind_Ok in H. destruct H as ([a9 o9] & E9 & H).
    injection H as <- <-. cbn [isOn brightness colorTemp colorXY transitionTime
                               effect effectSpeed gradient gradientParams].
    exists flags, o1, o2, o3, o4, o5, o6, o7, o8. repeat split; assumption.
  - intros (flags & o1 & o2 & o3 & o4 & o5 & o6 & o7 & o8
            & E0 & E1 & E2 & E3 & E4 & E5 & E6 & E7 & E8 & E9).
    rewrite E0. cbn [bind Nat.add]. rewrite E1. cbn [bind]. rewrite E2. cbn [bind].
    rewrite E3. cbn [bind]. rewrite E4. cbn [bind]. rewrite E5. cbn [bind].
    rewrite E6. cbn [bind]. rewrite E7. cbn [bind]. rewrite E8. cbn [bind].
    rewrite E9. cbn [bind]. destruct m; reflexivity.
Qed.

Lemma fromBytes_decode (data : list byte) (m : t) :
  fromBytes data = Ok m <-> exists n, decode data = Ok (m, n).
Proof.
  unfold fromBytes. split.
  - intros H. apply bind_Ok in H. destruct H as ([m' n] & E & H).
    injection H as <-. now exists n.
  - intros [n ->]. reflexivity.
Qed.

Lemma fromBytes_Err (data : list byte) (e : error) :
  fromBytes data = Err e <-> decode data = Err e.
Proof.
  unfold fromBytes. destruct (decode data) as [[m n] | e']; cbn;
    split; intros H; congruence.
Qed.

Lemma getUint16_app (view extra : list byte) (o : nat) (v : Z) :
  getUint16 view o = Ok v -> getUint16 (view ++ extra) o = Ok v.
Proof.
  rewrite !getUint16_window, length_app.
  destruct (Nat.leb_spec (o + 2) (length view)); [| discriminate].
  destruct (Nat.leb_spec (o + 2) (length view + length extra)); [| lia].
  now rewrite window_app.
Qed.

Lemma decodes_app (view extra : list byte) (flags : Z) (m : t)
      (o1 o2 o3 o4 o5 o6 o7 o8 n : nat) :
  decodes view flags m o1 o2 o3 o4 o5 o6 o7 o8 n ->
  decodes (view ++ extra) flags m o1 o2 o3 o4 o5 o6 o7 o8 n.
Proof.
  unfold decodes.
  rewrite !readIsOn_fixed, !readBrightness_fixed, !readColorTemp_fixed,
    !readColorXY_fixed, !readTransitionTime_fixed, !readEffect_fixed,
    !readEffectSpeed_fixed, !readGradientParams_fixed.
  intros (E0 & E1 & E2 & E3 & E4 & E5 & E6 & E7 & E8 & E9).
  repeat split;
    first [ now apply getUint16_app
          | now apply fixedField_extends
          | now apply readGradient_extends ].
Qed.

(** C10. [fromBytes] does not require the buffer to be consumed to its end:
    when it succeeds on a buffer, it succeeds with the same message on that
    buffer followed by any further bytes. *)
Theorem fromBytes_ignores_trailing_bytes (b extra : list byte) (m : t) :
  fromBytes b = Ok m -> fromBytes (b ++ extra) = Ok m.
Proof.
  rewrite !fromBytes_decode. intros [n H]. exists n.
  apply decode_decodes in H. apply decode_decodes.
  destruct H as (flags & o1 & o2 & o3 & o4 & o5 & o6 & o7 & o8 & H).
  exists flags, o1, o2, o3, o4, o5, o6, o7, o8. now apply decodes_app.
Qed.

Lemma fromBytes_ignores_trailing_bytes_witness :
  fromBytes ([x03; x00; x01; x7f] ++ [xde; xad; xbe; xef])
  = Ok (mk (Some true) (Some 0x7f) None None None None None None None).
Proof.
  apply (fromBytes_ignores_trailing_bytes [x03; x00; x01; x7f]).
  reflexivity.
Defined.

End Chain.

(** ** Flag bits *)

Section FlagBits.

Import Reader HueLightUpdateMessage.

Lemma land_pow2 (a i : Z) :
  0 <= i -> Z.land a (2 ^ i) = if Z.testbit a i then 2 ^ i else 0.
Proof.
  intros Hi. apply Z.bits_inj'. intros j Hj. rewrite Z.land_spec.
  destruct (Z.eq_dec j i) as [-> | Hne].
  - rewrite Z.pow2_bits_true, andb_true_r by assumption.
    destruct (Z.testbit a i); [now rewrite Z.pow2_bits_true | now rewrite Z.bits_0].
  - rewrite Z.pow2_bits_false, andb_false_r by lia.
    destruct (Z.testbit a i); [now rewrite Z.pow2_bits_false by lia | now rewrite Z.bits_0].
Qed.

Lemma hasFlag_testbit (f i : Z) :
  0 <= i -> hasFlag f (Z.shiftl 1 i) = Z.testbit f i.
Proof.
  intros Hi. unfold hasFlag. rewrite Z.shiftl_1_l, land_pow2 by assumption.
  destruct (Z.testbit f i); [| reflexivity].
  assert (0 < 2 ^ i) by (apply Z.pow_pos_nonneg; lia).
  destruct (Z.eqb_spec (2 ^ i) 0); [lia | reflexivity].
Qed.

Lemma sameFlags_unknown_bits (flags bits : Z) :
  Z.land bits 0x1ff = 0 -> sameFlags (Z.lor flags bits mod 2 ^ 16) flags.
Proof.
  intros Hbits i Hi. rewrite !hasFlag_testbit by lia.
  rewrite Z.mod_pow2_bits_low, Z.lor_spec by lia.
  assert (Hb : Z.testbit bits i = false).
  { assert (H : Z.testbit (Z.land bits 0x1ff) i = false)
      by (rewrite Hbits; apply Z.bits_0).
    rewrite Z.land_spec in H. change 0x1ff with (Z.ones 9) in H.
    rewrite Z.ones_spec_low, andb_true_r in H by lia. exact H. }
  now rewrite Hb, orb_false_r.
Qed.

Lemma skipn_le (view view' : list byte) (o o' : nat) :
  (o <= o')%nat -> skipn o view = skipn o view' -> skipn o' view = skipn o' view'.
Proof.
  intros Ho H. replace o' with ((o' - o) + o)%nat by lia.
  now rewrite <- !skipn_skipn, H.
Qed.

Lemma bind_ext {A B : Type} (c c' : result A) (k k' : A -> result B) :
  c = c' -> (forall a, c' = Ok a -> k a = k' a) -> bind c k = bind c' k'.
Proof. intros -> H. destruct c' as [a | e]; [now apply H | reflexivity]. Qed.

Lemma readGradient_flags (f f' : Z) (view : list byte) (o : nat) :
  hasFlag f Flags.GRADIENT_COLORS = hasFlag f' Flags.GRADIENT_COLORS ->
  readGradient f view o = readGradient f' view o.
Proof. intros H. unfold readGradient. now rewrite H. Qed.

(** The blocks that follow the flag word see the flag word only through
    the nine assigned bits, and the view only from offset 2 on. *)
Lemma decode_local (view view' : list byte) (f f' : Z) :
  getUint16 view 0 = Ok f -> getUint16 view' 0 = Ok f' ->
  sameFlags f f' ->
  length view = length view' -> skipn 2 view = skipn 2 view' ->
  decode view = decode view'.
Proof.
  intros E E' Hf Hlen Hskip. unfold decode. rewrite E, E'. cbn [bind Nat.add].
  apply bind_ext.
  { rewrite !readIsOn_fixed.
    rewrite (Hf 0 ltac:(lia) : hasFlag f Flags.ON_OFF = _).
    now apply fixedField_local. }
  intros [a1 o1] E1. rewrite readIsOn_fixed in E1.
  apply fixedField_advances in E1. destruct E1 as [L1 _].
  assert (S1 := skipn_le _ _ _ _ L1 Hskip).
  apply bind_ext.
  { rewrite !readBrightness_fixed.
    rewrite (Hf 1 ltac:(lia) : hasFlag f Flags.BRIGHTNESS = _).
    now apply fixedField_local. }
  intros [a2 o2] E2. rewrite readBrightness_fixed in E2.
  apply fixedField_advances in E2. destruct E2 as [L2 _].
  assert (S2 := skipn_le _ _ _ _ L2 S1).
  apply bind_ext.
  { rewrite !readColorTemp_fixed.
    rewrite (Hf 2 ltac:(lia) : hasFlag f Flags.COLOR_MIRED = _).
    now apply fixedField_local. }
  intros [a3 o3] E3. rewrite readColorTemp_fixed in E3.
  apply fixedField_advances in E3. destruct E3 as [L3 _].
  assert (S3 := skipn_le _ _ _ _ L3 S2).
  apply bind_ext.
  { rewrite !readColorXY_fixed.
    rewrite (Hf 3 ltac:(lia) : hasFlag f Flags.COLOR_XY = _).
    now apply fixedField_local. }
  intros [a4 o4] E4. rewrite readColorXY_fixed in E4.
  apply fixedField_advances in E4. destruct E4 as [L4 _].
  assert (S4 := skipn_le _ _ _ _ L4 S3).
  apply bind_ext.
  { rewrite !readTransitionTime_fixed.
    rewrite (Hf 4 ltac:(lia) : hasFlag f Flags.TRANSITION_TIME = _).
    now apply fixedField_local. }
  intros [a5 o5] E5. rewrite readTransitionTime_fixed in E5.
  apply fixedField_advances in E5. destruct E5 as [L5 _].
  assert (S5 := skipn_le _ _ _ _ L5 S4).
  apply bind_ext.
  { rewrite !readEffect_fixed.
    rewrite (Hf 5 ltac:(lia) : hasFlag f Flags.EFFECT = _).
    now apply fixedField_local. }
  intros [a6 o6] E6. rewrite readEffect_fixed in E6.
  apply fixedField_advances in E6. destruct E6 as [L6 _].
  assert (S6 := skipn_le _ _ _ _ L6 S5).
  apply bind_ext.
  { rewrite (readGradient_flags f f') by (apply (Hf 8); lia).
    now apply readGradient_local. }
  intros [a7 o7] E7. apply readGradient_advances in E7. destruct E7 as [L7 _].
  assert (S7 := skipn_le _ _ _ _ L7 S6).
  apply bind_ext.
  { rewrite !readEffectSpeed_fixed.
    rewrite (Hf 7 ltac:(lia) : hasFlag f Flags.EFFECT_SPEED = _).
    now apply fixedField_local. }
  intros [a8 o8] E8. rewrite readEffectSpeed_fixed in E8.
  apply fixedField_advances in E8. destruct E8 as [L8 _].
  assert (S8 := skipn_le _ _ _ _ L8 S7).
  apply bind_ext.
  { rewrite !readGradientParams_fixed.
    rewrite (Hf 6 ltac:(lia) : hasFlag f Flags.GRADIENT_PARAMS = _).
    now apply fixedField_local. }
  intros [a9 o9] E9. reflexivity.
Qed.

(** C9. The bits of the flag word that no attribute uses (bits 9 to 15, and
    nothing else: [bits] has none of the nine assigned bits) are ignored by
    [fromBytes]: setting them changes neither the decoded message nor
    whether, and with which error, decoding fails. *)
Theorem fromBytes_ignores_unknown_flag_bits (data : list byte) (bits : Z) :
  Z.land bits 0x1ff = 0 ->
  fromBytes (setFlagBits bits data) = fromBytes data.
Proof.
  intros Hbits. destruct data as [| b0 [| b1 rest]]; try reflexivity.
  unfold fromBytes. f_equal.
  apply (decode_local _ _ (Z.lor (le_combine [b0; b1]) bits mod 2 ^ 16)
                          (le_combine [b0; b1])).
  - unfold setFlagBits. rewrite getUint16_window.
    rewrite length_app, length_le_split. cbn [Nat.add Nat.leb].
    change (window (le_split 2 (Z.lor (le_combine [b0; b1]) bits) ++ rest) 0 2)
      with (le_split 2 (Z.lor (le_combine [b0; b1]) bits)).
    now rewrite le_combine_split.
  - reflexivity.
  - now apply sameFlags_unknown_bits.
  - reflexivity.
  - reflexivity.
Qed.

Lemma fromBytes_ignores_unknown_flag_bits_witness :
  fromBytes [x03; xfe; x01; x7f] = fromBytes [x03; x00; x01; x7f]
  /\ fromBytes [x03; x00; x01; x7f]
     = Ok (mk (Some true) (Some 0x7f) None None None None None None None).
Proof.
  split; [| reflexivity].
  apply (fromBytes_ignores_unknown_flag_bits [x03; x00; x01; x7f] 0xfe00).
  reflexivity.
Defined.

End FlagBits.

(** ** Errors of the decoder *)

Section DecoderErrors.

Import Reader HueLightUpdateMessage.

Lemma fixedField_Err {A : Type} (present : bool) (n : nat) (value : list byte -> A)
      (view : list byte) (o : nat) (e : error) :
  fixedField present n value view o = Err e -> e = OutOfBounds.
Proof.
  unfold fixedField. destruct present; [| discriminate].
  destruct (_ <=? _)%nat; [discriminate | congruence].
Qed.

Lemma getUint16_Err (view : list byte) (o : nat) (e : error) :
  getUint16 view o = Err e -> e = OutOfBounds.
Proof. unfold getUint16. destruct (_ <=? _)%nat; [discriminate | congruence]. Qed.

Lemma getUint8_Err (view : list byte) (o : nat) (e : error) :
  getUint8 view o = Err e -> e = OutOfBounds /\ (length view <= o)%nat.
Proof.
  unfold getUint8. destruct (nth_error view o) eqn:E; [discriminate |].
  intros [= <-]. split; [reflexivity | now apply nth_error_None].
Qed.

Lemma getUint8_in_range (view : list byte) (o : nat) :
  (o < length view)%nat -> exists v, getUint8 view o = Ok v.
Proof.
  intros H. unfold getUint8. destruct (nth_error view o) eqn:E; [eauto |].
  apply nth_error_None in E. lia.
Qed.

(** The failing runs of the gradient block. *)
Lemma readGradient_Err (flags : Z) (view : list byte) (o : nat) (e : error) :
  readGradient flags view o = Err e <->
  hasFlag flags Flags.GRADIENT_COLORS = true
  /\ ((getUint8 view o = Err OutOfBounds /\ e = OutOfBounds)
      \/ exists size,
           getUint8 view o = Ok size
           /\ ((size < 4 /\ e = GradientSizeTooSmall size)
               \/ (4 <= size
                   /\ Z.of_nat o + size + 1 > Z.of_nat (length view)
                   /\ e = GradientBeyondEnd size (o + 1))
               \/ (4 <= size
                   /\ Z.of_nat o + size + 1 <= Z.of_nat (length view)
                   /\ exists b,
                        getUint8 view (o + 1) = Ok b
                        /\ 3 * Z.shiftr b 4 > size - 4
                        /\ e = GradientNotEnoughData
                                 (Z.shiftr b 4)
                                 (Z.of_nat (o + 5) + Z.shiftr b 4 * 3 - Z.of_nat o)
                                 o size))).
Proof.
  unfold readGradient.
  destruct (hasFlag flags Flags.GRADIENT_COLORS);
    [| split; [discriminate | intros [? _]; discriminate]].
  split.
  - intros H. split; [reflexivity |].
    destruct (getUint8 view o) as [size | e0] eqn:Es.
    2:{ left. cbn [bind] in H. injection H as <-.
        apply getUint8_Err in Es. destruct Es as [-> _]. now split. }
    right. exists size. split; [reflexivity |]. cbn [bind] in H.
    destruct (Z.ltb_spec size 4); [left; split; [lia | congruence] |].
    destruct (Z.gtb_spec (Z.of_nat o + size + 1) (Z.of_nat (length view)));
      [right; left; split; [lia | split; [lia | congruence]] |].
    right; right.
    pose proof (getUint8_range _ _ _ Es) as [Hs _].
    destruct (getUint8_in_range view (o + 1)) as [b Eb]; [lia |].
    destruct (getUint8_in_range view (o + 2)) as [style Est]; [lia |].
    rewrite Eb, Est in H. cbn [bind] in H. cbv zeta in H.
    pose proof (getUint8_range _ _ _ Eb) as [Hb _].
    assert (0 <= Z.shiftr b 4) by (apply Z.shiftr_nonneg; lia).
    destruct (Z.gtb_spec (Z.of_nat (o + 5) + Z.shiftr b 4 * 3)
                         (Z.of_nat o + size + 1)).
    + split; [lia | split; [lia |]]. exists b.
      split; [exact Eb | split; [lia | congruence]].
    + destruct (readColors_total (Z.to_nat (Z.shiftr b 4)) view (o + 5))
        as (cs & Ecs & _); [lia |].
      rewrite Ecs in H. discriminate.
  - intros [_ [[-> ->] | (size & -> & H)]]; [reflexivity |]. cbn [bind].
    destruct H as [[H ->] | [(H4 & Hend & ->) | (H4 & Hend & b & -> & Hcc & ->)]].
    + destruct (Z.ltb_spec size 4); [reflexivity | lia].
    + destruct (Z.ltb_spec size 4); [lia |].
      destruct (Z.gtb_spec (Z.of_nat o + size + 1) (Z.of_nat (length view)));
        [reflexivity | lia].
    + destruct (Z.ltb_spec size 4); [lia |].
      destruct (Z.gtb_spec (Z.of_nat o + size + 1) (Z.of_nat (length view)));
        [lia |].
      cbn [bind].
      destruct (getUint8_in_range view (o + 2)) as [style ->]; [lia |].
      cbn [bind]. cbv zeta.
      destruct (Z.gtb_spec (Z.of_nat (o + 5) + Z.shiftr b 4 * 3)
                           (Z.of_nat o + size + 1)); [reflexivity | lia].
Qed.

(** The runs of the blocks that precede the gradient block. *)
Lemma gradientCursor_Ok (view : list byte) (flags : Z) (o : nat) :
  gradientCursor view = Ok (flags, o) <->
  exists a1 o1 a2 o2 a3 o3 a4 o4 a5 o5 a6,
    getUint16 view 0 = Ok flags
    /\ readIsOn flags view 2 = Ok (a1, o1)
    /\ readBrightness flags view o1 = Ok (a2, o2)
    /\ readColorTemp flags view o2 = Ok (a3, o3)
    /\ readColorXY flags view o3 = Ok (a4, o4)
    /\ readTransitionTime flags view o4 = Ok (a5, o5)
    /\ readEffect flags view o5 = Ok (a6, o).
Proof.
  unfold gradientCursor. split.
  - intros H.
    apply bind_Ok in H. destruct H as (f & E0 & H).
    apply bind_Ok in H. destruct H as ([a1 o1] & E1 & H).
    apply bind_Ok in H. destruct H as ([a2 o2] & E2 & H).
    apply bind_Ok in H. destruct H as ([a3 o3] & E3 & H).
    apply bind_Ok in H. destruct H as ([a4 o4] & E4 & H).
    apply bind_Ok in H. destruct H as ([a5 o5] & E5 & H).
    apply bind_Ok in H. destruct H as ([a6 o6] & E6 & H).
    injection H as -> ->.
    exists a1, o1, a2, o2, a3, o3, a4, o4, a5, o5, a6. repeat split; assumption.
  - intros (a1 & o1 & a2 & o2 & a3 & o3 & a4 & o4 & a5 & o5 & a6
            & E0 & E1 & E2 & E3 & E4 & E5 & E6).
    rewrite E0. cbn [bind]. rewrite E1. cbn [bind]. rewrite E2. cbn [bind].
    rewrite E3. cbn [bind]. rewrite E4. cbn [bind]. rewrite E5. cbn [bind].
    rewrite E6. reflexivity.
Qed.

Lemma decodes_gradientCursor (view : list byte) (flags : Z) (m : t)
      (o1 o2 o3 o4 o5 o6 o7 o8 n : nat) :
  decodes view flags m o1 o2 o3 o4 o5 o6 o7 o8 n ->
  gradientCursor view = Ok (flags, o6).
Proof.
  intros (E0 & E1 & E2 & E3 & E4 & E5 & E6 & _).
  apply gradientCursor_Ok.
  exists (isOn m), o1, (brightness m), o2, (colorTemp m), o3, (colorXY m), o4,
    (transitionTime m), o5, (effect m).
  repeat split; assumption.
Qed.

(** An error of the gradient block is the error of the whole decoder. *)
Lemma decode_gradient_Err (view : list byte) (flags : Z) (o : nat) (e : error) :
  gradientCursor view = Ok (flags, o) ->
  readGradient flags view o = Err e ->
  decode view = Err e.
Proof.
  intros H Eg. apply gradientCursor_Ok in H.
  destruct H as (a1 & o1 & a2 & o2 & a3 & o3 & a4 & o4 & a5 & o5 & a6
                 & E0 & E1 & E2 & E3 & E4 & E5 & E6).
  unfold decode.
  rewrite E0. cbn [bind Nat.add]. rewrite E1. cbn [bind]. rewrite E2. cbn [bind].
  rewrite E3. cbn [bind]. rewrite E4. cbn [bind]. rewrite E5. cbn [bind].
  rewrite E6. cbn [bind]. rewrite Eg. reflexivity.
Qed.

(** Conversely, an error of the decoder that is not an out-of-bounds read
    is an error of the gradient block. *)
Lemma decode_Err_gradient (view : list byte) (e : error) :
  decode view = Err e -> e <> OutOfBounds ->
  exists flags o,
    gradientCursor view = Ok (flags, o) /\ readGradient flags view o = Err e.
Proof.
  intros H Hne. unfold decode in H.
  apply bind_Err in H. destruct H as [H | (flags & E0 & H)];
    [apply getUint16_Err in H; contradiction |].
  cbn [Nat.add] in H.
  apply bind_Err in H. destruct H as [H | ([a1 o1] & E1 & H)];
    [rewrite readIsOn_fixed in H; apply fixedField_Err in H; contradiction |].
  apply bind_Err in H. destruct H as [H | ([a2 o2] & E2 & H)];
    [rewrite readBrightness_fixed in H; apply fixedField_Err in H; contradiction |].
  apply bind_Err in H. destruct H as [H | ([a3 o3] & E3 & H)];
    [rewrite readColorTemp_fixed in H; apply fixedField_Err in H; contradiction |].
  apply bind_Err in H. destruct H as [H | ([a4 o4] & E4 & H)];
    [rewrite readColorXY_fixed in H; apply fixedField_Err in H; contradiction |].
  apply bind_Err in H. destruct H as [H | ([a5 o5] & E5 & H)];
    [rewrite readTransitionTime_fixed in H; apply fixedField_Err in H; contradiction |].
  apply bind_Err in H. destruct H as [H | ([a6 o6] & E6 & H)];
    [rewrite readEffect_fixed in H; apply fixedField_Err in H; contradiction |].
  assert (Hc : gradientCursor view = Ok (flags, o6)).
  { apply gradientCursor_Ok.
    exists a1, o1, a2, o2, a3, o3, a4, o4, a5, o5, a6. repeat split; assumption. }
  apply bind_Err in H. destruct H as [H | ([a7 o7] & E7 & H)];
    [now exists flags, o6 |].
  apply bind_Err in H. destruct H as [H | ([a8 o8] & E8 & H)];
    [rewrite readEffectSpeed_fixed in H; apply fixedField_Err in H; contradiction |].
  apply bind_Err in H. destruct H as [H | ([a9 o9] & E9 & H)];
    [rewrite readGradientParams_fixed in H; apply fixedField_Err in H; contradiction |].
  discriminate.
Qed.

End DecoderErrors.

(** ** Malformed gradient blocks *)

Section GradientClaims.

Import Reader HueLightUpdateMessage.

(** C4. [fromBytes] fails with a FormatError in exactly three cases, all in
    the gradient block (flag bit 8 set, the block starting at the cursor [o]
    the preceding blocks leave, its size byte readable): the size byte is
    less than 4 ("size too small"); [o + size + 1] exceeds the length of the
    buffer ("extends beyond end of data"); or the colour count in the high
    nibble of the next byte needs [3 * colorCount] bytes, more than the
    [size - 4] the declared size leaves after the header ("not enough
    data"). *)
Theorem gradient_format_errors (data : list byte) (e : error) :
  kind_of e = FormatError ->
  (fromBytes data = Err e <->
   exists flags o size,
     gradientCursor data = Ok (flags, o)
     /\ hasFlag flags Flags.GRADIENT_COLORS = true
     /\ getUint8 data o = Ok size
     /\ ((size < 4 /\ e = GradientSizeTooSmall size)
         \/ (4 <= size
             /\ Z.of_nat o + size + 1 > Z.of_nat (length data)
             /\ e = GradientBeyondEnd size (o + 1))
         \/ (4 <= size
             /\ Z.of_nat o + size + 1 <= Z.of_nat (length data)
             /\ exists b,
                  getUint8 data (o + 1) = Ok b
                  /\ 3 * Z.shiftr b 4 > size - 4
                  /\ e = GradientNotEnoughData
                           (Z.shiftr b 4)
                           (Z.of_nat (o + 5) + Z.shiftr b 4 * 3 - Z.of_nat o)
                           o size))).
Proof.
  intros Hk. rewrite fromBytes_Err. split.
  - intros H. apply decode_Err_gradient in H; [| intros ->; discriminate].
    destruct H as (flags & o & Hc & Hg). apply readGradient_Err in Hg.
    destruct Hg as [Hf [[_ ->] | (size & Hs & Hcases)]]; [discriminate |].
    exists flags, o, size. repeat split; assumption.
  - intros (flags & o & size & Hc & Hf & Hs & Hcases).
    apply (decode_gradient_Err data flags o e Hc).
    apply readGradient_Err. split; [assumption |]. right. now exists size.
Qed.

Lemma gradient_format_errors_witness :
  fromBytes [x00; x01; x03; x00; x02; x00] = Err (GradientSizeTooSmall 3)
  /\ fromBytes [x00; x01; x04; x00; x02] = Err (GradientBeyondEnd 4 3)
  /\ fromBytes [x00; x01; x04; x10; x02; x00; x00; x00; x00; x00]
     = Err (GradientNotEnoughData 1 8 2 4).
Proof.
  split; [| split].
  - apply (gradient_format_errors _ (GradientSizeTooSmall 3) eq_refl).
    exists 0x0100, 2%nat, 3. repeat split. left. split; [lia | reflexivity].
  - apply (gradient_format_errors _ (GradientBeyondEnd 4 3) eq_refl).
    exists 0x0100, 2%nat, 4. repeat split. right; left. cbn. repeat split; lia.
  - apply (gradient_format_errors _ (GradientNotEnoughData 1 8 2 4) eq_refl).
    exists 0x0100, 2%nat, 4. repeat split. right; right.
    split; [lia | split; [cbn; lia |]]. exists 0x10. repeat split.
Defined.


Lemma readColors_length (n : nat) (view : list byte) (o : nat)
      (colors : list HueLightColorXY.t) :
  readColors view o n = Ok colors -> length colors = n.
Proof.
  revert o colors. induction n as [| n IH]; intros o colors H.
  - injection H as <-. reflexivity.
  - cbn [readColors] in H.
    apply bind_Ok in H. destruct H as (bs & _ & H).
    apply bind_Ok in H. destruct H as (s & _ & H).
    apply bind_Ok in H. destruct H as (rest & Hrest & H).
    injection H as <-. cbn [length]. f_equal. now apply (IH (o + 3)%nat).
Qed.



End GradientClaims.

(** ** Truncated buffers *)

Section Truncation.

Import Reader HueLightUpdateMessage.

Lemma getUint16_firstn (full : list byte) (k o : nat) (v : Z) :
  getUint16 full o = Ok v ->
  ((o + 2 <= k)%nat -> getUint16 (firstn k full) o = Ok v)
  /\ ((k < o + 2)%nat -> getUint16 (firstn k full) o = Err OutOfBounds).
Proof.
  rewrite !getUint16_window, length_firstn.
  destruct (Nat.leb_spec (o + 2) (length full)); [| discriminate].
  intros [= <-]. split; intros Hk.
  - destruct (Nat.leb_spec (o + 2) (Nat.min k (length full))); [| lia].
    now rewrite window_firstn.
  - destruct (Nat.leb_spec (o + 2) (Nat.min k (length full))); [lia | reflexivity].
Qed.

Lemma fromBytes_short (data : list byte) :
  (length data < 2)%nat -> fromBytes data = Err OutOfBounds.
Proof.
  intros H. unfold fromBytes, decode. rewrite getUint16_window.
  destruct (Nat.leb_spec (0 + 2) (length data)); [lia | reflexivity].
Qed.

Lemma fixedField_defined {A : Type} (present : bool) (n : nat)
      (value : list byte -> A) (view : list byte) (o : nat)
      (a : option A) (o' : nat) :
  fixedField present n value view o = Ok (a, o') -> defined a = present.
Proof.
  unfold fixedField. destruct present; [| now intros [= <- _]].
  destruct (_ <=? _)%nat; [now intros [= <- _] | discriminate].
Qed.

Lemma readGradient_defined (flags : Z) (view : list byte) (o : nat)
      (a : option HueLightGradient.t) (o' : nat) :
  readGradient flags view o = Ok (a, o') ->
  defined a = hasFlag flags Flags.GRADIENT_COLORS.
Proof.
  intros H. destruct (hasFlag flags Flags.GRADIENT_COLORS) eqn:Hf.
  - apply readGradient_Ok in H; [| assumption].
    destruct H as (? & ? & ? & ? & _ & _ & _ & _ & _ & _ & _ & -> & _).
    reflexivity.
  - rewrite readGradient_absent in H by assumption. now injection H as <- _.
Qed.

(** A cut of a decodable buffer inside the bytes the decoder consumed makes
    the decoder fail, with [truncationError]. *)
Lemma decode_firstn (full : list byte) (m : t) (n k : nat) :
  decode full = Ok (m, n) -> (k < n)%nat ->
  decode (firstn k full) = Err (truncationError full k).
Proof.
  intros H Hk. apply decode_decodes in H.
  destruct H as (flags & o1 & o2 & o3 & o4 & o5 & o6 & o7 & o8 & H).
  pose proof (decodes_gradientCursor _ _ _ _ _ _ _ _ _ _ _ _ H) as G.
  destruct H as (E0 & E1 & E2 & E3 & E4 & E5 & E6 & E7 & E8 & E9).
  rewrite readIsOn_fixed in E1. rewrite readBrightness_fixed in E2.
  rewrite readColorTemp_fixed in E3. rewrite readColorXY_fixed in E4.
  rewrite readTransitionTime_fixed in E5. rewrite readEffect_fixed in E6.
  rewrite readEffectSpeed_fixed in E8. rewrite readGradientParams_fixed in E9.
  pose proof (proj1 (fixedField_advances _ _ _ _ _ _ _ E1)) as L1.
  pose proof (proj1 (fixedField_advances _ _ _ _ _ _ _ E2)) as L2.
  pose proof (proj1 (fixedField_advances _ _ _ _ _ _ _ E3)) as L3.
  pose proof (proj1 (fixedField_advances _ _ _ _ _ _ _ E4)) as L4.
  pose proof (proj1 (fixedField_advances _ _ _ _ _ _ _ E5)) as L5.
  pose proof (proj1 (fixedField_advances _ _ _ _ _ _ _ E6)) as L6.
  pose proof (proj1 (readGradient_advances _ _ _ _ _ E7)) as L7.
  pose proof (proj1 (fixedField_advances _ _ _ _ _ _ _ E8)) as L8.
  pose proof (proj1 (fixedField_advances _ _ _ _ _ _ _ E9)) as L9.
  (* the value of [truncationError], by the position of the cut *)
  assert (T : truncationError full k
              = if hasFlag flags Flags.GRADIENT_COLORS
                then match getUint8 full o6 with
                     | Ok size =>
                         if (o6 <? k)%nat && (Z.of_nat k <? Z.of_nat o6 + size + 1)
                         then GradientBeyondEnd size (o6 + 1)
                         else OutOfBounds
                     | Err _ => OutOfBounds
                     end
                else OutOfBounds).
  { unfold truncationError, cutInsideGradient. rewrite G.
    destruct (hasFlag flags Flags.GRADIENT_COLORS); [| reflexivity].
    destruct (getUint8 full o6) as [size |]; [| reflexivity].
    destruct (_ && _); reflexivity. }
  assert (Tout : (k <= o6)%nat \/ (o7 <= k)%nat ->
                 truncationError full k = OutOfBounds).
  { intros Hout. rewrite T.
    destruct (hasFlag flags Flags.GRADIENT_COLORS) eqn:Hf; [| reflexivity].
    apply readGradient_Ok in E7; [| assumption].
    destruct E7 as (size & b & style & colors & Hs & H4 & Hend & _ & _ & _ & _ & _ & ->).
    rewrite Hs.
    destruct (Nat.ltb_spec o6 k); [| reflexivity].
    destruct (Z.ltb_spec (Z.of_nat k) (Z.of_nat o6 + size + 1));
      [lia | reflexivity]. }
  unfold decode.
  destruct (le_lt_dec 2 k) as [K0 | K0].
  2:{ rewrite (proj2 (getUint16_firstn _ k _ _ E0)) by lia.
      cbn [bind]. f_equal. symmetry. apply Tout. lia. }
  rewrite (proj1 (getUint16_firstn _ k _ _ E0)) by lia. cbn [bind Nat.add].
  rewrite readIsOn_fixed. destruct (le_lt_dec o1 k) as [K1 | K1].
  2:{ rewrite (proj2 (fixedField_firstn _ _ _ _ _ k _ _ E1)) by lia.
      cbn [bind]. f_equal. symmetry. apply Tout. lia. }
  rewrite (proj1 (fixedField_firstn _ _ _ _ _ k _ _ E1)) by lia. cbn [bind].
  rewrite readBrightness_fixed. destruct (le_lt_dec o2 k) as [K2 | K2].
  2:{ rewrite (proj2 (fixedField_firstn _ _ _ _ _ k _ _ E2)) by lia.
      cbn [bind]. f_equal. symmetry. apply Tout. lia. }
  rewrite (proj1 (fixedField_firstn _ _ _ _ _ k _ _ E2)) by lia. cbn [bind].
  rewrite readColorTemp_fixed. destruct (le_lt_dec o3 k) as [K3 | K3].
  2:{ rewrite (proj2 (fixedField_firstn _ _ _ _ _ k _ _ E3)) by lia.
      cbn [bind]. f_equal. symmetry. apply Tout. lia. }
  rewrite (proj1 (fixedField_firstn _ _ _ _ _ k _ _ E3)) by lia. cbn [bind].
  rewrite readColorXY_fixed. destruct (le_lt_dec o4 k) as [K4 | K4].
  2:{ rewrite (proj2 (fixedField_firstn _ _ _ _ _ k _ _ E4)) by lia.
      cbn [bind]. f_equal. symmetry. apply Tout. lia. }
  rewrite (proj1 (fixedField_firstn _ _ _ _ _ k _ _ E4)) by lia. cbn [bind].
  rewrite readTransitionTime_fixed. destruct (le_lt_dec o5 k) as [K5 | K5].
  2:{ rewrite (proj2 (fixedField_firstn _ _ _ _ _ k _ _ E5)) by lia.
      cbn [bind]. f_equal. symmetry. apply Tout. lia. }
  rewrite (proj1 (fixedField_firstn _ _ _ _ _ k _ _ E5)) by lia. cbn [bind].
  rewrite readEffect_fixed. destruct (le_lt_dec o6 k) as [K6 | K6].
  2:{ rewrite (proj2 (fixedField_firstn _ _ _ _ _ k _ _ E6)) by lia.
      cbn [bind]. f_equal. symmetry. apply Tout. lia. }
  rewrite (proj1 (fixedField_firstn _ _ _ _ _ k _ _ E6)) by lia. cbn [bind].
  destruct (le_lt_dec o7 k) as [K7 | K7].
  2:{ destruct (proj2 (readGradient_firstn _ _ _ k _ _ E7)) as [Hf Hcut]; [lia |].
      destruct Hcut as [[-> ->] | (Hlt & size & Hs & ->)]; cbn [bind]; f_equal.
      - symmetry. apply Tout. lia.
      - rewrite T, Hf, Hs.
        apply readGradient_Ok in E7; [| assumption].
        destruct E7 as (size' & b & style & colors & Hs' & H4 & Hend & _ & _ & _ & _ & _ & ->).
        rewrite Hs in Hs'. injection Hs' as <-.
        destruct (Nat.ltb_spec o6 k); [| lia].
        destruct (Z.ltb_spec (Z.of_nat k) (Z.of_nat o6 + size + 1));
          [reflexivity | lia]. }
  rewrite (proj1 (readGradient_firstn _ _ _ k _ _ E7)) by lia. cbn [bind].
  rewrite readEffectSpeed_fixed. destruct (le_lt_dec o8 k) as [K8 | K8].
  2:{ rewrite (proj2 (fixedField_firstn _ _ _ _ _ k _ _ E8)) by lia.
      cbn [bind]. f_equal. symmetry. apply Tout. lia. }
  rewrite (proj1 (fixedField_firstn _ _ _ _ _ k _ _ E8)) by lia. cbn [bind].
  rewrite readGradientParams_fixed.
  rewrite (proj2 (fixedField_firstn _ _ _ _ _ k _ _ E9)) by lia.
  cbn [bind]. f_equal. symmetry. apply Tout. lia.
Qed.

End Truncation.

Section TruncationClaim.

Import Reader HueLightUpdateMessage.

(** The claim C3 as the specification states it (every truncated input
    fails with a LengthError) fails: this buffer announces a gradient block
    of 1 + 4 bytes and stops after 3 of them; decoding it raises the
    "extends beyond end of data" error, a FormatError. *)
Lemma truncated_gradient_is_not_LengthError :
  let full := [x00; x01; x04; x00; x02; x00; x00] in
  let data := [x00; x01; x04; x00; x02] in
  decode full
  = Ok (mk None None None None None None None
           (Some (HueLightGradient.mk HueLightGradientStyle.SCATTERED [])) None,
        7%nat)
  /\ data = firstn 5 full
  /\ fromBytes data = Err (GradientBeyondEnd 4 3)
  /\ ~ (exists e, fromBytes data = Err e /\ kind_of e = LengthError).
Proof.
  cbv zeta. repeat split.
  intros (e & He & Hk). cbn in He. injection He as <-. discriminate.
Qed.

(** C3, amended. A buffer shorter than 2 bytes makes [fromBytes] fail with
    the out-of-bounds RangeError (the LengthError of the specification).  A
    cut of a decodable buffer that removes at least one of the bytes the
    decoder consumed makes [fromBytes] fail: with the gradient "extends
    beyond end of data" error (a FormatError) when the cut keeps the size
    byte of the gradient block but not the whole declared block, with the
    out-of-bounds error in every other case.  A decode that succeeds
    populates exactly the attributes whose flag bits are set. *)
Theorem fromBytes_truncated :
  (forall data : list byte,
     (length data < 2)%nat ->
     fromBytes data = Err OutOfBounds /\ kind_of OutOfBounds = LengthError)
  /\ (forall (full : list byte) (m : t) (n k : nat),
        decode full = Ok (m, n) -> (k < n)%nat ->
        fromBytes (firstn k full) = Err (truncationError full k)
        /\ match cutInsideGradient full k with
           | None => truncationError full k = OutOfBounds
                     /\ kind_of (truncationError full k) = LengthError
           | Some (size, o) =>
               truncationError full k = GradientBeyondEnd size (o + 1)
               /\ kind_of (truncationError full k) = FormatError
           end)
  /\ (forall (data : list byte) (m : t),
        fromBytes data = Ok m ->
        exists flags,
          getUint16 data 0 = Ok flags
          /\ defined (isOn m) = hasFlag flags Flags.ON_OFF
          /\ defined (brightness m) = hasFlag flags Flags.BRIGHTNESS
          /\ defined (colorTemp m) = hasFlag flags Flags.COLOR_MIRED
          /\ defined (colorXY m) = hasFlag flags Flags.COLOR_XY
          /\ defined (transitionTime m) = hasFlag flags Flags.TRANSITION_TIME
          /\ defined (effect m) = hasFlag flags Flags.EFFECT
          /\ defined (gradient m) = hasFlag flags Flags.GRADIENT_COLORS
          /\ defined (effectSpeed m) = hasFlag flags Flags.EFFECT_SPEED
          /\ defined (gradientParams m) = hasFlag flags Flags.GRADIENT_PARAMS).
Proof.
  split; [| split].
  - intros data H. split; [now apply fromBytes_short | reflexivity].
  - intros full m n k H Hk. split.
    + apply fromBytes_Err. now apply (decode_firstn full m n k).
    + unfold truncationError.
      destruct (cutInsideGradient full k) as [[size o] |]; split; reflexivity.
  - intros data m H. apply fromBytes_decode in H. destruct H as [n H].
    apply decode_decodes in H.
    destruct H as (flags & o1 & o2 & o3 & o4 & o5 & o6 & o7 & o8
                   & E0 & E1 & E2 & E3 & E4 & E5 & E6 & E7 & E8 & E9).
    rewrite readIsOn_fixed in E1. rewrite readBrightness_fixed in E2.
    rewrite readColorTemp_fixed in E3. rewrite readColorXY_fixed in E4.
    rewrite readTransitionTime_fixed in E5. rewrite readEffect_fixed in E6.
    rewrite readEffectSpeed_fixed in E8. rewrite readGradientParams_fixed in E9.
    exists flags. split; [assumption |].
    repeat split;
      first [ eapply fixedField_defined; eassumption
            | eapply readGradient_defined; eassumption ].
Qed.

Lemma fromBytes_truncated_witness :
  fromBytes [x03] = Err OutOfBounds
  /\ fromBytes (firstn 3 [x03; x00; x01; x7f]) = Err OutOfBounds
  /\ fromBytes (firstn 5 [x00; x01; x04; x00; x02; x00; x00])
     = Err (GradientBeyondEnd 4 3)
  /\ exists flags,
       getUint16 [x03; x00; x01; x7f] 0 = Ok flags
       /\ hasFlag flags Flags.ON_OFF = true
       /\ hasFlag flags Flags.BRIGHTNESS = true
       /\ hasFlag flags Flags.COLOR_MIRED = false.
Proof.
  destruct fromBytes_truncated as (Hshort & Hcut & Hfull).
  split; [| split; [| split]].
  - apply (Hshort [x03]). cbn. lia.
  - apply (Hcut [x03; x00; x01; x7f]
                (mk (Some true) (Some 0x7f) None None None None None None None)
                4%nat 3%nat eq_refl).
    lia.
  - apply (Hcut [x00; x01; x04; x00; x02; x00; x00]
                (mk None None None None None None None
                    (Some (HueLightGradient.mk HueLightGradientStyle.SCATTERED []))
                    None)
                7%nat 5%nat eq_refl).
    lia.
  - destruct (Hfull [x03; x00; x01; x7f]
                    (mk (Some true) (Some 0x7f) None None None None None None None)
                    eq_refl)
      as (flags & H0 & H1 & H2 & H3 & _).
    exists flags. repeat split; [exact H0 | | | ]; symmetry; assumption.
Defined.

End TruncationClaim.

(** ** Decoding a wire image *)

Section DecodeImage.

Import Reader HueLightUpdateMessage Wire RoundTrip.

Lemma Math_trunc_floor (q : Q) : (0 <= q)%Q -> Math_trunc q = Qfloor q.
Proof.
  intros H. destruct q as [n d]. unfold Math_trunc, Qfloor. cbn [Qnum Qden].
  apply Z.quot_div_nonneg; [| lia].
  unfold Qle in H. cbn in H. lia.
Qed.

Lemma Math_trunc_bounds (q : Q) :
  (0 <= q)%Q ->
  (inject_Z (Math_trunc q) <= q /\ q < inject_Z (Math_trunc q) + 1)%Q.
Proof.
  intros H. rewrite Math_trunc_floor by assumption. split.
  - apply Qfloor_le.
  - pose proof (Qlt_floor q) as L. rewrite inject_Z_plus in L. exact L.
Qed.

Lemma Math_trunc_range (q : Q) (n : Z) :
  (0 <= q)%Q -> (q <= inject_Z n)%Q -> 0 <= Math_trunc q <= n.
Proof.
  intros H0 Hn. rewrite Math_trunc_floor by assumption. split.
  - change 0 with (Qfloor 0). now apply Qfloor_resp_le.
  - rewrite <- (Qfloor_Z n). now apply Qfloor_resp_le.
Qed.

Lemma Math_trunc_Z (q : Q) (k : Z) :
  (q == inject_Z k)%Q -> 0 <= k -> Math_trunc q = k.
Proof.
  intros H Hk. rewrite Math_trunc_floor.
  - rewrite (Qfloor_comp _ _ H). apply Qfloor_Z.
  - rewrite H. change 0%Q with (inject_Z 0). rewrite <- Zle_Qle. exact Hk.
Qed.

(** The clamped coordinate is between 0 and 4095, whatever the input. *)
Lemma clamp_range (r : Q) :
  (0 <= inject_Z 0xfff * Qmax 0 (Qmin r 1) <= inject_Z 0xfff)%Q.
Proof.
  change (inject_Z 0xfff) with 4095%Q.
  destruct (Q.min_spec r 1) as [[L E] | [L E]];
    destruct (Q.max_spec 0 (Qmin r 1)) as [[L' E'] | [L' E']];
    rewrite E'; rewrite ?E in *; lra.
Qed.

Lemma toScaled_range (c : HueLightColorXY.t) :
  0 <= HueLightColorXYScaled.x (HueLightColorXY.toScaled c) <= 4095
  /\ 0 <= HueLightColorXYScaled.y (HueLightColorXY.toScaled c) <= 4095.
Proof.
  unfold HueLightColorXY.toScaled.
  cbn [HueLightColorXYScaled.x HueLightColorXYScaled.y].
  split; apply Math_trunc_range; apply clamp_range.
Qed.

Lemma scaled_fromBytes_bytesColor (c : HueLightColorXY.t) :
  HueLightColorXYScaled.fromBytes (bytesColor c) = Ok (HueLightColorXY.toScaled c).
Proof.
  unfold bytesColor. pose proof (toScaled_range c) as [Hx Hy].
  destruct (HueLightColorXY.toScaled c) as [x y].
  now apply scaled_fromBytes_toBytes.
Qed.

Lemma readColors_image (colors : list HueLightColorXY.t) :
  forall (pre post : list byte) (o : nat),
    o = length pre ->
    readColors (pre ++ flat_map bytesColor colors ++ post) o (length colors)
    = Ok (map gradientColor' colors).
Proof.
  induction colors as [| c colors IH]; intros pre post o ->; [reflexivity |].
  cbn [flat_map length readColors map]. rewrite subarray_window.
  rewrite <- app_assoc.
  rewrite (window_middle pre (bytesColor c)) by reflexivity.
  rewrite !length_app, length_bytesColor.
  match goal with
  | |- context [(?a <=? ?b)%nat] => destruct (Nat.leb_spec a b); [| lia]
  end.
  cbn [bind]. rewrite scaled_fromBytes_bytesColor. cbn [bind].
  rewrite app_assoc.
  rewrite (IH (pre ++ bytesColor c) post)
    by (rewrite length_app, length_bytesColor; reflexivity).
  reflexivity.
Qed.

Lemma getUint8_middle (pre post : list byte) (b : byte) (o : nat) :
  o = length pre -> getUint8 (pre ++ b :: post) o = Ok (byte.unsigned b).
Proof.
  intros ->. unfold getUint8.
  rewrite nth_error_app2, Nat.sub_diag by lia. reflexivity.
Qed.

Variables (flags : Z) (pre post : list byte) (o : nat).
Hypothesis Ho : o = length pre.

Lemma readIsOn_image (v : option bool) :
  hasFlag flags Flags.ON_OFF = defined v ->
  readIsOn flags (pre ++ bytesIsOn v ++ post) o
  = Ok (v, length (pre ++ bytesIsOn v)).
Proof.
  intros Hf. rewrite readIsOn_fixed, Hf. destruct v as [b |]; cbn [defined bytesIsOn].
  - rewrite fixedField_middle by (trivial; reflexivity).
    unfold valueIsOn, u8At, u8. cbn [nth].
    rewrite byte.unsigned_of_Z. destruct b; reflexivity.
  - cbn [app]. rewrite app_nil_r. unfold fixedField. now rewrite Ho.
Qed.

Lemma readBrightness_image (v : option Z) :
  hasFlag flags Flags.BRIGHTNESS = defined v ->
  readBrightness flags (pre ++ bytesU8 v ++ post) o
  = Ok (option_map byte.wrap v, length (pre ++ bytesU8 v)).
Proof.
  intros Hf. rewrite readBrightness_fixed, Hf. destruct v as [b |]; cbn [defined bytesU8].
  - rewrite fixedField_middle by (trivial; reflexivity).
    unfold valueU8, u8At, u8. cbn [nth option_map].
    now rewrite byte.unsigned_of_Z.
  - cbn [app]. rewrite app_nil_r. unfold fixedField. now rewrite Ho.
Qed.

Lemma readEffect_image (v : option Z) :
  hasFlag flags Flags.EFFECT = defined v ->
  readEffect flags (pre ++ bytesU8 v ++ post) o
  = Ok (option_map byte.wrap v, length (pre ++ bytesU8 v)).
Proof.
  intros Hf. rewrite readEffect_fixed, Hf. destruct v as [b |]; cbn [defined bytesU8].
  - rewrite fixedField_middle by (trivial; reflexivity).
    unfold valueU8, u8At, u8. cbn [nth option_map].
    now rewrite byte.unsigned_of_Z.
  - cbn [app]. rewrite app_nil_r. unfold fixedField. now rewrite Ho.
Qed.

Lemma readEffectSpeed_image (v : option Z) :
  hasFlag flags Flags.EFFECT_SPEED = defined v ->
  readEffectSpeed flags (pre ++ bytesU8 v ++ post) o
  = Ok (option_map byte.wrap v, length (pre ++ bytesU8 v)).
Proof.
  intros Hf. rewrite readEffectSpeed_fixed, Hf. destruct v as [b |]; cbn [defined bytesU8].
  - rewrite fixedField_middle by (trivial; reflexivity).
    unfold valueU8, u8At, u8. cbn [nth option_map].
    now rewrite byte.unsigned_of_Z.
  - cbn [app]. rewrite app_nil_r. unfold fixedField. now rewrite Ho.
Qed.

Lemma readColorTemp_image (v : option HueLightColorMired.t) :
  hasFlag flags Flags.COLOR_MIRED = defined v ->
  readColorTemp flags (pre ++ bytesColorTemp v ++ post) o
  = Ok (option_map (fun c => HueLightColorMired.mk (u16wrap (HueLightColorMired.mired c))) v,
        length (pre ++ bytesColorTemp v)).
Proof.
  intros Hf. rewrite readColorTemp_fixed, Hf.
  destruct v as [c |]; cbn [defined bytesColorTemp].
  - rewrite fixedField_middle by (trivial; reflexivity).
    unfold valueColorTemp, u16. cbn [option_map].
    now rewrite le_combine_split.
  - cbn [app]. rewrite app_nil_r. unfold fixedField. now rewrite Ho.
Qed.

Lemma readTransitionTime_image (v : option Z) :
  hasFlag flags Flags.TRANSITION_TIME = defined v ->
  readTransitionTime flags (pre ++ bytesU16 v ++ post) o
  = Ok (option_map u16wrap v, length (pre ++ bytesU16 v)).
Proof.
  intros Hf. rewrite readTransitionTime_fixed, Hf.
  destruct v as [c |]; cbn [defined bytesU16].
  - rewrite fixedField_middle by (trivial; reflexivity).
    unfold valueU16, u16. cbn [option_map].
    now rewrite le_combine_split.
  - cbn [app]. rewrite app_nil_r. unfold fixedField. now rewrite Ho.
Qed.

Lemma readColorXY_image (v : option HueLightColorXY.t) :
  hasFlag flags Flags.COLOR_XY = defined v ->
  readColorXY flags (pre ++ bytesColorXY v ++ post) o
  = Ok (option_map colorXY' v, length (pre ++ bytesColorXY v)).
Proof.
  intros Hf. rewrite readColorXY_fixed, Hf.
  destruct v as [c |]; cbn [defined bytesColorXY].
  - rewrite fixedField_middle by (trivial; reflexivity).
    unfold valueColorXY, u16, colorXY'. cbn [option_map].
    rewrite firstn_app, skipn_app, length_le_split, Nat.sub_diag.
    rewrite firstn_all2, skipn_all2 by (rewrite length_le_split; lia).
    cbn [firstn skipn app]. rewrite app_nil_r.
    now rewrite !le_combine_split.
  - cbn [app]. rewrite app_nil_r. unfold fixedField. now rewrite Ho.
Qed.

Lemma readGradientParams_image (v : option HueLightGradientParams.t) :
  hasFlag flags Flags.GRADIENT_PARAMS = defined v ->
  readGradientParams flags (pre ++ bytesGradientParams v ++ post) o
  = Ok (option_map gradientParams' v, length (pre ++ bytesGradientParams v)).
Proof.
  intros Hf. rewrite readGradientParams_fixed, Hf.
  destruct v as [c |]; cbn [defined bytesGradientParams].
  - rewrite fixedField_middle by (trivial; reflexivity).
    unfold valueGradientParams, u8At, u8, gradientParams'. cbn [option_map app nth].
    now rewrite !byte.unsigned_of_Z.
  - cbn [app]. rewrite app_nil_r. unfold fixedField. now rewrite Ho.
Qed.

Lemma readGradient_image (v : option HueLightGradient.t) :
  hasFlag flags Flags.GRADIENT_COLORS = defined v ->
  whenSet (fun g => (length (HueLightGradient.colors g) <= 15)%nat) v ->
  readGradient flags (pre ++ bytesGradient v ++ post) o
  = Ok (option_map gradient' v, length (pre ++ bytesGradient v)).
Proof.
  intros Hf Hn. destruct v as [g |]; cbn [defined] in Hf.
  2:{ rewrite readGradient_absent by assumption.
      cbn [bytesGradient app option_map]. now rewrite app_nil_r, Ho. }
  cbn [whenSet] in Hn. apply readGradient_Ok; [assumption |].
  set (cs := HueLightGradient.colors g) in *.
  assert (Hsize : byte.unsigned (byte.of_Z (4 + 3 * Z.of_nat (length cs)))
                  = 4 + 3 * Z.of_nat (length cs))
    by (apply unsigned_of_Z_small; lia).
  assert (Hcount : Z.shiftr (byte.unsigned
                               (byte.of_Z (Z.shiftl (Z.of_nat (length cs)) 4))) 4
                   = Z.of_nat (length cs)).
  { rewrite Z.shiftl_mul_pow2 by lia. rewrite unsigned_of_Z_small by lia.
    rewrite Z.shiftr_div_pow2 by lia. apply Z.div_mul. lia. }
  exists (4 + 3 * Z.of_nat (length cs)),
    (byte.unsigned (byte.of_Z (Z.shiftl (Z.of_nat (length cs)) 4))),
    (byte.wrap (HueLightGradient.style g)), (map gradientColor' cs).
  unfold bytesGradient, u8. fold cs. cbn [app].
  rewrite !length_app. cbn [length]. rewrite length_app, length_flat_map_bytesColor.
  rewrite Hcount.
  split; [rewrite getUint8_middle, Hsize by assumption; reflexivity |].
  split; [lia |]. split; [lia |].
  split.
  { change (pre ++ ?a :: ?b :: ?rest) with (pre ++ [a] ++ b :: rest).
    rewrite app_assoc. apply getUint8_middle. rewrite length_app. cbn [length]. lia. }
  split.
  { change (pre ++ ?a :: ?b :: ?c :: ?rest) with (pre ++ [a; b] ++ c :: rest).
    rewrite app_assoc, getUint8_middle, byte.unsigned_of_Z
      by (rewrite length_app; cbn [length]; lia).
    reflexivity. }
  split; [lia |].
  split.
  { change (pre ++ ?a :: ?b :: ?c :: ?d :: ?e :: ?rest)
      with (pre ++ [a; b; c; d; e] ++ rest).
    rewrite app_assoc, Nat2Z.id.
    apply readColors_image. rewrite length_app. cbn [length]. lia. }
  split; [reflexivity | lia].
Qed.

End DecodeImage.

Section RoundTripWhole.

Import Reader HueLightUpdateMessage Wire RoundTrip.

Lemma testbit_orFlag {A : Type} (v : option A) (j f i : Z) :
  0 <= j ->
  Z.testbit (orFlag v (Z.shiftl 1 j) f) i = (defined v && (j =? i)) || Z.testbit f i.
Proof.
  intros Hj. unfold orFlag. destruct (defined v); [| reflexivity].
  rewrite Z.lor_spec, Z.shiftl_1_l, Z.pow2_bits_eqb by assumption.
  cbn [andb]. apply orb_comm.
Qed.

Lemma testbit_flagsOf (m : t) (i : Z) :
  Z.testbit (flagsOf m) i
  = (defined (gradientParams m) && (6 =? i))
    || ((defined (effectSpeed m) && (7 =? i))
    || ((defined (gradient m) && (8 =? i))
    || ((defined (effect m) && (5 =? i))
    || ((defined (transitionTime m) && (4 =? i))
    || ((defined (colorXY m) && (3 =? i))
    || ((defined (colorTemp m) && (2 =? i))
    || ((defined (brightness m) && (1 =? i))
    || (defined (isOn m) && (0 =? i))))))))).
Proof.
  unfold flagsOf, Flags.GRADIENT_PARAMS, Flags.EFFECT_SPEED, Flags.GRADIENT_COLORS,
    Flags.EFFECT, Flags.TRANSITION_TIME, Flags.COLOR_XY, Flags.COLOR_MIRED,
    Flags.BRIGHTNESS, Flags.ON_OFF.
  rewrite !testbit_orFlag by lia. now rewrite Z.bits_0, orb_false_r.
Qed.

Lemma hasFlag_image (m : t) (i : Z) :
  0 <= i < 16 ->
  hasFlag (le_combine (u16 (flagsOf m))) (Z.shiftl 1 i) = Z.testbit (flagsOf m) i.
Proof.
  intros Hi. unfold u16. rewrite le_combine_split, hasFlag_testbit by lia.
  apply Z.mod_pow2_bits_low. lia.
Qed.

Lemma hasFlag_flagsOf (m : t) :
  let F := le_combine (u16 (flagsOf m)) in
  hasFlag F Flags.ON_OFF = defined (isOn m)
  /\ hasFlag F Flags.BRIGHTNESS = defined (brightness m)
  /\ hasFlag F Flags.COLOR_MIRED = defined (colorTemp m)
  /\ hasFlag F Flags.COLOR_XY = defined (colorXY m)
  /\ hasFlag F Flags.TRANSITION_TIME = defined (transitionTime m)
  /\ hasFlag F Flags.EFFECT = defined (effect m)
  /\ hasFlag F Flags.GRADIENT_COLORS = defined (gradient m)
  /\ hasFlag F Flags.EFFECT_SPEED = defined (effectSpeed m)
  /\ hasFlag F Flags.GRADIENT_PARAMS = defined (gradientParams m).
Proof.
  cbv zeta.
  unfold Flags.GRADIENT_PARAMS, Flags.EFFECT_SPEED, Flags.GRADIENT_COLORS,
    Flags.EFFECT, Flags.TRANSITION_TIME, Flags.COLOR_XY, Flags.COLOR_MIRED,
    Flags.BRIGHTNESS, Flags.ON_OFF.
  rewrite !hasFlag_image, !testbit_flagsOf by lia.
  cbn [Z.eqb Pos.eqb].
  rewrite ?andb_false_r, ?andb_true_r, ?orb_false_r, ?orb_false_l.
  repeat split; reflexivity.
Qed.

(** Decoding the wire image of a message gives the message [decoded m] and
    consumes the whole image. *)
Lemma decode_image (m : t) :
  whenSet (fun g => (length (HueLightGradient.colors g) <= 15)%nat) (gradient m) ->
  decode (image m) = Ok (decoded m, encodedLength m).
Proof.
  intros Hn. apply decode_decodes.
  destruct (hasFlag_flagsOf m) as (F1 & F2 & F3 & F4 & F5 & F6 & F7 & F8 & F9).
  set (F := le_combine (u16 (flagsOf m))) in *.
  set (I1 := bytesIsOn (isOn m)). set (I2 := bytesU8 (brightness m)).
  set (I3 := bytesColorTemp (colorTemp m)). set (I4 := bytesColorXY (colorXY m)).
  set (I5 := bytesU16 (transitionTime m)). set (I6 := bytesU8 (effect m)).
  set (I7 := bytesGradient (gradient m)). set (I8 := bytesU8 (effectSpeed m)).
  set (I9 := bytesGradientParams (gradientParams m)).
  set (P0 := u16 (flagsOf m)).
  set (P1 := P0 ++ I1). set (P2 := P1 ++ I2). set (P3 := P2 ++ I3).
  set (P4 := P3 ++ I4). set (P5 := P4 ++ I5). set (P6 := P5 ++ I6).
  set (P7 := P6 ++ I7). set (P8 := P7 ++ I8).
  assert (V : image m = P0 ++ I1 ++ I2 ++ I3 ++ I4 ++ I5 ++ I6 ++ I7 ++ I8 ++ I9)
    by reflexivity.
  replace (encodedLength m) with (length (P8 ++ I9)).
  2:{ rewrite length_body. unfold P8, P7, P6, P5, P4, P3, P2, P1, P0, body.
      rewrite !length_app, length_u16. fold I1 I2 I3 I4 I5 I6 I7 I8 I9. lia. }
  exists F, (length P1), (length P2), (length P3), (length P4), (length P5),
    (length P6), (length P7), (length P8).
  unfold decodes, decoded. cbn [isOn brightness colorTemp colorXY transitionTime
                                 effect effectSpeed gradient gradientParams].
  split; [reflexivity |].
  split; [rewrite V; now apply readIsOn_image |].
  split.
  { replace (image m) with (P1 ++ I2 ++ I3 ++ I4 ++ I5 ++ I6 ++ I7 ++ I8 ++ I9)
      by (rewrite V; unfold P1; now rewrite <- !app_assoc).
    now apply readBrightness_image. }
  split.
  { replace (image m) with (P2 ++ I3 ++ I4 ++ I5 ++ I6 ++ I7 ++ I8 ++ I9)
      by (rewrite V; unfold P2, P1; now rewrite <- !app_assoc).
    now apply readColorTemp_image. }
  split.
  { replace (image m) with (P3 ++ I4 ++ I5 ++ I6 ++ I7 ++ I8 ++ I9)
      by (rewrite V; unfold P3, P2, P1; now rewrite <- !app_assoc).
    now apply readColorXY_image. }
  split.
  { replace (image m) with (P4 ++ I5 ++ I6 ++ I7 ++ I8 ++ I9)
      by (rewrite V; unfold P4, P3, P2, P1; now rewrite <- !app_assoc).
    now apply readTransitionTime_image. }
  split.
  { replace (image m) with (P5 ++ I6 ++ I7 ++ I8 ++ I9)
      by (rewrite V; unfold P5, P4, P3, P2, P1; now rewrite <- !app_assoc).
    now apply readEffect_image. }
  split.
  { replace (image m) with (P6 ++ I7 ++ I8 ++ I9)
      by (rewrite V; unfold P6, P5, P4, P3, P2, P1; now rewrite <- !app_assoc).
    now apply readGradient_image. }
  split.
  { replace (image m) with (P7 ++ I8 ++ I9)
      by (rewrite V; unfold P7, P6, P5, P4, P3, P2, P1; now rewrite <- !app_assoc).
    now apply readEffectSpeed_image. }
  replace (image m) with (P8 ++ I9 ++ [])
    by (rewrite V; unfold P8, P7, P6, P5, P4, P3, P2, P1;
        now rewrite <- !app_assoc, app_nil_r).
  now apply readGradientParams_image.
Qed.

(** Encoding then decoding, in closed form. *)
Lemma fromBytes_toBytes (m : t) :
  claimed m ->
  toBytes m = Ok (image m) /\ fromBytes (image m) = Ok (decoded m).
Proof.
  intros [Hb Hn]. split.
  - apply toBytes_image. unfold brightnessInRange.
    destruct (brightness m) as [b |]; [| reflexivity]. cbn [whenSet] in Hb.
    destruct (Z.ltb_spec b 1); [lia |]. destruct (Z.gtb_spec b 254); [lia |].
    reflexivity.
  - apply fromBytes_decode. exists (encodedLength m). now apply decode_image.
Qed.

End RoundTripWhole.

(** ** Quantisation *)

Section Quantisation.

Import HueLightUpdateMessage Wire RoundTrip.

Lemma inject_Z_strict (t : Z) :
  0 < t < 4095 -> (1 <= inject_Z t /\ inject_Z t + 1 <= 4095)%Q.
Proof.
  intros [H0 H1]. split.
  - change 1%Q with (inject_Z 1). rewrite <- Zle_Qle. lia.
  - change 1%Q with (inject_Z 1). rewrite <- inject_Z_plus.
    change 4095%Q with (inject_Z 4095). rewrite <- Zle_Qle. lia.
Qed.

(** When the clamp is not active (the ratio [r] is in 0..1, or the
    truncated value is strictly between 0 and 4095), the truncated value is
    the integer part of [4095 * r]. *)
Lemma scaled_axis_bounds (r : Q) (t : Z) :
  t = Math_trunc (inject_Z 0xfff * Qmax 0 (Qmin r 1)) ->
  (0 <= r <= 1)%Q \/ 0 < t < 4095 ->
  (inject_Z t <= 4095 * r < inject_Z t + 1)%Q.
Proof.
  intros -> H.
  pose proof (Math_trunc_bounds _ (proj1 (clamp_range r))) as B.
  set (t := Math_trunc _) in *. change (inject_Z 0xfff) with 4095%Q in B.
  destruct (Q.min_spec r 1) as [[L E] | [L E]];
    destruct (Q.max_spec 0 (Qmin r 1)) as [[L' E'] | [L' E']];
    rewrite E' in B; rewrite ?E in *; destruct H as [H | H];
    try apply inject_Z_strict in H; lra.
Qed.

Lemma close_X (x : Q) (t : Z) :
  (inject_Z t <= 4095 * (x / HueLightColorXYScaled.SCALING_MAX_X)
     < inject_Z t + 1)%Q ->
  (Qabs (inject_Z t / inject_Z 0xfff * HueLightColorXYScaled.SCALING_MAX_X - x)
   <= (1 # 4095) * HueLightColorXYScaled.SCALING_MAX_X)%Q.
Proof.
  unfold HueLightColorXYScaled.SCALING_MAX_X, Qdiv.
  change (/ 0.7347)%Q with (10000 # 7347)%Q.
  change (/ inject_Z 0xfff)%Q with (1 # 4095)%Q.
  intros B. apply Qabs_Qle_condition. lra.
Qed.

Lemma close_Y (y : Q) (t : Z) :
  (inject_Z t <= 4095 * (y / HueLightColorXYScaled.SCALING_MAX_Y)
     < inject_Z t + 1)%Q ->
  (Qabs (inject_Z t / inject_Z 0xfff * HueLightColorXYScaled.SCALING_MAX_Y - y)
   <= (1 # 4095) * HueLightColorXYScaled.SCALING_MAX_Y)%Q.
Proof.
  unfold HueLightColorXYScaled.SCALING_MAX_Y, Qdiv.
  change (/ 0.8264)%Q with (10000 # 8264)%Q.
  change (/ inject_Z 0xfff)%Q with (1 # 4095)%Q.
  intros B. apply Qabs_Qle_condition. lra.
Qed.

Lemma ratio_X (x : Q) :
  (0 <= x <= HueLightColorXYScaled.SCALING_MAX_X)%Q ->
  (0 <= x / HueLightColorXYScaled.SCALING_MAX_X <= 1)%Q.
Proof.
  unfold HueLightColorXYScaled.SCALING_MAX_X, Qdiv.
  change (/ 0.7347)%Q with (10000 # 7347)%Q. lra.
Qed.

Lemma ratio_Y (y : Q) :
  (0 <= y <= HueLightColorXYScaled.SCALING_MAX_Y)%Q ->
  (0 <= y / HueLightColorXYScaled.SCALING_MAX_Y <= 1)%Q.
Proof.
  unfold HueLightColorXYScaled.SCALING_MAX_Y, Qdiv.
  change (/ 0.8264)%Q with (10000 # 8264)%Q. lra.
Qed.

(** A gradient colour is recovered within the tolerance when its
    coordinates do not exceed the axis maxima, or when its scaled
    coordinates are strictly inside 0..4095. *)
Lemma gradientColor_close (c : HueLightColorXY.t) :
  ((0 <= HueLightColorXY.x c <= HueLightColorXYScaled.SCALING_MAX_X)%Q
   \/ 0 < HueLightColorXYScaled.x (HueLightColorXY.toScaled c) < 4095) ->
  ((0 <= HueLightColorXY.y c <= HueLightColorXYScaled.SCALING_MAX_Y)%Q
   \/ 0 < HueLightColorXYScaled.y (HueLightColorXY.toScaled c) < 4095) ->
  closeXY c (gradientColor' c).
Proof.
  intros Hx Hy. unfold closeXY, gradientColor', HueLightColorXY.fromScaled.
  cbn [HueLightColorXY.x HueLightColorXY.y].
  split.
  - apply close_X. apply scaled_axis_bounds; [reflexivity |].
    destruct Hx as [Hx | Hx]; [left; now apply ratio_X | now right].
  - apply close_Y. apply scaled_axis_bounds; [reflexivity |].
    destruct Hy as [Hy | Hy]; [left; now apply ratio_Y | now right].
Qed.

Lemma unit_axis_close (x : Q) (bound : Q) :
  (0 <= x <= 1)%Q -> (1 # 65535 <= bound)%Q ->
  (Qabs (inject_Z (u16wrap (Math_trunc (x * inject_Z 0xffff))) / inject_Z 0xffff - x)
   <= bound)%Q.
Proof.
  intros Hx Hb. change (inject_Z 0xffff) with 65535%Q.
  assert (H0 : (0 <= x * 65535)%Q) by lra.
  assert (H1 : (x * 65535 <= inject_Z 65535)%Q)
    by (change (inject_Z 65535) with 65535%Q; lra).
  pose proof (Math_trunc_range _ _ H0 H1) as R.
  pose proof (Math_trunc_bounds _ H0) as B.
  unfold u16wrap. rewrite Z.mod_small by (change (2 ^ 16) with 65536; lia).
  set (t := Math_trunc _) in *.
  unfold Qdiv. change (/ 65535)%Q with (1 # 65535)%Q.
  apply Qabs_Qle_condition. lra.
Qed.

Lemma colorXY_close (c : HueLightColorXY.t) :
  (0 <= HueLightColorXY.x c <= 1)%Q -> (0 <= HueLightColorXY.y c <= 1)%Q ->
  closeXY c (colorXY' c).
Proof.
  intros Hx Hy. unfold closeXY, colorXY'. cbn [HueLightColorXY.x HueLightColorXY.y].
  split; apply unit_axis_close; trivial;
    unfold HueLightColorXYScaled.SCALING_MAX_X, HueLightColorXYScaled.SCALING_MAX_Y;
    lra.
Qed.

Lemma eighths_exact (q : Q) :
  eighths q ->
  (inject_Z (byte.wrap (Math_trunc (q * inject_Z 8))) / inject_Z 8 == q)%Q.
Proof.
  intros (k & Hk & E).
  assert (E8 : (q * inject_Z 8 == inject_Z k)%Q).
  { rewrite E. unfold Qdiv. change (/ inject_Z 8)%Q with (1 # 8)%Q.
    change (inject_Z 8) with 8%Q. lra. }
  rewrite (Math_trunc_Z _ k E8) by lia.
  unfold byte.wrap. rewrite Z.mod_small by (change (2 ^ 8) with 256; lia).
  now symmetry.
Qed.

End Quantisation.

(** ** Round trip *)

Section RoundTripClaims.

Import HueLightUpdateMessage Wire RoundTrip.




End RoundTripClaims.

(** ** The two-colour gradient test vector *)

Section GradientVector.

Import HueLightUpdateMessage Wire RoundTrip.



End GradientVector.

(** ** Hex strings *)

Section HexStrings.

Import Ascii String Hex.

Lemma code_range (c : ascii) : 0 <= code c < 256.
Proof.
  unfold code. pose proof (N_ascii_bounded c). lia.
Qed.

Lemma code_ascii_of_N (n : Z) : 0 <= n < 256 -> code (ascii_of_N (Z.to_N n)) = n.
Proof.
  intros H. unfold code. rewrite N_ascii_embedding by lia. lia.
Qed.

Lemma ascii_of_code (c : ascii) : ascii_of_N (Z.to_N (code c)) = c.
Proof. unfold code. rewrite N2Z.id. apply ascii_N_embedding. Qed.

Lemma code_inj (c c' : ascii) : code c = code c' -> c = c'.
Proof.
  intros H. rewrite <- (ascii_of_code c), <- (ascii_of_code c'). now rewrite H.
Qed.

(** The three ranges of a hexadecimal digit. *)
Lemma isHexDigit_cases (c : ascii) :
  isHexDigit c = true <->
  48 <= code c <= 57 \/ 97 <= code c <= 102 \/ 65 <= code c <= 70.
Proof.
  unfold isHexDigit.
  change (code "0") with 48. change (code "9") with 57.
  change (code "a") with 97. change (code "f") with 102.
  change (code "A") with 65. change (code "F") with 70.
  rewrite !orb_true_iff, !andb_true_iff, !Z.leb_le. tauto.
Qed.

Lemma digitValue_hex (c : ascii) :
  isHexDigit c = true ->
  digitValue c = Some (digit c) /\ 0 <= digit c < 16.
Proof.
  intros H. apply isHexDigit_cases in H. unfold digit, digitValue.
  change (code "0") with 48. change (code "9") with 57.
  change (code "a") with 97. change (code "f") with 102.
  change (code "A") with 65. change (code "F") with 70.
  destruct (Z.leb_spec 48 (code c)), (Z.leb_spec (code c) 57); cbn [andb];
    [split; [reflexivity | lia] | | | ];
    (destruct (Z.leb_spec 97 (code c)), (Z.leb_spec (code c) 102); cbn [andb];
     [split; [reflexivity | lia] | | | ]);
    (destruct (Z.leb_spec 65 (code c)), (Z.leb_spec (code c) 70); cbn [andb];
     [split; [reflexivity | lia] | | | ]); lia.
Qed.

Lemma hex_not_special (c : ascii) :
  isHexDigit c = true ->
  isWhiteSpace c = false
  /\ (c =? "-")%char = false /\ (c =? "+")%char = false
  /\ (c =? "x")%char = false /\ (c =? "X")%char = false.
Proof.
  intros H. apply isHexDigit_cases in H.
  assert (Hne : forall k : ascii, code c <> code k -> (c =? k)%char = false).
  { intros k Hk. apply Ascii.eqb_neq. intros ->. now apply Hk. }
  split.
  - unfold isWhiteSpace.
    destruct (Z.leb_spec 9 (code c)), (Z.leb_spec (code c) 13),
      (Z.eqb_spec (code c) 32), (Z.eqb_spec (code c) 160); cbn; trivial; lia.
  - repeat split; apply Hne;
      [change (code "-") with 45 | change (code "+") with 43
       | change (code "x") with 120 | change (code "X") with 88]; lia.
Qed.

(** [parseInt] on a pair of digits. *)
Lemma parseInt16_pair (a b : ascii) :
  isHexDigit a = true -> isHexDigit b = true ->
  parseInt16 (String a (String b EmptyString)) = Some (16 * digit a + digit b).
Proof.
  intros Ha Hb.
  destruct (hex_not_special a Ha) as (Wa & Ma & Pa & _).
  destruct (hex_not_special b Hb) as (_ & _ & _ & Xb & XXb).
  destruct (digitValue_hex a Ha) as [Da _].
  destruct (digitValue_hex b Hb) as [Db _].
  unfold parseInt16. cbn [trimStart]. rewrite Wa, Ma, Pa, Xb, XXb.
  rewrite andb_false_r. cbn [startsWithDigit digits].
  rewrite Da, Db. cbn [defined]. f_equal. lia.
Qed.

(** Strings two characters at a time. *)
Lemma string_pairs_ind (P : string -> Prop) :
  P EmptyString ->
  (forall a, P (String a EmptyString)) ->
  (forall a b rest, P rest -> P (String a (String b rest))) ->
  forall s, P s.
Proof.
  intros H0 H1 H2.
  fix IH 1. intros [| a [| b rest]]; [apply H0 | apply H1 | apply H2, IH].
Qed.

Lemma hex_loop (s : string) :
  VALID_HEX s = true ->
  map (fun i => toUint8 (parseInt16 (substring (i * 2) 2 s)))
      (seq 0 (String.length s / 2))
  = pairs s.
Proof.
  induction s as [| a | a b rest IH] using string_pairs_ind;
    [reflexivity | discriminate |].
  cbn [VALID_HEX]. rewrite !andb_true_iff. intros [[Ha Hb] Hrest].
  cbn [String.length].
  replace (S (S (String.length rest)) / 2)%nat with (S (String.length rest / 2))
    by (change (S (S (String.length rest))) with (1 * 2 + String.length rest)%nat;
        now rewrite Nat.div_add_l by lia).
  cbn [seq map pairs]. f_equal.
  - cbn [Nat.mul substring]. 
    replace (substring 0 0 rest) with EmptyString by (now destruct rest).
    now rewrite parseInt16_pair.
  - rewrite <- seq_shift, map_map. rewrite <- (IH Hrest).
    apply map_ext. intros i. reflexivity.
Qed.

(** [hexToBytes], without the loop. *)
Lemma hexToBytes_pairs (s : string) :
  hexToBytes s = if VALID_HEX s then Some (pairs s) else None.
Proof.
  unfold hexToBytes. destruct (VALID_HEX s) eqn:Hv; [| reflexivity].
  cbn [negb]. f_equal. now apply hex_loop.
Qed.

Lemma append_assoc (s t u : string) : ((s ++ t) ++ u = s ++ (t ++ u))%string.
Proof. induction s as [| c s IH]; [reflexivity |]. cbn. now rewrite IH. Qed.

Lemma append_empty_r (s : string) : (s ++ EmptyString)%string = s.
Proof. induction s as [| c s IH]; [reflexivity |]. cbn. now rewrite IH. Qed.

Lemma hexChar_0 : hexChar 0 = "0"%char.
Proof. reflexivity. Qed.

(** [bytesToHex], without the accumulator: two digits for each byte. *)
Lemma bytesToHex_cons (b : byte) (bs : list byte) :
  bytesToHex (b :: bs)
  = String (hexChar (byte.unsigned b / 16))
           (String (hexChar (byte.unsigned b mod 16)) (bytesToHex bs)).
Proof.
  unfold bytesToHex.
  set (f := fun (result : string) (b : byte) => _).
  assert (Hf : forall bs acc, fold_left f bs acc
                              = (acc ++ fold_left f bs EmptyString)%string).
  { clear. induction bs as [| b bs IH]; intros acc.
    - cbn. now rewrite append_empty_r.
    - cbn [fold_left]. rewrite (IH (f acc b)), (IH (f EmptyString b)).
      rewrite <- append_assoc. f_equal.
      unfold f. destruct (byte.unsigned b <? 16);
        cbn [append]; now rewrite ?append_assoc. }
  cbn [fold_left]. rewrite Hf. unfold f at 1.
  pose proof (byte.unsigned_range b) as Hb.
  unfold toString16. cbn [append].
  destruct (Z.ltb_spec (byte.unsigned b) 16) as [H | H].
  - change (byte.unsigned b <? 0x10) with (byte.unsigned b <? 16).
    destruct (Z.ltb_spec (byte.unsigned b) 16); [| lia]. cbn [append].
    rewrite Z.div_small, Z.mod_small by lia. reflexivity.
  - change (byte.unsigned b <? 0x10) with (byte.unsigned b <? 16).
    destruct (Z.ltb_spec (byte.unsigned b) 16); [lia |]. reflexivity.
Qed.

Lemma hexChar_digit (d : Z) :
  0 <= d < 16 -> isHexDigit (hexChar d) = true /\ digit (hexChar d) = d.
Proof.
  intros Hd.
  assert (Hc : code (hexChar d) = if d <? 10 then 48 + d else 97 + (d - 10)).
  { unfold hexChar. change (code "0") with 48. change (code "a") with 97.
    destruct (Z.ltb_spec d 10); apply code_ascii_of_N; lia. }
  assert (Hx : isHexDigit (hexChar d) = true).
  { apply isHexDigit_cases. rewrite Hc. destruct (Z.ltb_spec d 10); lia. }
  split; [exact Hx |].
  unfold digit, digitValue.
  change (code "0") with 48. change (code "9") with 57.
  change (code "a") with 97. change (code "f") with 102.
  change (code "A") with 65. change (code "F") with 70.
  rewrite Hc. destruct (Z.ltb_spec d 10).
  - destruct (Z.leb_spec 48 (48 + d)), (Z.leb_spec (48 + d) 57); cbn [andb];
      lia.
  - destruct (Z.leb_spec 48 (97 + (d - 10))), (Z.leb_spec (97 + (d - 10)) 57);
      cbn [andb]; try lia;
      destruct (Z.leb_spec 97 (97 + (d - 10))), (Z.leb_spec (97 + (d - 10)) 102);
      cbn [andb]; lia.
Qed.

Lemma hexChar_lower (c : ascii) :
  isHexDigit c = true -> hexChar (digit c) = toLowerCase1 c.
Proof.
  intros H. pose proof (proj1 (isHexDigit_cases c) H) as Hr.
  apply code_inj.
  unfold toLowerCase1, hexChar, digit, digitValue.
  change (code "0") with 48. change (code "9") with 57.
  change (code "a") with 97. change (code "f") with 102.
  change (code "A") with 65. change (code "F") with 70. change (code "Z") with 90.
  pose proof (code_range c).
  destruct (Z.leb_spec 48 (code c)), (Z.leb_spec (code c) 57); cbn [andb];
    destruct (Z.leb_spec 97 (code c)), (Z.leb_spec (code c) 102); cbn [andb];
    destruct (Z.leb_spec 65 (code c)), (Z.leb_spec (code c) 70); cbn [andb];
    destruct (Z.leb_spec (code c) 90); cbn [andb]; try lia;
    match goal with
    | |- context [?a - ?b <? 10] => destruct (Z.ltb_spec (a - b) 10); try lia
    | |- context [?a - ?b + 10 <? 10] => destruct (Z.ltb_spec (a - b + 10) 10); try lia
    end;
    rewrite ?code_ascii_of_N by lia; lia.
Qed.

Lemma bytesToHex_pairs (bs : list byte) :
  VALID_HEX (bytesToHex bs) = true /\ pairs (bytesToHex bs) = bs.
Proof.
  induction bs as [| b bs [IHv IHp]]; [now split |].
  rewrite bytesToHex_cons. pose proof (byte.unsigned_range b) as Hb.
  change (2 ^ 8) with 256 in Hb.
  assert (Hhi : 0 <= byte.unsigned b / 16 < 16)
    by (split; [apply Z.div_pos; lia | apply Z.div_lt_upper_bound; lia]).
  assert (Hlo : 0 <= byte.unsigned b mod 16 < 16)
    by (apply Z.mod_pos_bound; lia).
  destruct (hexChar_digit _ Hhi) as [Xhi Dhi].
  destruct (hexChar_digit _ Hlo) as [Xlo Dlo].
  cbn [VALID_HEX pairs]. rewrite Xhi, Xlo, IHv, IHp, Dhi, Dlo. split; [reflexivity |].
  f_equal. rewrite <- (byte.of_Z_unsigned b) at 3. f_equal.
  pose proof (Z.div_mod (byte.unsigned b) 16). lia.
Qed.

Lemma pairs_bytesToHex (s : string) :
  VALID_HEX s = true -> bytesToHex (pairs s) = toLowerCase s.
Proof.
  induction s as [| a | a b rest IH] using string_pairs_ind;
    [reflexivity | discriminate |].
  cbn [VALID_HEX]. rewrite !andb_true_iff. intros [[Ha Hb] Hrest].
  cbn [pairs toLowerCase]. rewrite bytesToHex_cons, (IH Hrest).
  destruct (digitValue_hex a Ha) as [_ Da]. destruct (digitValue_hex b Hb) as [_ Db].
  rewrite unsigned_of_Z_small by lia.
  replace ((16 * digit a + digit b) / 16) with (digit a)
    by (apply (Z.div_unique _ 16 _ (digit b)); lia).
  replace ((16 * digit a + digit b) mod 16) with (digit b)
    by (apply (Z.mod_unique _ 16 (digit a)); lia).
  now rewrite !hexChar_lower.
Qed.

Lemma length_pairs (s : string) :
  VALID_HEX s = true -> (2 * List.length (pairs s))%nat = String.length s.
Proof.
  induction s as [| a | a b rest IH] using string_pairs_ind;
    [reflexivity | discriminate |].
  cbn [VALID_HEX]. rewrite !andb_true_iff. intros [_ Hrest].
  cbn [pairs List.length String.length]. specialize (IH Hrest). lia.
Qed.

Lemma VALID_HEX_spec (s : string) :
  VALID_HEX s = true <->
  Nat.even (String.length s) = true
  /\ forall i c, get i s = Some c -> isHexDigit c = true.
Proof.
  induction s as [| a | a b rest IH] using string_pairs_ind.
  - split; [| reflexivity]. intros _. split; [reflexivity | discriminate].
  - split; [discriminate | intros [H _]; discriminate].
  - cbn [VALID_HEX String.length Nat.even]. rewrite !andb_true_iff, IH.
    split.
    + intros [[Ha Hb] [He Hg]]. split; [assumption |].
      intros [| [| i]] c; cbn [get]; [congruence | congruence | apply Hg].
    + intros [He Hg]. split; [split |]; [apply (Hg 0%nat) | apply (Hg 1%nat) |];
        try reflexivity.
      split; [assumption |]. intros i c. apply (Hg (S (S i))).
Qed.

Lemma VALID_HEX_app (s t : string) :
  VALID_HEX s = true ->
  VALID_HEX (s ++ t) = VALID_HEX t /\ pairs (s ++ t) = (pairs s ++ pairs t)%list.
Proof.
  induction s as [| a | a b rest IH] using string_pairs_ind;
    [now split | discriminate |].
  cbn [VALID_HEX]. rewrite !andb_true_iff. intros [[Ha Hb] Hrest].
  destruct (IH Hrest) as [IHv IHp].
  cbn [append VALID_HEX pairs]. rewrite Ha, Hb, IHv, IHp. now split.
Qed.

(** X1. [hexToBytes] undoes [bytesToHex] on every buffer. *)
Theorem hexToBytes_bytesToHex (bs : list byte) :
  hexToBytes (bytesToHex bs) = Some bs.
Proof.
  rewrite hexToBytes_pairs. destruct (bytesToHex_pairs bs) as [-> ->]. reflexivity.
Qed.

(** X2. On every string [hexToBytes] accepts, [bytesToHex] of its result is
    the string in lower case. *)
Theorem bytesToHex_hexToBytes (s : string) (bs : list byte) :
  hexToBytes s = Some bs -> bytesToHex bs = toLowerCase s.
Proof.
  rewrite hexToBytes_pairs. destruct (VALID_HEX s) eqn:Hv; [| discriminate].
  intros [= <-]. now apply pairs_bytesToHex.
Qed.

Lemma bytesToHex_hexToBytes_witness :
  bytesToHex [x00; xff; x02; xfe] = "00ff02fe"%string.
Proof.
  apply (bytesToHex_hexToBytes "00Ff02fE" [x00; xff; x02; xfe]). reflexivity.
Defined.

(** X3. [hexToBytes] throws exactly on the strings of odd length and on the
    strings that hold a character other than 0-9, a-f, A-F; on every other
    string it returns one byte for each two characters. *)
Theorem hexToBytes_accepts (s : string) :
  (hexToBytes s = None <->
   Nat.odd (String.length s) = true
   \/ exists i c, get i s = Some c /\ isHexDigit c = false)
  /\ (forall bs, hexToBytes s = Some bs ->
        (2 * List.length bs)%nat = String.length s).
Proof.
  rewrite hexToBytes_pairs. split.
  - destruct (VALID_HEX s) eqn:Hv.
    + apply VALID_HEX_spec in Hv. destruct Hv as [He Hg].
      split; [discriminate |]. intros [Ho | (i & c & Hi & Hc)].
      * unfold Nat.odd in Ho. rewrite He in Ho. discriminate.
      * rewrite (Hg i c Hi) in Hc. discriminate.
    + split; [| reflexivity]. intros _.
      destruct (Nat.even (String.length s)) eqn:He;
        [| left; unfold Nat.odd; now rewrite He].
      right.
      assert (Hall : ~ forall i c, get i s = Some c -> isHexDigit c = true).
      { intros Hg. assert (VALID_HEX s = true) by now apply VALID_HEX_spec.
        congruence. }
      clear Hv He. induction s as [| a s IH].
      * exfalso. apply Hall. discriminate.
      * destruct (isHexDigit a) eqn:Ha; [| now exists 0%nat, a].
        destruct IH as (i & c & Hi & Hc).
        { intros Hg. apply Hall. intros [| i] c; cbn [get];
            [congruence | apply Hg]. }
        now exists (S i), c.
  - intros bs. destruct (VALID_HEX s) eqn:Hv; [| discriminate].
    intros [= <-]. now apply length_pairs.
Qed.

Lemma hexToBytes_accepts_witness :
  hexToBytes "0g" = None /\ hexToBytes "abc" = None.
Proof.
  split.
  - apply (hexToBytes_accepts "0g"). right. exists 1%nat, "g"%char.
    split; reflexivity.
  - apply (hexToBytes_accepts "abc"). left. reflexivity.
Defined.

(** X4. Both conversions respect concatenation: the hex string of two
    buffers joined is the two hex strings joined, and two accepted strings
    joined give the two buffers joined. *)
Theorem hex_concatenation :
  (forall a b : list byte,
     bytesToHex (a ++ b) = (bytesToHex a ++ bytesToHex b)%string)
  /\ (forall (s t : string) (a b : list byte),
        hexToBytes s = Some a -> hexToBytes t = Some b ->
        hexToBytes (s ++ t) = Some (a ++ b)%list).
Proof.
  split.
  - intros a b. induction a as [| x a IH]; [reflexivity |].
    cbn [app]. rewrite !bytesToHex_cons, IH. reflexivity.
  - intros s t a b. rewrite !hexToBytes_pairs.
    destruct (VALID_HEX s) eqn:Hs; [| discriminate].
    destruct (VALID_HEX t) eqn:Ht; [| discriminate].
    intros [= <-] [= <-].
    destruct (VALID_HEX_app s t Hs) as [-> ->]. now rewrite Ht.
Qed.

Lemma hex_concatenation_witness :
  hexToBytes ("0300" ++ "017F") = Some ([x03; x00] ++ [x01; x7f])%list.
Proof.
  apply (proj2 hex_concatenation "0300" "017F")%string; reflexivity.
Defined.

(** X5. [hexToBytes] does not distinguish upper from lower case, and
    nothing else: two accepted strings give the same bytes exactly when
    they are equal up to the case of their letters. *)
Theorem hexToBytes_case (s s' : string) (bs bs' : list byte) :
  hexToBytes s = Some bs -> hexToBytes s' = Some bs' ->
  (bs = bs' <-> toLowerCase s = toLowerCase s').
Proof.
  rewrite !hexToBytes_pairs.
  destruct (VALID_HEX s) eqn:Hs; [| discriminate].
  destruct (VALID_HEX s') eqn:Hs'; [| discriminate].
  intros [= <-] [= <-].
  rewrite <- (pairs_bytesToHex s Hs), <- (pairs_bytesToHex s' Hs'). split.
  - now intros ->.
  - intros H. rewrite <- (proj2 (bytesToHex_pairs (pairs s))),
      <- (proj2 (bytesToHex_pairs (pairs s'))). now rewrite H.
Qed.

Lemma hexToBytes_case_witness :
  [xab; xcd] = [xab; xcd] <-> toLowerCase "aBCd" = toLowerCase "AbcD".
Proof.
  apply (hexToBytes_case "aBCd" "AbcD" [xab; xcd] [xab; xcd]); reflexivity.
Defined.

End HexStrings.

(** ** Packed colours beyond 12 bits *)

Section ScaledExtras.

Import HueLightColorXYScaled.

Lemma unpack_x_any (x y : Z) :
  Z.lor (Z.shiftl (Z.land (byte.wrap (Z.lor (Z.shiftr (Z.land x 0xf00) 8)
                                            (Z.shiftl (Z.land y 0x00f) 4)))
                          0x0f) 8)
        (byte.wrap (Z.land x 0x0ff)) = x mod 2 ^ 12.
Proof.
  unfold byte.wrap.
  change 0xf00 with (Z.shiftl (Z.ones 4) 8). change 0x00f with (Z.ones 4).
  change 0x0ff with (Z.ones 8).
  rewrite <- !Z.land_ones by lia. prove_Zeq_bitwise.
Qed.

Lemma unpack_y_any (x y : Z) :
  Z.lor (Z.shiftl (byte.wrap (Z.shiftr (Z.land y 0xff0) 4)) 4)
        (Z.shiftr (byte.wrap (Z.lor (Z.shiftr (Z.land x 0xf00) 8)
                                    (Z.shiftl (Z.land y 0x00f) 4))) 4)
  = y mod 2 ^ 12.
Proof.
  unfold byte.wrap.
  change 0xf00 with (Z.shiftl (Z.ones 4) 8). change 0x00f with (Z.ones 4).
  change 0xff0 with (Z.shiftl (Z.ones 8) 4).
  rewrite <- !Z.land_ones by lia. prove_Zeq_bitwise.
Qed.

(** X6. [toBytes] keeps only the low 12 bits of each coordinate, without an
    error: for all integers x and y, [fromBytes (toBytes {x, y})] is the
    colour with x and y reduced modulo 4096. *)
Theorem scaled_toBytes_truncates (x y : Z) :
  fromBytes (toBytes (mk x y)) = Ok (mk (x mod 4096) (y mod 4096)).
Proof.
  unfold fromBytes, toBytes.
  cbn [List.length Nat.eqb negb nth HueLightColorXYScaled.x HueLightColorXYScaled.y].
  rewrite !byte.unsigned_of_Z, unpack_x_any, unpack_y_any. reflexivity.
Qed.

(** X7. Every 3-byte buffer is the packing of exactly one pair of 12-bit
    coordinates: [fromBytes] succeeds on it, returns coordinates in 0..4095,
    and [toBytes] of the result is the buffer again. *)
Theorem scaled_toBytes_fromBytes (a b c : byte) :
  exists s,
    fromBytes [a; b; c] = Ok s
    /\ 0 <= HueLightColorXYScaled.x s <= 4095
    /\ 0 <= HueLightColorXYScaled.y s <= 4095
    /\ toBytes s = [a; b; c].
Proof.
  eexists. split; [reflexivity |].
  cbn [nth HueLightColorXYScaled.x HueLightColorXYScaled.y].
  pose proof (byte.unsigned_range a) as Ha.
  pose proof (byte.unsigned_range b) as Hb.
  pose proof (byte.unsigned_range c) as Hc.
  set (A := byte.unsigned a) in *. set (B := byte.unsigned b) in *.
  set (C := byte.unsigned c) in *.
  assert (Hx : Z.lor (Z.shiftl (Z.land B 0x0f) 8) A
               = (Z.lor (Z.shiftl (Z.land B 0x0f) 8) A) mod 2 ^ 12).
  { change 0x0f with (Z.ones 4). rewrite <- Z.land_ones by lia. prove_Zeq_bitwise. }
  assert (Hy : Z.lor (Z.shiftl C 4) (Z.shiftr B 4)
               = (Z.lor (Z.shiftl C 4) (Z.shiftr B 4)) mod 2 ^ 12).
  { rewrite <- Z.land_ones by lia. prove_Zeq_bitwise. }
  split.
  { rewrite Hx. pose proof (Z.mod_pos_bound (Z.lor (Z.shiftl (Z.land B 15) 8) A)
                                            (2 ^ 12) eq_refl).
    change (2 ^ 12) with 4096 in *. lia. }
  split.
  { rewrite Hy. pose proof (Z.mod_pos_bound (Z.lor (Z.shiftl C 4) (Z.shiftr B 4))
                                            (2 ^ 12) eq_refl).
    change (2 ^ 12) with 4096 in *. lia. }
  unfold toBytes. cbn [HueLightColorXYScaled.x HueLightColorXYScaled.y].
  f_equal; [| f_equal; [| f_equal]].
  - rewrite <- (byte.of_Z_unsigned a). fold A. f_equal.
    change 0x0ff with (Z.ones 8). change 0x0f with (Z.ones 4). prove_Zeq_bitwise.
  - rewrite <- (byte.of_Z_unsigned b). fold B. f_equal.
    change 0xf00 with (Z.shiftl (Z.ones 4) 8). change 0x00f with (Z.ones 4).
    change 0x0f with (Z.ones 4). prove_Zeq_bitwise.
  - rewrite <- (byte.of_Z_unsigned c). fold C. f_equal.
    change 0xff0 with (Z.shiftl (Z.ones 8) 4). prove_Zeq_bitwise.
Qed.

End ScaledExtras.

(** ** Scaling and Kelvin *)

Section ScalingExtras.

Import HueLightUpdateMessage Wire RoundTrip.

Lemma clamp_low (r : Q) : (r <= 0)%Q -> (Qmax 0 (Qmin r 1) == 0)%Q.
Proof.
  intros H.
  destruct (Q.min_spec r 1) as [[L E] | [L E]];
    destruct (Q.max_spec 0 (Qmin r 1)) as [[L' E'] | [L' E']];
    rewrite E'; rewrite ?E in *; lra.
Qed.

Lemma clamp_high (r : Q) : (1 <= r)%Q -> (Qmax 0 (Qmin r 1) == 1)%Q.
Proof.
  intros H.
  destruct (Q.min_spec r 1) as [[L E] | [L E]];
    destruct (Q.max_spec 0 (Qmin r 1)) as [[L' E'] | [L' E']];
    rewrite E'; rewrite ?E in *; lra.
Qed.

Lemma clamp_mono (r r' : Q) :
  (r <= r')%Q -> (Qmax 0 (Qmin r 1) <= Qmax 0 (Qmin r' 1))%Q.
Proof.
  intros H.
  destruct (Q.min_spec r 1) as [[L1 E1] | [L1 E1]];
    destruct (Q.max_spec 0 (Qmin r 1)) as [[L2 E2] | [L2 E2]];
    destruct (Q.min_spec r' 1) as [[L3 E3] | [L3 E3]];
    destruct (Q.max_spec 0 (Qmin r' 1)) as [[L4 E4] | [L4 E4]];
    rewrite E2, E4; rewrite ?E1, ?E3 in *; lra.
Qed.

(** One axis of [toScaled], for a ratio [r] of the coordinate to its
    axis maximum. *)
Lemma scaled_axis (r r' : Q) :
  let scale := fun q => Math_trunc (inject_Z 0xfff * Qmax 0 (Qmin q 1)) in
  0 <= scale r <= 4095
  /\ ((r <= 0)%Q -> scale r = 0)
  /\ ((1 <= r)%Q -> scale r = 4095)
  /\ ((r <= r')%Q -> scale r <= scale r').
Proof.
  cbv zeta. split; [apply Math_trunc_range; apply clamp_range |].
  split; [| split].
  - intros H. apply Math_trunc_Z; [| lia]. rewrite (clamp_low r H).
    change (inject_Z 0xfff) with 4095%Q. change (inject_Z 0) with 0%Q. lra.
  - intros H. apply Math_trunc_Z; [| lia]. rewrite (clamp_high r H).
    change (inject_Z 0xfff) with 4095%Q. change (inject_Z 4095) with 4095%Q. lra.
  - intros H. rewrite !Math_trunc_floor by apply clamp_range.
    apply Qfloor_resp_le. pose proof (clamp_mono r r' H).
    change (inject_Z 0xfff) with 4095%Q. lra.
Qed.



Lemma fromKelvin_integer (k : Z) :
  0 < k ->
  HueLightColorMired.mired (HueLightColorMired.fromKelvin (inject_Z k))
  = 1000000 / k.
Proof.
  intros Hk. destruct k as [| p | p]; try lia.
  unfold HueLightColorMired.fromKelvin. cbn [HueLightColorMired.mired].
  unfold Math_trunc, Qdiv, Qinv, inject_Z. cbn [Qnum Qden Qmult].
  rewrite Z.mul_1_r, Pos.mul_1_l. apply Z.quot_div_nonneg; lia.
Qed.

(** X9. For a whole number of Kelvin [k > 0], [fromKelvin] gives the mired
    value [1000000 / k] rounded down.  A message carrying it as its colour
    temperature is encoded without error, and decoding returns the same
    colour temperature exactly when [k >= 16]: below 16 K the mired value
    exceeds 65535 and only its low 16 bits are sent. *)
Theorem fromKelvin_roundtrip (k : Z) :
  0 < k ->
  let c := HueLightColorMired.fromKelvin (inject_Z k) in
  HueLightColorMired.mired c = 1000000 / k
  /\ exists bytes m',
       toBytes (mk None None (Some c) None None None None None None) = Ok bytes
       /\ fromBytes bytes = Ok m'
       /\ (colorTemp m' = Some c <-> 16 <= k).
Proof.
  intros Hk c. pose proof (fromKelvin_integer k Hk) as Hm. fold c in Hm.
  split; [exact Hm |].
  set (m := mk None None (Some c) None None None None None None).
  assert (Hc : claimed m) by (split; exact I).
  destruct (fromBytes_toBytes m Hc) as [He Hd].
  exists (image m), (decoded m). split; [exact He |]. split; [exact Hd |].
  unfold decoded, m. cbn [colorTemp option_map]. destruct c as [v].
  cbn [HueLightColorMired.mired] in *. subst v. unfold u16wrap.
  change (2 ^ 16) with 65536.
  assert (H0 : 0 <= 1000000 / k) by (apply Z.div_pos; lia).
  split.
  - intros [= H].
    destruct (Z_lt_le_dec k 16) as [Hlt | Hge]; [| exact Hge]. exfalso.
    assert (65536 <= 1000000 / k) by (apply Z.div_le_lower_bound; lia).
    pose proof (Z.mod_pos_bound (1000000 / k) 65536 eq_refl). lia.
  - intros Hge. do 2 f_equal. apply Z.mod_small. split; [exact H0 |].
    apply Z.div_lt_upper_bound; lia.
Qed.

Lemma fromKelvin_roundtrip_witness :
  HueLightColorMired.mired (HueLightColorMired.fromKelvin (inject_Z 2700)) = 370.
Proof.
  apply (fromKelvin_roundtrip 2700). lia.
Defined.

End ScalingExtras.

(** ** What the decoder returns *)

Section DecodedValues.

Import Reader HueLightUpdateMessage Wire RoundTrip.

Lemma fixedField_Ok {A : Type} (present : bool) (n : nat) (value : list byte -> A)
      (view : list byte) (o : nat) (a : option A) (o' : nat) :
  fixedField present n value view o = Ok (a, o') ->
  (present = false /\ a = None /\ o' = o)
  \/ (present = true /\ a = Some (value (window view o n))
      /\ o' = (o + n)%nat /\ length (window view o n) = n).
Proof.
  unfold fixedField. destruct present; [| intros [= <- <-]; now left].
  destruct (Nat.leb_spec (o + n) (length view)); [| discriminate].
  intros [= <- <-]. right. rewrite length_window by lia. auto.
Qed.

Lemma Ok_inj {A : Type} (a b : A) : Ok a = Ok b -> a = b.
Proof. congruence. Qed.

Lemma u8At_range (bs : list byte) (i : nat) : 0 <= u8At bs i <= 255.
Proof. unfold u8At. pose proof (byte.unsigned_range (nth i bs x00)). lia. Qed.

Lemma le_combine_range (bs : list byte) (n : nat) :
  length bs = n -> 0 <= le_combine bs < 2 ^ (Z.of_nat n * 8).
Proof.
  intros <-. pose proof (le_combine_bound bs) as H.
  now rewrite (Z.mul_comm 8) in H.
Qed.

Lemma scaled_fromBytes_range (data : list byte) (s : HueLightColorXYScaled.t) :
  HueLightColorXYScaled.fromBytes data = Ok s ->
  0 <= HueLightColorXYScaled.x s <= 4095 /\ 0 <= HueLightColorXYScaled.y s <= 4095.
Proof.
  unfold HueLightColorXYScaled.fromBytes.
  destruct (negb _); [discriminate |]. cbv zeta. intros H.
  apply Ok_inj in H. subst s.
  cbn [HueLightColorXYScaled.x HueLightColorXYScaled.y].
  pose proof (byte.unsigned_range (nth 0 data x00)) as Ha.
  pose proof (byte.unsigned_range (nth 1 data x00)) as Hb.
  pose proof (byte.unsigned_range (nth 2 data x00)) as Hc.
  set (A := byte.unsigned (nth 0 data x00)) in *.
  set (B := byte.unsigned (nth 1 data x00)) in *.
  set (C := byte.unsigned (nth 2 data x00)) in *.
  assert (Hx : Z.lor (Z.shiftl (Z.land B 0x0f) 8) A
               = (Z.lor (Z.shiftl (Z.land B 0x0f) 8) A) mod 2 ^ 12).
  { change 0x0f with (Z.ones 4). rewrite <- Z.land_ones by lia. prove_Zeq_bitwise. }
  assert (Hy : Z.lor (Z.shiftl C 4) (Z.shiftr B 4)
               = (Z.lor (Z.shiftl C 4) (Z.shiftr B 4)) mod 2 ^ 12).
  { rewrite <- Z.land_ones by lia. prove_Zeq_bitwise. }
  rewrite Hx, Hy.
  pose proof (Z.mod_pos_bound (Z.lor (Z.shiftl (Z.land B 15) 8) A) (2 ^ 12) eq_refl).
  pose proof (Z.mod_pos_bound (Z.lor (Z.shiftl C 4) (Z.shiftr B 4)) (2 ^ 12) eq_refl).
  change (2 ^ 12) with 4096 in *. lia.
Qed.

Lemma ratio_range (n d : Z) :
  0 <= n <= d -> 0 < d -> (0 <= inject_Z n / inject_Z d <= 1)%Q.
Proof.
  intros Hn Hd.
  assert (Hd' : (0 < inject_Z d)%Q)
    by (change 0%Q with (inject_Z 0); now rewrite <- Zlt_Qlt).
  split.
  - apply Qle_shift_div_l; [assumption |]. rewrite Qmult_0_l.
    change 0%Q with (inject_Z 0). rewrite <- Zle_Qle. lia.
  - apply Qle_shift_div_r; [assumption |]. rewrite Qmult_1_l.
    rewrite <- Zle_Qle. lia.
Qed.

Lemma fromScaled_range (s : HueLightColorXYScaled.t) :
  0 <= HueLightColorXYScaled.x s <= 4095 ->
  0 <= HueLightColorXYScaled.y s <= 4095 ->
  (0 <= HueLightColorXY.x (HueLightColorXY.fromScaled s)
     <= HueLightColorXYScaled.SCALING_MAX_X
   /\ 0 <= HueLightColorXY.y (HueLightColorXY.fromScaled s)
     <= HueLightColorXYScaled.SCALING_MAX_Y)%Q.
Proof.
  intros Hx Hy. unfold HueLightColorXY.fromScaled.
  cbn [HueLightColorXY.x HueLightColorXY.y].
  pose proof (ratio_range (HueLightColorXYScaled.x s) 0xfff Hx eq_refl) as Rx.
  pose proof (ratio_range (HueLightColorXYScaled.y s) 0xfff Hy eq_refl) as Ry.
  unfold HueLightColorXYScaled.SCALING_MAX_X, HueLightColorXYScaled.SCALING_MAX_Y.
  set (rx := (inject_Z (HueLightColorXYScaled.x s) / inject_Z 0xfff)%Q) in *.
  set (ry := (inject_Z (HueLightColorXYScaled.y s) / inject_Z 0xfff)%Q) in *.
  split; split; nra.
Qed.

Lemma readColors_range (n : nat) : forall (view : list byte) (o : nat)
    (colors : list HueLightColorXY.t),
  readColors view o n = Ok colors ->
  Forall (fun c => (0 <= HueLightColorXY.x c <= HueLightColorXYScaled.SCALING_MAX_X
                    /\ 0 <= HueLightColorXY.y c
                         <= HueLightColorXYScaled.SCALING_MAX_Y)%Q) colors.
Proof.
  induction n as [| n IH]; intros view o colors H.
  - injection H as <-. constructor.
  - cbn [readColors] in H.
    apply bind_Ok in H. destruct H as (bs & _ & H).
    apply bind_Ok in H. destruct H as (s & Hs & H).
    apply bind_Ok in H. destruct H as (rest & Hrest & H).
    injection H as <-. constructor; [| now apply (IH view (o + 3)%nat)].
    apply scaled_fromBytes_range in Hs. now apply fromScaled_range.
Qed.

Lemma Math_trunc_ratio (n d : Z) :
  0 <= n -> 0 < d -> Math_trunc (inject_Z n / inject_Z d * inject_Z d) = n.
Proof.
  intros Hn Hd. apply Math_trunc_Z; [| assumption].
  assert (Hd' : ~ (inject_Z d == 0)%Q).
  { change 0%Q with (inject_Z 0). rewrite inject_Z_injective. lia. }
  now field.
Qed.

(** The attributes a successful run of [decode] returns lie in the ranges
    of their wire fields. *)
Lemma decodes_ranges (view : list byte) (flags : Z) (m : t)
      (o1 o2 o3 o4 o5 o6 o7 o8 n : nat) :
  decodes view flags m o1 o2 o3 o4 o5 o6 o7 o8 n ->
  whenSet (fun b => 0 <= b <= 255) (brightness m)
  /\ whenSet (fun c => 0 <= HueLightColorMired.mired c <= 0xffff) (colorTemp m)
  /\ whenSet (fun c => (0 <= HueLightColorXY.x c <= 1
                        /\ 0 <= HueLightColorXY.y c <= 1)%Q) (colorXY m)
  /\ whenSet (fun v => 0 <= v <= 0xffff) (transitionTime m)
  /\ whenSet (fun v => 0 <= v <= 0xff) (effect m)
  /\ whenSet (fun v => 0 <= v <= 0xff) (effectSpeed m)
  /\ whenSet (fun g =>
                0 <= HueLightGradient.style g <= 0xff
                /\ (length (HueLightGradient.colors g) <= 15)%nat
                /\ Forall (fun c =>
                             (0 <= HueLightColorXY.x c
                                <= HueLightColorXYScaled.SCALING_MAX_X
                              /\ 0 <= HueLightColorXY.y c
                                <= HueLightColorXYScaled.SCALING_MAX_Y)%Q)
                          (HueLightGradient.colors g))
             (gradient m)
  /\ whenSet (fun p => eighths (HueLightGradientParams.scale p)
                       /\ eighths (HueLightGradientParams.offset p))
             (gradientParams m).
Proof.
  intros (E0 & E1 & E2 & E3 & E4 & E5 & E6 & E7 & E8 & E9).
  rewrite readBrightness_fixed in E2.
  rewrite readColorTemp_fixed in E3. rewrite readColorXY_fixed in E4.
  rewrite readTransitionTime_fixed in E5. rewrite readEffect_fixed in E6.
  rewrite readEffectSpeed_fixed in E8. rewrite readGradientParams_fixed in E9.
  apply fixedField_Ok in E2, E3, E4, E5, E6, E8, E9.
  split.
  { destruct E2 as [(_ & -> & _) | (_ & -> & _)]; cbn [whenSet]; [exact I |].
    apply u8At_range. }
  split.
  { destruct E3 as [(_ & -> & _) | (_ & -> & _ & L)]; cbn [whenSet]; [exact I |].
    unfold valueColorTemp. cbn [HueLightColorMired.mired].
    pose proof (le_combine_range _ 2 L) as R. change (2 ^ _) with 65536 in R. lia. }
  split.
  { destruct E4 as [(_ & -> & _) | (_ & -> & _ & L)]; cbn [whenSet]; [exact I |].
    unfold valueColorXY. cbn [HueLightColorXY.x HueLightColorXY.y].
    assert (L1 : length (firstn 2 (window view o3 4)) = 2%nat)
      by (rewrite length_firstn; lia).
    assert (L2 : length (skipn 2 (window view o3 4)) = 2%nat)
      by (rewrite length_skipn; lia).
    pose proof (le_combine_range _ 2 L1) as R1. change (2 ^ _) with 65536 in R1.
    pose proof (le_combine_range _ 2 L2) as R2. change (2 ^ _) with 65536 in R2.
    split; apply ratio_range; lia. }
  split.
  { destruct E5 as [(_ & -> & _) | (_ & -> & _ & L)]; cbn [whenSet]; [exact I |].
    unfold valueU16.
    pose proof (le_combine_range _ 2 L) as R. change (2 ^ _) with 65536 in R. lia. }
  split.
  { destruct E6 as [(_ & -> & _) | (_ & -> & _)]; cbn [whenSet]; [exact I |].
    apply u8At_range. }
  split.
  { destruct E8 as [(_ & -> & _) | (_ & -> & _)]; cbn [whenSet]; [exact I |].
    apply u8At_range. }
  split.
  { destruct (hasFlag flags Flags.GRADIENT_COLORS) eqn:Hf.
    - apply readGradient_Ok in E7; [| assumption].
      destruct E7 as (size & b & style & colors & _ & _ & _ & Hb & Hst & _ & Hc & -> & _).
      cbn [whenSet HueLightGradient.style HueLightGradient.colors].
      apply getUint8_range in Hb, Hst.
      split; [lia |]. split; [| now apply readColors_range in Hc].
      rewrite (readColors_length _ _ _ _ Hc).
      assert (Z.shiftr b 4 <= 15).
      { rewrite Z.shiftr_div_pow2 by lia. change (2 ^ 4) with 16.
        apply Z.lt_succ_r. apply Z.div_lt_upper_bound; lia. }
      lia.
    - rewrite readGradient_absent in E7 by assumption.
      apply Ok_inj in E7. injection E7 as <- _. exact I. }
  destruct E9 as [(_ & -> & _) | (_ & -> & _)]; cbn [whenSet]; [exact I |].
  unfold valueGradientParams.
  cbn [HueLightGradientParams.scale HueLightGradientParams.offset].
  split; eexists; (split; [apply u8At_range | reflexivity]).
Qed.

(** X10. Whatever the buffer, the attributes of a decoded message lie in
    the ranges of their wire fields: brightness, effect, effect speed and
    gradient style in 0..255; mired and transition time in 0..65535; the
    coordinates of [colorXY] in 0..1; a gradient has at most 15 colours, each
    with x in 0..0.7347 and y in 0..0.8264; the scale and offset of the
    gradient parameters are multiples of 1/8 in 0..31.875. *)
Theorem fromBytes_ranges (data : list byte) (m : t) :
  fromBytes data = Ok m ->
  whenSet (fun b => 0 <= b <= 255) (brightness m)
  /\ whenSet (fun c => 0 <= HueLightColorMired.mired c <= 0xffff) (colorTemp m)
  /\ whenSet (fun c => (0 <= HueLightColorXY.x c <= 1
                        /\ 0 <= HueLightColorXY.y c <= 1)%Q) (colorXY m)
  /\ whenSet (fun v => 0 <= v <= 0xffff) (transitionTime m)
  /\ whenSet (fun v => 0 <= v <= 0xff) (effect m)
  /\ whenSet (fun v => 0 <= v <= 0xff) (effectSpeed m)
  /\ whenSet (fun g =>
                0 <= HueLightGradient.style g <= 0xff
                /\ (length (HueLightGradient.colors g) <= 15)%nat
                /\ Forall (fun c =>
                             (0 <= HueLightColorXY.x c
                                <= HueLightColorXYScaled.SCALING_MAX_X
                              /\ 0 <= HueLightColorXY.y c
                                <= HueLightColorXYScaled.SCALING_MAX_Y)%Q)
                          (HueLightGradient.colors g))
             (gradient m)
  /\ whenSet (fun p => eighths (HueLightGradientParams.scale p)
                       /\ eighths (HueLightGradientParams.offset p))
             (gradientParams m).
Proof.
  intros H. apply fromBytes_decode in H. destruct H as [n H].
  apply decode_decodes in H.
  destruct H as (flags & o1 & o2 & o3 & o4 & o5 & o6 & o7 & o8 & H).
  exact (decodes_ranges _ _ _ _ _ _ _ _ _ _ _ _ H).
Qed.

Lemma fromBytes_ranges_witness :
  whenSet (fun b => 0 <= b <= 255)
          (brightness (mk None (Some 255) None None None None None None None)).
Proof.
  apply (fromBytes_ranges [x02; x00; xff]). reflexivity.
Defined.

End DecodedValues.

(** ** Encoding what was decoded *)

Section Reencoding.

Import Reader HueLightUpdateMessage Wire RoundTrip.

Lemma u16wrap_le_combine (bs : list byte) :
  length bs = 2%nat -> u16wrap (le_combine bs) = le_combine bs.
Proof.
  intros L. unfold u16wrap. apply Z.mod_small.
  now apply (le_combine_range bs 2).
Qed.

Lemma wrap_u8At (bs : list byte) (i : nat) : byte.wrap (u8At bs i) = u8At bs i.
Proof. apply byte.wrap_unsigned. Qed.

(** Encoding and decoding again the message a run of [decode] returned
    gives back each attribute; of a gradient, the style and the number of
    colours. *)
Lemma decodes_stable (view : list byte) (flags : Z) (m : t)
      (o1 o2 o3 o4 o5 o6 o7 o8 n : nat) :
  decodes view flags m o1 o2 o3 o4 o5 o6 o7 o8 n ->
  isOn (decoded m) = isOn m
  /\ brightness (decoded m) = brightness m
  /\ colorTemp (decoded m) = colorTemp m
  /\ colorXY (decoded m) = colorXY m
  /\ transitionTime (decoded m) = transitionTime m
  /\ effect (decoded m) = effect m
  /\ effectSpeed (decoded m) = effectSpeed m
  /\ gradientParams (decoded m) = gradientParams m
  /\ optRel (fun g g' =>
               HueLightGradient.style g' = HueLightGradient.style g
               /\ length (HueLightGradient.colors g')
                  = length (HueLightGradient.colors g))
            (gradient m) (gradient (decoded m)).
Proof.
  intros H. pose proof (decodes_ranges _ _ _ _ _ _ _ _ _ _ _ _ H)
    as (_ & _ & _ & _ & _ & _ & RG & _).
  destruct H as (E0 & E1 & E2 & E3 & E4 & E5 & E6 & E7 & E8 & E9).
  rewrite readBrightness_fixed in E2.
  rewrite readColorTemp_fixed in E3. rewrite readColorXY_fixed in E4.
  rewrite readTransitionTime_fixed in E5. rewrite readEffect_fixed in E6.
  rewrite readEffectSpeed_fixed in E8. rewrite readGradientParams_fixed in E9.
  apply fixedField_Ok in E2, E3, E4, E5, E6, E8, E9.
  unfold decoded.
  cbn [isOn brightness colorTemp colorXY transitionTime effect effectSpeed
       gradient gradientParams].
  split; [reflexivity |].
  split.
  { destruct E2 as [(_ & -> & _) | (_ & -> & _)]; cbn [option_map]; [reflexivity |].
    unfold valueU8. now rewrite wrap_u8At. }
  split.
  { destruct E3 as [(_ & -> & _) | (_ & -> & _ & L)]; cbn [option_map]; [reflexivity |].
    unfold valueColorTemp. cbn [HueLightColorMired.mired].
    now rewrite u16wrap_le_combine. }
  split.
  { destruct E4 as [(_ & -> & _) | (_ & -> & _ & L)]; cbn [option_map]; [reflexivity |].
    unfold valueColorXY, colorXY'. cbn [HueLightColorXY.x HueLightColorXY.y].
    assert (L1 : length (firstn 2 (window view o3 4)) = 2%nat)
      by (rewrite length_firstn; lia).
    assert (L2 : length (skipn 2 (window view o3 4)) = 2%nat)
      by (rewrite length_skipn; lia).
    pose proof (le_combine_range _ 2 L1) as R1.
    pose proof (le_combine_range _ 2 L2) as R2.
    rewrite !Math_trunc_ratio by (reflexivity || lia).
    now rewrite !u16wrap_le_combine. }
  split.
  { destruct E5 as [(_ & -> & _) | (_ & -> & _ & L)]; cbn [option_map]; [reflexivity |].
    unfold valueU16. now rewrite u16wrap_le_combine. }
  split.
  { destruct E6 as [(_ & -> & _) | (_ & -> & _)]; cbn [option_map]; [reflexivity |].
    unfold valueU8. now rewrite wrap_u8At. }
  split.
  { destruct E8 as [(_ & -> & _) | (_ & -> & _)]; cbn [option_map]; [reflexivity |].
    unfold valueU8. now rewrite wrap_u8At. }
  split.
  { destruct E9 as [(_ & -> & _) | (_ & -> & _)]; cbn [option_map]; [reflexivity |].
    unfold valueGradientParams, gradientParams'.
    cbn [HueLightGradientParams.scale HueLightGradientParams.offset].
    pose proof (u8At_range (window view o8 2) 0).
    pose proof (u8At_range (window view o8 2) 1).
    rewrite !Math_trunc_ratio by (reflexivity || lia).
    now rewrite !wrap_u8At. }
  destruct (gradient m) as [g |]; cbn [option_map optRel whenSet] in *; [| exact I].
  unfold gradient'. cbn [HueLightGradient.style HueLightGradient.colors].
  split; [| apply length_map].
  apply Z.mod_small. change (2 ^ 8) with 256. lia.
Qed.

Lemma fixedField_cursor {A : Type} (present : bool) (n : nat)
      (value : list byte -> A) (view : list byte) (o : nat)
      (a : option A) (o' : nat) :
  fixedField present n value view o = Ok (a, o') ->
  o' = (o + if defined a then n else 0)%nat.
Proof.
  intros H. apply fixedField_Ok in H.
  destruct H as [(_ & -> & ->) | (_ & -> & -> & _)]; cbn [defined]; lia.
Qed.

(** The cursor of a successful run ends at or after the encoded length of
    the message it returns, and inside the view. *)
Lemma decodes_length (view : list byte) (flags : Z) (m : t)
      (o1 o2 o3 o4 o5 o6 o7 o8 n : nat) :
  decodes view flags m o1 o2 o3 o4 o5 o6 o7 o8 n ->
  (encodedLength m <= n <= length view)%nat.
Proof.
  intros (E0 & E1 & E2 & E3 & E4 & E5 & E6 & E7 & E8 & E9).
  assert (L0 : (2 <= length view)%nat).
  { rewrite getUint16_window in E0.
    destruct (Nat.leb_spec (0 + 2) (length view)); [lia | discriminate]. }
  pose proof (proj2 (readGradient_advances _ _ _ _ _ E7)) as B7.
  assert (G : (o6 + match gradient m with
                    | Some g => 5 + 3 * length (HueLightGradient.colors g)
                    | None => 0
                    end <= o7)%nat).
  { destruct (hasFlag flags Flags.GRADIENT_COLORS) eqn:Hf.
    - apply readGradient_Ok in E7; [| assumption].
      destruct E7 as (size & b & style & colors & Hs & _ & _ & Hb & _ & Hce & Hc & -> & ->).
      cbn [HueLightGradient.colors]. rewrite (readColors_length _ _ _ _ Hc).
      apply getUint8_range in Hb. apply getUint8_range in Hs.
      assert (0 <= Z.shiftr b 4) by (apply Z.shiftr_nonneg; lia).
      lia.
    - rewrite readGradient_absent in E7 by assumption.
      apply Ok_inj in E7. injection E7 as <- <-. lia. }
  rewrite readIsOn_fixed in E1. rewrite readBrightness_fixed in E2.
  rewrite readColorTemp_fixed in E3. rewrite readColorXY_fixed in E4.
  rewrite readTransitionTime_fixed in E5. rewrite readEffect_fixed in E6.
  rewrite readEffectSpeed_fixed in E8. rewrite readGradientParams_fixed in E9.
  pose proof (proj2 (fixedField_advances _ _ _ _ _ _ _ E1)) as B1.
  pose proof (proj2 (fixedField_advances _ _ _ _ _ _ _ E2)) as B2.
  pose proof (proj2 (fixedField_advances _ _ _ _ _ _ _ E3)) as B3.
  pose proof (proj2 (fixedField_advances _ _ _ _ _ _ _ E4)) as B4.
  pose proof (proj2 (fixedField_advances _ _ _ _ _ _ _ E5)) as B5.
  pose proof (proj2 (fixedField_advances _ _ _ _ _ _ _ E6)) as B6.
  pose proof (proj2 (fixedField_advances _ _ _ _ _ _ _ E8)) as B8.
  pose proof (proj2 (fixedField_advances _ _ _ _ _ _ _ E9)) as B9.
  apply fixedField_cursor in E1, E2, E3, E4, E5, E6, E8, E9.
  unfold encodedLength.
  destruct (defined (isOn m)), (defined (brightness m)), (defined (colorTemp m)),
    (defined (colorXY m)), (defined (transitionTime m)), (defined (effect m)),
    (defined (effectSpeed m)), (defined (gradientParams m)); lia.
Qed.

(** X11. A decoded message can be encoded again unless its brightness is 0
    or 255, the two byte values the encoder rejects and the decoder accepts.
    When it can, the new buffer is no longer than the decoded one, and
    decoding it returns the same on/off state, brightness, colour
    temperature, [colorXY], transition time, effect, effect speed and
    gradient parameters, and a gradient of the same style with the same
    number of colours. *)
Theorem fromBytes_then_toBytes (data : list byte) (m : t) :
  fromBytes data = Ok m ->
  (toBytes m = Err BrightnessOutOfRange
   <-> brightness m = Some 0 \/ brightness m = Some 255)
  /\ forall bytes,
       toBytes m = Ok bytes ->
       (length bytes <= length data)%nat
       /\ exists m',
            fromBytes bytes = Ok m'
            /\ isOn m' = isOn m
            /\ brightness m' = brightness m
            /\ colorTemp m' = colorTemp m
            /\ colorXY m' = colorXY m
            /\ transitionTime m' = transitionTime m
            /\ effect m' = effect m
            /\ effectSpeed m' = effectSpeed m
            /\ gradientParams m' = gradientParams m
            /\ optRel (fun g g' =>
                         HueLightGradient.style g' = HueLightGradient.style g
                         /\ length (HueLightGradient.colors g')
                            = length (HueLightGradient.colors g))
                      (gradient m) (gradient m').
Proof.
  intros H. apply fromBytes_decode in H. destruct H as [n H].
  apply decode_decodes in H.
  destruct H as (flags & o1 & o2 & o3 & o4 & o5 & o6 & o7 & o8 & H).
  pose proof (decodes_ranges _ _ _ _ _ _ _ _ _ _ _ _ H)
    as (RB & _ & _ & _ & _ & _ & RG & _).
  pose proof (decodes_stable _ _ _ _ _ _ _ _ _ _ _ _ H) as S.
  pose proof (decodes_length _ _ _ _ _ _ _ _ _ _ _ _ H) as L.
  rewrite toBytes_cases. unfold brightnessInRange.
  split.
  - destruct (brightness m) as [b |]; cbn [whenSet] in RB.
    + destruct (Z.ltb_spec b 1), (Z.gtb_spec b 254); cbn [orb negb];
        split; try discriminate; try reflexivity;
        try (intros _; left; f_equal; lia); try (intros _; right; f_equal; lia).
      intros [[= ->] | [= ->]]; lia.
    + split; [discriminate | intros [E | E]; discriminate].
  - intros bytes Hb.
    assert (Hbytes : bytes = image m).
    { destruct (match brightness m with
                | Some b => negb ((b <? 1) || (b >? 254))
                | None => true
                end); [now apply Ok_inj in Hb | discriminate]. }
    subst bytes. split.
    + change (image m) with (u16 (flagsOf m) ++ body m).
      rewrite length_app, length_u16. pose proof (length_body m). lia.
    + exists (decoded m). split; [| exact S].
      apply fromBytes_decode. exists (encodedLength m). apply decode_image.
      destruct (gradient m) as [g |]; cbn [whenSet] in *; [| exact I].
      apply RG.
Qed.

Lemma fromBytes_then_toBytes_witness :
  toBytes (mk None (Some 255) None None None None None None None)
  = Err BrightnessOutOfRange.
Proof.
  apply (fromBytes_then_toBytes [x02; x00; xff]); [reflexivity |].
  right. reflexivity.
Defined.

End Reencoding.

(** ** The bytes the decoder consumes *)

Section ConsumedPrefix.

Import Reader HueLightUpdateMessage.

(** A successful run survives a cut of the view at or after its final
    cursor. *)
Lemma decodes_firstn (full : list byte) (flags : Z) (m : t)
      (o1 o2 o3 o4 o5 o6 o7 o8 n k : nat) :
  decodes full flags m o1 o2 o3 o4 o5 o6 o7 o8 n -> (n <= k)%nat ->
  decodes (firstn k full) flags m o1 o2 o3 o4 o5 o6 o7 o8 n.
Proof.
  unfold decodes.
  rewrite !readIsOn_fixed, !readBrightness_fixed, !readColorTemp_fixed,
    !readColorXY_fixed, !readTransitionTime_fixed, !readEffect_fixed,
    !readEffectSpeed_fixed, !readGradientParams_fixed.
  intros (E0 & E1 & E2 & E3 & E4 & E5 & E6 & E7 & E8 & E9) Hk.
  pose proof (proj1 (fixedField_advances _ _ _ _ _ _ _ E1)) as L1.
  pose proof (proj1 (fixedField_advances _ _ _ _ _ _ _ E2)) as L2.
  pose proof (proj1 (fixedField_advances _ _ _ _ _ _ _ E3)) as L3.
  pose proof (proj1 (fixedField_advances _ _ _ _ _ _ _ E4)) as L4.
  pose proof (proj1 (fixedField_advances _ _ _ _ _ _ _ E5)) as L5.
  pose proof (proj1 (fixedField_advances _ _ _ _ _ _ _ E6)) as L6.
  pose proof (proj1 (readGradient_advances _ _ _ _ _ E7)) as L7.
  pose proof (proj1 (fixedField_advances _ _ _ _ _ _ _ E8)) as L8.
  pose proof (proj1 (fixedField_advances _ _ _ _ _ _ _ E9)) as L9.
  split; [apply (getUint16_firstn _ _ _ _ E0); lia |].
  split; [apply (fixedField_firstn _ _ _ _ _ _ _ _ E1); lia |].
  split; [apply (fixedField_firstn _ _ _ _ _ _ _ _ E2); lia |].
  split; [apply (fixedField_firstn _ _ _ _ _ _ _ _ E3); lia |].
  split; [apply (fixedField_firstn _ _ _ _ _ _ _ _ E4); lia |].
  split; [apply (fixedField_firstn _ _ _ _ _ _ _ _ E5); lia |].
  split; [apply (fixedField_firstn _ _ _ _ _ _ _ _ E6); lia |].
  split; [apply (readGradient_firstn _ _ _ _ _ _ E7); lia |].
  split; [apply (fixedField_firstn _ _ _ _ _ _ _ _ E8); lia |].
  apply (fixedField_firstn _ _ _ _ _ _ _ _ E9); lia.
Qed.

Lemma decodes_cursor (view : list byte) (flags : Z) (m : t)
      (o1 o2 o3 o4 o5 o6 o7 o8 n : nat) :
  decodes view flags m o1 o2 o3 o4 o5 o6 o7 o8 n -> (2 <= n <= length view)%nat.
Proof.
  unfold decodes.
  rewrite !readIsOn_fixed, !readBrightness_fixed, !readColorTemp_fixed,
    !readColorXY_fixed, !readTransitionTime_fixed, !readEffect_fixed,
    !readEffectSpeed_fixed, !readGradientParams_fixed.
  intros (E0 & E1 & E2 & E3 & E4 & E5 & E6 & E7 & E8 & E9).
  assert (L0 : (2 <= length view)%nat).
  { rewrite getUint16_window in E0.
    destruct (Nat.leb_spec (0 + 2) (length view)); [lia | discriminate]. }
  pose proof (fixedField_advances _ _ _ _ _ _ _ E1) as L1.
  pose proof (fixedField_advances _ _ _ _ _ _ _ E2) as L2.
  pose proof (fixedField_advances _ _ _ _ _ _ _ E3) as L3.
  pose proof (fixedField_advances _ _ _ _ _ _ _ E4) as L4.
  pose proof (fixedField_advances _ _ _ _ _ _ _ E5) as L5.
  pose proof (fixedField_advances _ _ _ _ _ _ _ E6) as L6.
  pose proof (readGradient_advances _ _ _ _ _ E7) as L7.
  pose proof (fixedField_advances _ _ _ _ _ _ _ E8) as L8.
  pose proof (fixedField_advances _ _ _ _ _ _ _ E9) as L9.
  lia.
Qed.

(** X12. The result of decoding depends only on the bytes up to the final
    read cursor [n], which lies between 2 and the length of the buffer:
    every buffer that starts with the same [n] bytes decodes to the same
    message with the same cursor, and a prefix of the buffer decodes to
    that message exactly when it keeps at least [n] bytes. *)
Theorem decode_consumed_prefix (data : list byte) (m : t) (n : nat) :
  decode data = Ok (m, n) ->
  (2 <= n <= length data)%nat
  /\ (forall data', firstn n data' = firstn n data -> decode data' = Ok (m, n))
  /\ (forall k, fromBytes (firstn k data) = Ok m <-> (n <= k)%nat).
Proof.
  intros H. pose proof H as D. apply decode_decodes in H.
  destruct H as (flags & o1 & o2 & o3 & o4 & o5 & o6 & o7 & o8 & H).
  pose proof (decodes_cursor _ _ _ _ _ _ _ _ _ _ _ _ H) as Hn.
  split; [exact Hn |]. split.
  - intros data' E. apply decode_decodes.
    exists flags, o1, o2, o3, o4, o5, o6, o7, o8.
    rewrite <- (firstn_skipn n data'), E. apply decodes_app.
    now apply decodes_firstn.
  - intros k. split.
    + intros Hk. destruct (le_lt_dec n k) as [L | L]; [exact L | exfalso].
      pose proof (decode_firstn data m n k D L) as F.
      apply fromBytes_Err in F. congruence.
    + intros Hk. apply fromBytes_decode. exists n. apply decode_decodes.
      exists flags, o1, o2, o3, o4, o5, o6, o7, o8. now apply decodes_firstn.
Qed.

Lemma decode_consumed_prefix_witness :
  decode [x03; x00; x01; x7f; xaa; xbb]
  = Ok (mk (Some true) (Some 127) None None None None None None None, 4%nat)
  /\ decode [x03; x00; x01; x7f; xcc]
     = Ok (mk (Some true) (Some 127) None None None None None None None, 4%nat).
Proof.
  split; [reflexivity |].
  apply (decode_consumed_prefix [x03; x00; x01; x7f; xaa; xbb]); reflexivity.
Defined.

End ConsumedPrefix.

(** ** What the encoder stores *)

Section EncoderExtras.

Import Reader HueLightUpdateMessage Wire RoundTrip LongGradient.

Lemma flagsOf_range (m : t) : 0 <= flagsOf m < 512.
Proof.
  assert (E : flagsOf m = Z.land (flagsOf m) (Z.ones 9)).
  { apply Z.bits_inj'. intros i Hi. rewrite Z.land_spec, testbit_flagsOf.
    destruct (Z.ltb_spec i 9) as [L | L].
    - rewrite Z.ones_spec_low by lia. now rewrite andb_true_r.
    - rewrite Z.ones_spec_high by lia. rewrite andb_false_r.
      repeat match goal with
             | |- context [(?c =? i)] =>
                 replace (c =? i) with false by (symmetry; apply Z.eqb_neq; lia)
             end.
      now rewrite !andb_false_r. }
  rewrite E, Z.land_ones by lia. apply Z.mod_pos_bound. reflexivity.
Qed.

Lemma toBytes_Ok (m : t) (bytes : list byte) :
  toBytes m = Ok bytes -> bytes = image m.
Proof.
  rewrite toBytes_cases. destruct (brightnessInRange m); [| discriminate].
  intros H. now apply Ok_inj in H.
Qed.

(** X13. The buffer [toBytes] returns has the length the encoder computed
    beforehand, and its first two bytes hold, little-endian, a flag word
    below 512 in which each of the nine assigned bits is set exactly when
    the corresponding attribute is defined: no other bit is ever set. *)
Theorem toBytes_flag_word (m : t) (bytes : list byte) :
  toBytes m = Ok bytes ->
  length bytes = encodedLength m
  /\ exists flags,
       getUint16 bytes 0 = Ok flags
       /\ 0 <= flags < 512
       /\ hasFlag flags Flags.ON_OFF = defined (isOn m)
       /\ hasFlag flags Flags.BRIGHTNESS = defined (brightness m)
       /\ hasFlag flags Flags.COLOR_MIRED = defined (colorTemp m)
       /\ hasFlag flags Flags.COLOR_XY = defined (colorXY m)
       /\ hasFlag flags Flags.TRANSITION_TIME = defined (transitionTime m)
       /\ hasFlag flags Flags.EFFECT = defined (effect m)
       /\ hasFlag flags Flags.GRADIENT_COLORS = defined (gradient m)
       /\ hasFlag flags Flags.EFFECT_SPEED = defined (effectSpeed m)
       /\ hasFlag flags Flags.GRADIENT_PARAMS = defined (gradientParams m).
Proof.
  intros H. apply toBytes_Ok in H. subst bytes. split.
  - unfold image. rewrite length_app, length_u16. now rewrite length_body.
  - exists (le_combine (u16 (flagsOf m))). split; [reflexivity |].
    split; [| exact (hasFlag_flagsOf m)].
    unfold u16. rewrite le_combine_split. pose proof (flagsOf_range m).
    rewrite Z.mod_small; change (2 ^ _) with 65536; lia.
Qed.

Lemma toBytes_flag_word_witness :
  length [x03; x00; x01; x7f]
  = encodedLength (mk (Some true) (Some 127) None None None None None None None).
Proof.
  apply (toBytes_flag_word _ [x03; x00; x01; x7f]). reflexivity.
Defined.

(** X14. Apart from the brightness test, [toBytes] checks no range: an
    integer attribute is stored modulo the width of its field.  For a
    message whose brightness, if set, is in 1..254 and whose gradient, if
    set, has at most 15 colours, encoding succeeds and decoding returns the
    on/off state and the brightness unchanged, the mired value and the
    transition time modulo 65536, the effect, the effect speed and the
    gradient style modulo 256. *)
Theorem toBytes_wraps (m : t) :
  claimed m ->
  exists bytes m',
    toBytes m = Ok bytes
    /\ fromBytes bytes = Ok m'
    /\ isOn m' = isOn m
    /\ brightness m' = brightness m
    /\ colorTemp m'
       = option_map (fun c => HueLightColorMired.mk
                                (HueLightColorMired.mired c mod 65536))
                    (colorTemp m)
    /\ transitionTime m' = option_map (fun v => v mod 65536) (transitionTime m)
    /\ effect m' = option_map (fun v => v mod 256) (effect m)
    /\ effectSpeed m' = option_map (fun v => v mod 256) (effectSpeed m)
    /\ option_map HueLightGradient.style (gradient m')
       = option_map (fun g => HueLightGradient.style g mod 256) (gradient m).
Proof.
  intros Hc. destruct (fromBytes_toBytes m Hc) as [He Hd].
  exists (image m), (decoded m). split; [exact He |]. split; [exact Hd |].
  unfold decoded.
  cbn [isOn brightness colorTemp colorXY transitionTime effect effectSpeed
       gradient gradientParams].
  split; [reflexivity |]. split.
  { destruct Hc as [Hb _]. destruct (brightness m) as [b |]; [| reflexivity].
    cbn [whenSet option_map] in *. f_equal. apply Z.mod_small.
    change (2 ^ 8) with 256. lia. }
  do 4 (split; [reflexivity |]).
  destruct (gradient m); reflexivity.
Qed.

Lemma toBytes_wraps_witness :
  exists bytes m',
    toBytes (mk None None None None (Some 65537) None None None None) = Ok bytes
    /\ fromBytes bytes = Ok m'
    /\ transitionTime m' = Some 1.
Proof.
  destruct (toBytes_wraps (mk None None None None (Some 65537) None None None None))
    as (bytes & m' & He & Hd & _ & _ & _ & Ht & _); [split; exact I |].
  exists bytes, m'. split; [exact He |]. split; [exact Hd |]. exact Ht.
Defined.

Lemma eighth_floor (q : Q) :
  (0 <= q)%Q -> (q < 32)%Q ->
  exists k,
    0 <= k <= 255
    /\ byte.wrap (Math_trunc (q * inject_Z 8)) = k
    /\ (inject_Z k / inject_Z 8 <= q)%Q
    /\ (q < inject_Z k / inject_Z 8 + (1 # 8))%Q.
Proof.
  intros H0 H32.
  assert (P : (0 <= q * inject_Z 8)%Q) by (change (inject_Z 8) with 8%Q; lra).
  pose proof (Math_trunc_bounds _ P) as [Lo Hi].
  assert (R : 0 <= Math_trunc (q * inject_Z 8) <= 256).
  { apply Math_trunc_range; [exact P |].
    change (inject_Z 8) with 8%Q. change (inject_Z 256) with 256%Q. lra. }
  set (k := Math_trunc (q * inject_Z 8)) in *.
  assert (K : k < 256).
  { rewrite Zlt_Qlt. change (inject_Z 256) with 256%Q.
    change (inject_Z 8) with 8%Q in Lo. lra. }
  exists k. split; [lia |]. split.
  { apply Z.mod_small. change (2 ^ 8) with 256. lia. }
  unfold Qdiv. change (/ inject_Z 8)%Q with (1 # 8)%Q.
  change (inject_Z 8) with 8%Q in Lo, Hi. split; lra.
Qed.

(** X15. The scale and the offset of the gradient parameters are stored in
    eighths, rounded down: for a message that can be encoded whose scale
    and offset are at least 0 and below 32, decoding the encoded message
    returns a scale and an offset that are multiples of 1/8, not above the
    original, and less than 1/8 below it. *)
Theorem gradientParams_truncated (m : t) (p : HueLightGradientParams.t) :
  claimed m -> gradientParams m = Some p ->
  (0 <= HueLightGradientParams.scale p)%Q ->
  (HueLightGradientParams.scale p < 32)%Q ->
  (0 <= HueLightGradientParams.offset p)%Q ->
  (HueLightGradientParams.offset p < 32)%Q ->
  exists bytes m' p',
    toBytes m = Ok bytes
    /\ fromBytes bytes = Ok m'
    /\ gradientParams m' = Some p'
    /\ (exists k, 0 <= k <= 255
                  /\ HueLightGradientParams.scale p' = (inject_Z k / inject_Z 8)%Q)
    /\ (exists k, 0 <= k <= 255
                  /\ HueLightGradientParams.offset p' = (inject_Z k / inject_Z 8)%Q)
    /\ (HueLightGradientParams.scale p' <= HueLightGradientParams.scale p)%Q
    /\ (HueLightGradientParams.scale p
        < HueLightGradientParams.scale p' + (1 # 8))%Q
    /\ (HueLightGradientParams.offset p' <= HueLightGradientParams.offset p)%Q
    /\ (HueLightGradientParams.offset p
        < HueLightGradientParams.offset p' + (1 # 8))%Q.
Proof.
  intros Hc Hp Hs0 Hs Ho0 Ho. destruct (fromBytes_toBytes m Hc) as [He Hd].
  destruct (eighth_floor _ Hs0 Hs) as (ks & Rs & Es & Ls & Us).
  destruct (eighth_floor _ Ho0 Ho) as (ko & Ro & Eo & Lo & Uo).
  exists (image m), (decoded m), (gradientParams' p).
  split; [exact He |]. split; [exact Hd |].
  split; [unfold decoded; cbn [gradientParams]; now rewrite Hp |].
  unfold gradientParams'.
  cbn [HueLightGradientParams.scale HueLightGradientParams.offset].
  rewrite Es, Eo.
  split; [exists ks; split; [exact Rs | reflexivity] |].
  split; [exists ko; split; [exact Ro | reflexivity] |].
  repeat split; assumption.
Qed.

Lemma gradientParams_truncated_witness :
  exists bytes m' p',
    toBytes (mk None None None None None None None None
                (Some (HueLightGradientParams.mk 0.6 1.4))) = Ok bytes
    /\ fromBytes bytes = Ok m'
    /\ gradientParams m' = Some p'
    /\ (HueLightGradientParams.scale p' <= 0.6)%Q
    /\ (HueLightGradientParams.offset p' <= 1.4)%Q.
Proof.
  destruct (gradientParams_truncated
              (mk None None None None None None None None
                  (Some (HueLightGradientParams.mk 0.6 1.4)))
              (HueLightGradientParams.mk 0.6 1.4))
    as (bytes & m' & p' & He & Hd & Hp & _ & _ & Ls & _ & Lo & _);
    [split; exact I | reflexivity | | | | |];
    [unfold Qle; cbn; lia | unfold Qlt; cbn; lia
     | unfold Qle; cbn; lia | unfold Qlt; cbn; lia |].
  exists bytes, m', p'. repeat split; assumption.
Defined.

Lemma readColors_image_firstn (colors : list HueLightColorXY.t) (k : nat)
      (pre post : list byte) (o : nat) :
  o = length pre -> (k <= length colors)%nat ->
  readColors (pre ++ flat_map bytesColor colors ++ post) o k
  = Ok (map gradientColor' (firstn k colors)).
Proof.
  intros Ho Hk. rewrite <- (firstn_skipn k colors) at 1.
  rewrite flat_map_app, <- app_assoc.
  rewrite <- (readColors_image (firstn k colors) pre
                (flat_map bytesColor (skipn k colors) ++ post) o Ho).
  now rewrite length_firstn, Nat.min_l.
Qed.

Lemma readGradient_image_long (flags : Z) (pre post : list byte) (o : nat)
      (g : HueLightGradient.t) :
  o = length pre ->
  hasFlag flags Flags.GRADIENT_COLORS = true ->
  (length (HueLightGradient.colors g) <= 83)%nat ->
  readGradient flags (pre ++ bytesGradient (Some g) ++ post) o
  = Ok (Some (gradient' (counted g)), length (pre ++ bytesGradient (Some g))).
Proof.
  intros Ho Hf Hn. apply readGradient_Ok; [assumption |].
  set (cs := HueLightGradient.colors g) in *.
  assert (Hsize : byte.unsigned (byte.of_Z (4 + 3 * Z.of_nat (length cs)))
                  = 4 + 3 * Z.of_nat (length cs))
    by (apply unsigned_of_Z_small; lia).
  assert (Hcount : Z.shiftr (byte.unsigned
                               (byte.of_Z (Z.shiftl (Z.of_nat (length cs)) 4))) 4
                   = Z.of_nat (length cs mod 16)).
  { rewrite Z.shiftl_mul_pow2, byte.unsigned_of_Z by lia. unfold byte.wrap.
    change (2 ^ 8) with (16 * 2 ^ 4).
    rewrite Z.mul_mod_distr_r by lia.
    rewrite Z.shiftr_div_pow2, Z.div_mul by lia.
    now rewrite Nat2Z.inj_mod. }
  pose proof (Nat.Div0.mod_le (length cs) 16) as Hle.
  exists (4 + 3 * Z.of_nat (length cs)),
    (byte.unsigned (byte.of_Z (Z.shiftl (Z.of_nat (length cs)) 4))),
    (byte.wrap (HueLightGradient.style g)),
    (map gradientColor' (firstn (length cs mod 16) cs)).
  unfold bytesGradient, u8. fold cs. cbn [app].
  rewrite !length_app. cbn [length]. rewrite length_app, length_flat_map_bytesColor.
  rewrite Hcount.
  split; [rewrite getUint8_middle, Hsize by assumption; reflexivity |].
  split; [lia |]. split; [lia |].
  split.
  { change (pre ++ ?a :: ?b :: ?rest) with (pre ++ [a] ++ b :: rest).
    rewrite app_assoc. apply getUint8_middle. rewrite length_app. cbn [length]. lia. }
  split.
  { change (pre ++ ?a :: ?b :: ?c :: ?rest) with (pre ++ [a; b] ++ c :: rest).
    rewrite app_assoc, getUint8_middle, byte.unsigned_of_Z
      by (rewrite length_app; cbn [length]; lia).
    reflexivity. }
  split; [lia |].
  split.
  { change (pre ++ ?a :: ?b :: ?c :: ?d :: ?e :: ?rest)
      with (pre ++ [a; b; c; d; e] ++ rest).
    rewrite app_assoc, Nat2Z.id.
    apply readColors_image_firstn; [| exact Hle].
    rewrite length_app. cbn [length]. lia. }
  split; [reflexivity | lia].
Qed.

(** Decoding the wire image of a message whose gradient has up to 83
    colours. *)
Lemma decode_image_long (m : t) (g : HueLightGradient.t) :
  gradient m = Some g ->
  (length (HueLightGradient.colors g) <= 83)%nat ->
  decode (image m)
  = Ok (decoded (withGradient m (Some (counted g))), encodedLength m).
Proof.
  intros Hg Hn. apply decode_decodes.
  destruct (hasFlag_flagsOf m) as (F1 & F2 & F3 & F4 & F5 & F6 & F7 & F8 & F9).
  set (F := le_combine (u16 (flagsOf m))) in *.
  set (I1 := bytesIsOn (isOn m)). set (I2 := bytesU8 (brightness m)).
  set (I3 := bytesColorTemp (colorTemp m)). set (I4 := bytesColorXY (colorXY m)).
  set (I5 := bytesU16 (transitionTime m)). set (I6 := bytesU8 (effect m)).
  set (I7 := bytesGradient (gradient m)). set (I8 := bytesU8 (effectSpeed m)).
  set (I9 := bytesGradientParams (gradientParams m)).
  set (P0 := u16 (flagsOf m)).
  set (P1 := P0 ++ I1). set (P2 := P1 ++ I2). set (P3 := P2 ++ I3).
  set (P4 := P3 ++ I4). set (P5 := P4 ++ I5). set (P6 := P5 ++ I6).
  set (P7 := P6 ++ I7). set (P8 := P7 ++ I8).
  assert (V : image m = P0 ++ I1 ++ I2 ++ I3 ++ I4 ++ I5 ++ I6 ++ I7 ++ I8 ++ I9)
    by reflexivity.
  replace (encodedLength m) with (length (P8 ++ I9)).
  2:{ rewrite length_body. unfold P8, P7, P6, P5, P4, P3, P2, P1, P0, body.
      rewrite !length_app, length_u16. fold I1 I2 I3 I4 I5 I6 I7 I8 I9. lia. }
  exists F, (length P1), (length P2), (length P3), (length P4), (length P5),
    (length P6), (length P7), (length P8).
  unfold decodes, decoded, withGradient.
  cbn [isOn brightness colorTemp colorXY transitionTime
       effect effectSpeed gradient gradientParams option_map].
  split; [reflexivity |].
  split; [rewrite V; now apply readIsOn_image |].
  split.
  { replace (image m) with (P1 ++ I2 ++ I3 ++ I4 ++ I5 ++ I6 ++ I7 ++ I8 ++ I9)
      by (rewrite V; unfold P1; now rewrite <- !app_assoc).
    now apply readBrightness_image. }
  split.
  { replace (image m) with (P2 ++ I3 ++ I4 ++ I5 ++ I6 ++ I7 ++ I8 ++ I9)
      by (rewrite V; unfold P2, P1; now rewrite <- !app_assoc).
    now apply readColorTemp_image. }
  split.
  { replace (image m) with (P3 ++ I4 ++ I5 ++ I6 ++ I7 ++ I8 ++ I9)
      by (rewrite V; unfold P3, P2, P1; now rewrite <- !app_assoc).
    now apply readColorXY_image. }
  split.
  { replace (image m) with (P4 ++ I5 ++ I6 ++ I7 ++ I8 ++ I9)
      by (rewrite V; unfold P4, P3, P2, P1; now rewrite <- !app_assoc).
    now apply readTransitionTime_image. }
  split.
  { replace (image m) with (P5 ++ I6 ++ I7 ++ I8 ++ I9)
      by (rewrite V; unfold P5, P4, P3, P2, P1; now rewrite <- !app_assoc).
    now apply readEffect_image. }
  split.
  { replace (image m) with (P6 ++ I7 ++ I8 ++ I9)
      by (rewrite V; unfold P6, P5, P4, P3, P2, P1; now rewrite <- !app_assoc).
    unfold P7, I7. rewrite Hg.
    apply readGradient_image_long; [reflexivity | | exact Hn].
    rewrite F7, Hg. reflexivity. }
  split.
  { replace (image m) with (P7 ++ I8 ++ I9)
      by (rewrite V; unfold P7, P6, P5, P4, P3, P2, P1; now rewrite <- !app_assoc).
    now apply readEffectSpeed_image. }
  replace (image m) with (P8 ++ I9 ++ [])
    by (rewrite V; unfold P8, P7, P6, P5, P4, P3, P2, P1;
        now rewrite <- !app_assoc, app_nil_r).
  now apply readGradientParams_image.
Qed.

(** X16. The encoder accepts a gradient of more than 15 colours, but the
    colour count it stores is 4 bits wide.  For a message that passes the
    brightness test and whose gradient has [n <= 83] colours, encoding
    succeeds with [5 + 3 n] bytes for the gradient block, and decoding the
    result returns what the message with only the first [n mod 16] colours
    decodes to: a gradient of [n mod 16] colours. *)
Theorem gradient_beyond_15_colors (m : t) (g : HueLightGradient.t) :
  brightnessInRange m = true ->
  gradient m = Some g ->
  (length (HueLightGradient.colors g) <= 83)%nat ->
  exists bytes bytes' m' g',
    toBytes m = Ok bytes
    /\ length bytes = encodedLength m
    /\ toBytes (withGradient m (Some (counted g))) = Ok bytes'
    /\ fromBytes bytes = Ok m'
    /\ fromBytes bytes' = Ok m'
    /\ gradient m' = Some g'
    /\ length (HueLightGradient.colors g')
       = (length (HueLightGradient.colors g) mod 16)%nat.
Proof.
  intros Hb Hg Hn.
  set (m0 := withGradient m (Some (counted g))).
  pose proof (Nat.Div0.mod_le (length (HueLightGradient.colors g)) 16) as Hle.
  pose proof (Nat.mod_upper_bound (length (HueLightGradient.colors g)) 16
                ltac:(lia)) as Hlt.
  assert (Hk : length (HueLightGradient.colors (counted g))
               = (length (HueLightGradient.colors g) mod 16)%nat).
  { unfold counted. cbn [HueLightGradient.colors].
    now rewrite length_firstn, Nat.min_l. }
  exists (image m), (image m0), (decoded m0), (gradient' (counted g)).
  split; [now apply toBytes_image |].
  split.
  { unfold image. rewrite length_app, length_u16. now rewrite length_body. }
  split; [apply toBytes_image; exact Hb |].
  split.
  { apply fromBytes_decode. exists (encodedLength m). now apply decode_image_long. }
  split.
  { apply fromBytes_decode. exists (encodedLength m0). apply decode_image.
    unfold m0, withGradient. cbn [gradient whenSet]. lia. }
  split; [reflexivity |].
  unfold gradient'. cbn [HueLightGradient.colors]. now rewrite length_map.
Qed.

Lemma gradient_beyond_15_colors_witness :
  exists bytes m' g',
    toBytes (mk None None None None None None None
                (Some (HueLightGradient.mk 0 (repeat (HueLightColorXY.mk 0 0) 17)))
                None) = Ok bytes
    /\ length bytes = 58%nat
    /\ fromBytes bytes = Ok m'
    /\ gradient m' = Some g'
    /\ length (HueLightGradient.colors g') = 1%nat.
Proof.
  destruct (gradient_beyond_15_colors
              (mk None None None None None None None
                  (Some (HueLightGradient.mk 0 (repeat (HueLightColorXY.mk 0 0) 17)))
                  None)
              (HueLightGradient.mk 0 (repeat (HueLightColorXY.mk 0 0) 17)))
    as (bytes & bytes' & m' & g' & He & Hl & _ & Hd & _ & Hg & Hc);
    [reflexivity | reflexivity | cbn; lia |].
  exists bytes, m', g'. repeat split; assumption.
Defined.

End EncoderExtras.

(** ** Canonical buffers *)

Section Canonical.

Import Reader HueLightUpdateMessage Wire RoundTrip.

Lemma u8_wrap (v : Z) : u8 (byte.wrap v) = u8 v.
Proof.
  unfold u8. now rewrite <- (byte.unsigned_of_Z v), byte.of_Z_unsigned.
Qed.

Lemma u16_wrap (v : Z) : u16 (u16wrap v) = u16 v.
Proof. unfold u16, u16wrap. symmetry. apply (le_split_mod v 2). Qed.

Lemma u16_ratio (v : Z) :
  u16 (Math_trunc (inject_Z (u16wrap v) / inject_Z 0xffff * inject_Z 0xffff))
  = u16 v.
Proof.
  rewrite Math_trunc_ratio; [apply u16_wrap | | reflexivity].
  unfold u16wrap. apply Z.mod_pos_bound. reflexivity.
Qed.

Lemma u8_ratio (v : Z) :
  u8 (Math_trunc (inject_Z (byte.wrap v) / inject_Z 8 * inject_Z 8)) = u8 v.
Proof.
  rewrite Math_trunc_ratio; [apply u8_wrap | | reflexivity].
  apply byte.wrap_range.
Qed.

Lemma defined_option_map {A B : Type} (f : A -> B) (v : option A) :
  defined (option_map f v) = defined v.
Proof. now destruct v. Qed.

(** The wire image of a message without a gradient is the wire image of
    what it decodes to. *)
Lemma image_decoded (m : t) : gradient m = None -> image (decoded m) = image m.
Proof.
  intros Hg. unfold image. f_equal.
  - f_equal. unfold flagsOf, decoded, orFlag.
    cbn [isOn brightness colorTemp colorXY transitionTime effect effectSpeed
         gradient gradientParams].
    now rewrite !defined_option_map.
  - unfold body, decoded.
    cbn [isOn brightness colorTemp colorXY transitionTime effect effectSpeed
         gradient gradientParams].
    rewrite Hg. cbn [option_map].
    f_equal. f_equal; [destruct (brightness m); cbn; [apply u8_wrap | reflexivity] |].
    f_equal; [destruct (colorTemp m); cbn; [apply u16_wrap | reflexivity] |].
    f_equal.
    { destruct (colorXY m) as [c |]; cbn [option_map bytesColorXY]; [| reflexivity].
      unfold colorXY'. cbn [HueLightColorXY.x HueLightColorXY.y].
      now rewrite !u16_ratio. }
    f_equal; [destruct (transitionTime m); cbn; [apply u16_wrap | reflexivity] |].
    f_equal; [destruct (effect m); cbn; [apply u8_wrap | reflexivity] |].
    f_equal.
    f_equal; [destruct (effectSpeed m); cbn; [apply u8_wrap | reflexivity] |].
    destruct (gradientParams m) as [p |];
      cbn [option_map bytesGradientParams]; [| reflexivity].
    unfold gradientParams'.
    cbn [HueLightGradientParams.scale HueLightGradientParams.offset].
    now rewrite !u8_ratio.
Qed.

(** X17. The buffer of a message without a gradient is canonical: when
    [toBytes] succeeds on such a message, decoding the buffer gives a
    message whose own encoding is that same buffer, byte for byte, whatever
    the values of the attributes were. *)
Theorem toBytes_canonical (m : t) (bytes : list byte) :
  gradient m = None ->
  toBytes m = Ok bytes ->
  exists m', fromBytes bytes = Ok m' /\ toBytes m' = Ok bytes.
Proof.
  intros Hg He. rewrite toBytes_cases in He.
  destruct (brightnessInRange m) eqn:Hb; [| discriminate].
  apply Ok_inj in He. subst bytes.
  exists (decoded m). split.
  - apply fromBytes_decode. exists (encodedLength m). apply decode_image.
    now rewrite Hg.
  - rewrite <- (image_decoded m Hg). apply toBytes_image.
    unfold brightnessInRange, decoded in *. cbn [brightness].
    destruct (brightness m) as [b |]; cbn [option_map]; [| reflexivity].
    destruct (Z.ltb_spec b 1); [discriminate |].
    destruct (Z.gtb_spec b 254); [discriminate |].
    unfold byte.wrap. rewrite (Z.mod_small b) by (change (2 ^ 8) with 256; lia).
    destruct (Z.ltb_spec b 1); [lia |]. destruct (Z.gtb_spec b 254); [lia |].
    reflexivity.
Qed.

Lemma toBytes_canonical_witness :
  exists m',
    fromBytes [x10; x00; x01; x00] = Ok m'
    /\ toBytes m' = Ok [x10; x00; x01; x00].
Proof.
  apply (toBytes_canonical (mk None None None None (Some 65537) None None None None));
    reflexivity.
Defined.

End Canonical.

(** ** The failures of the decoder *)

Section DecoderFailures.

Import Reader HueLightUpdateMessage.

(** X18. [fromBytes] fails in four ways only: an out-of-bounds read, or one
    of the three errors of the gradient block.  It never raises the
    "Expected 3 bytes" error of [HueLightColorXYScaled.fromBytes], which it
    calls for every gradient colour, nor any error of the encoder; and when
    the gradient flag is clear, its only failure is the out-of-bounds
    read. *)
Theorem fromBytes_failures (data : list byte) (e : error) :
  fromBytes data = Err e ->
  (e = OutOfBounds
   \/ (exists size, e = GradientSizeTooSmall size)
   \/ (exists size from, e = GradientBeyondEnd size from)
   \/ (exists count extent o size, e = GradientNotEnoughData count extent o size))
  /\ (forall flags,
        getUint16 data 0 = Ok flags ->
        hasFlag flags Flags.GRADIENT_COLORS = false -> e = OutOfBounds).
Proof.
  intros H. apply fromBytes_Err in H.
  assert (C : e = OutOfBounds
              \/ exists flags o,
                   gradientCursor data = Ok (flags, o)
                   /\ readGradient flags data o = Err e).
  { destruct e; try (right; apply decode_Err_gradient; [exact H | discriminate]).
    now left. }
  split.
  - destruct C as [-> | (flags & o & _ & Hg)]; [now left |].
    apply readGradient_Err in Hg.
    destruct Hg as [_ [[_ ->] | (size & _ & [[_ ->] | [(_ & _ & ->) | (_ & _ & b & _ & _ & ->)]])]];
      eauto 10.
  - intros flags E0 Hf. destruct C as [-> | (flags' & o & Hc & Hg)]; [reflexivity |].
    apply readGradient_Err in Hg. destruct Hg as [Hf' _].
    unfold gradientCursor in Hc. rewrite E0 in Hc. cbn [bind] in Hc.
    assert (flags' = flags); [| congruence].
    repeat (apply bind_Ok in Hc; destruct Hc as ([? ?] & _ & Hc)).
    apply Ok_inj in Hc. congruence.
Qed.

Lemma fromBytes_failures_witness :
  fromBytes [x00; x01; x03; x00; x02; x00] = Err (GradientSizeTooSmall 3)
  /\ (GradientSizeTooSmall 3 = OutOfBounds
      \/ (exists size, GradientSizeTooSmall 3 = GradientSizeTooSmall size)
      \/ (exists size from, GradientSizeTooSmall 3 = GradientBeyondEnd size from)
      \/ (exists count extent o size,
            GradientSizeTooSmall 3 = GradientNotEnoughData count extent o size)).
Proof.
  split; [reflexivity |].
  apply (fromBytes_failures [x00; x01; x03; x00; x02; x00]). reflexivity.
Defined.

Lemma fixedField_run {A : Type} (present : bool) (n : nat)
      (value : list byte -> A) (view : list byte) (o : nat) :
  (o + (if present then n else 0) <= length view)%nat ->
  fixedField present n value view o
  = Ok (if present then Some (value (window view o n)) else None,
        (o + (if present then n else 0))%nat).
Proof.
  intros H. unfold fixedField. destruct present.
  - destruct (Nat.leb_spec (o + n) (length view)); [reflexivity | lia].
  - now rewrite Nat.add_0_r.
Qed.

Lemma fixedField_cursor_flag {A : Type} (present : bool) (n : nat)
      (value : list byte -> A) (view : list byte) (o : nat)
      (a : option A) (o' : nat) :
  fixedField present n value view o = Ok (a, o') ->
  o' = (o + if present then n else 0)%nat.
Proof.
  intros H. apply fixedField_Ok in H.
  destruct H as [(-> & _ & ->) | (-> & _ & -> & _)]; lia.
Qed.



End DecoderFailures.

(** ** Scaled colours back to coordinates *)

Section FromScaled.

(** X20. [fromScaled] maps the 12-bit coordinates onto the gamut box: 0 is
    sent to 0, 4095 to the axis maximum (0.7347 for x, 0.8264 for y), every
    value in between to a coordinate between these two, and a larger scaled
    value never to a smaller coordinate. *)
Theorem fromScaled_box (s s' : HueLightColorXYScaled.t) :
  let fx := fun s => HueLightColorXY.x (HueLightColorXY.fromScaled s) in
  let fy := fun s => HueLightColorXY.y (HueLightColorXY.fromScaled s) in
  (HueLightColorXYScaled.x s = 0 -> (fx s == 0)%Q)
  /\ (HueLightColorXYScaled.y s = 0 -> (fy s == 0)%Q)
  /\ (HueLightColorXYScaled.x s = 4095
      -> (fx s == HueLightColorXYScaled.SCALING_MAX_X)%Q)
  /\ (HueLightColorXYScaled.y s = 4095
      -> (fy s == HueLightColorXYScaled.SCALING_MAX_Y)%Q)
  /\ (0 <= HueLightColorXYScaled.x s <= 4095 ->
      (0 <= fx s <= HueLightColorXYScaled.SCALING_MAX_X)%Q)
  /\ (0 <= HueLightColorXYScaled.y s <= 4095 ->
      (0 <= fy s <= HueLightColorXYScaled.SCALING_MAX_Y)%Q)
  /\ (HueLightColorXYScaled.x s <= HueLightColorXYScaled.x s'
      -> (fx s <= fx s')%Q)
  /\ (HueLightColorXYScaled.y s <= HueLightColorXYScaled.y s'
      -> (fy s <= fy s')%Q).
Proof.
  cbv zeta. unfold HueLightColorXY.fromScaled.
  cbn [HueLightColorXY.x HueLightColorXY.y].
  unfold HueLightColorXYScaled.SCALING_MAX_X, HueLightColorXYScaled.SCALING_MAX_Y,
    Qdiv.
  change (/ inject_Z 0xfff)%Q with (1 # 4095)%Q.
  destruct s as [x y], s' as [x' y'].
  cbn [HueLightColorXYScaled.x HueLightColorXYScaled.y].
  split; [intros ->; reflexivity |]. split; [intros ->; reflexivity |].
  split; [intros ->; reflexivity |]. split; [intros ->; reflexivity |].
  split.
  { intros [H0 H1]. rewrite Zle_Qle in H0, H1.
    change (inject_Z 0) with 0%Q in H0. change (inject_Z 4095) with 4095%Q in H1.
    split; lra. }
  split.
  { intros [H0 H1]. rewrite Zle_Qle in H0, H1.
    change (inject_Z 0) with 0%Q in H0. change (inject_Z 4095) with 4095%Q in H1.
    split; lra. }
  split; intros H; rewrite Zle_Qle in H; lra.
Qed.

Lemma fromScaled_box_witness :
  (HueLightColorXY.x (HueLightColorXY.fromScaled (HueLightColorXYScaled.mk 4095 0))
   == 0.7347)%Q.
Proof.
  apply (fromScaled_box (HueLightColorXYScaled.mk 4095 0)
                        (HueLightColorXYScaled.mk 4095 0)).
  reflexivity.
Defined.

End FromScaled.
